(** * pi-camera-connect: the capture-stream demultiplexer of [StreamCamera]

    A shallow embedding of [stream-camera.ts]: the MJPEG frame
    extraction loop of the stdout [data] listener, the fan-out of raw chunks
    to the [stream.Readable] objects handed out by [createStream], and the
    life cycle operations [startCapture], [stopCapture] and [takeImage].

    Buffers are lists of bytes. The camera object lives in a [State] together
    with the objects it refers to (processes, listeners, readables, promises);
    method calls and process events are [Event]s, and a [run] applies them in
    order. The asynchronous executor of [startCapture] is cut at its [await]:
    the call itself, and its resumption as an event of its own. *)

From Stdlib Require Import ZArith Lia.
From Stdlib Require Import Strings.Byte Strings.String.
From stdpp Require Import base decidable option list numbers relations.

Open Scope Z_scope.
Open Scope nat_scope.

(** ** Buffers *)

(** A Node [Buffer] is an immutable-length sequence of bytes. *)
Definition Buffer := list byte.

#[global] Instance byte_eq_decision : EqDecision byte := Byte.byte_eq_dec.

(** [search value buf i]: [buf] is the part of a buffer that starts at offset
    [i]; the result is the offset of the first place, from [i] on, where
    [value] occurs. *)
Fixpoint search (value buf : Buffer) (i : nat) : option nat :=
  if bool_decide (value `prefix_of` buf) then Some i
  else match buf with
       | [] => None
       | _ :: rest => search value rest (S i)
       end.

(** [indexFrom value buf byteOffset] is [buf.indexOf(value, byteOffset)] for a
    non-negative [byteOffset], as an option: an offset beyond the end of the
    buffer is clamped to its length, as Node does. *)
Definition indexFrom (value buf : Buffer) (byteOffset : nat) : option nat :=
  let from := byteOffset `min` length buf in
  search value (drop from buf) from.

(** [buf.indexOf(value, byteOffset)]: the offset found, or [-1]. Both calls
    in the listener pass a non-negative offset, [0] and
    [jpegSignature.length]. *)
Definition indexOf (buf value : Buffer) (byteOffset : nat) : Z :=
  match indexFrom value buf byteOffset with
  | Some i => Z.of_nat i
  | None => (-1)%Z
  end.

(** Offsets given to [slice] count from the end when negative and are clamped
    to the buffer. *)
Definition adjustOffset (len i : Z) : Z :=
  if (i <? 0)%Z then Z.max 0 (len + i) else Z.min i len.

(** [buf.slice(start, end)]; [end_ = None] is the call with one argument. *)
Definition slice (buf : Buffer) (start : Z) (end_ : option Z) : Buffer :=
  let len := Z.of_nat (length buf) in
  let s := adjustOffset len start in
  let e := match end_ with Some e => adjustOffset len e | None => len end in
  take (Z.to_nat (e - s)) (drop (Z.to_nat s) buf).

(** ** The frame extraction loop *)

(** The [while (true)] loop of the stdout [data] listener, one pass for each
    unit of fuel. The result is the list of buffers given to
    [emit('frame', _)], in order, with the value of [stdoutBuffer] when the
    loop is left by [break]. [None]: the fuel ran out before a [break]. With
    a non-empty signature and more fuel than the buffer has bytes the loop
    reaches a [break] ([extractFrames_total]); with an empty signature it
    never does ([extractFrames_empty_signature]). *)
Fixpoint extractFrames (fuel : nat) (jpegSignature stdoutBuffer : Buffer)
  : option (list Buffer * Buffer) :=
  match fuel with
  | 0 => None
  | S fuel =>
    let signatureIndex := indexOf stdoutBuffer jpegSignature 0 in
    if (signatureIndex =? -1)%Z then Some ([], stdoutBuffer) else
    let stdoutBuffer :=
      if (signatureIndex >? 0)%Z then slice stdoutBuffer signatureIndex None
      else stdoutBuffer in
    let nextSignatureIndex :=
      indexOf stdoutBuffer jpegSignature (length jpegSignature) in
    if (nextSignatureIndex =? -1)%Z then Some ([], stdoutBuffer) else
    let frame := slice stdoutBuffer 0 (Some nextSignatureIndex) in
    '(frames, rest) ←
      extractFrames fuel jpegSignature (slice stdoutBuffer nextSignatureIndex None);
    Some (frame :: frames, rest)
  end.

(** The codecs of [enum Codec]. *)
Inductive Codec := H264 | MJPEG.

#[global] Instance Codec_eq_decision : EqDecision Codec.
Proof. solve_decision. Defined.

(** The part of the stdout [data] listener after the fan-out: what it emits
    as frames and the new value of the closure variable [stdoutBuffer].
    [codec] is [this.options.codec], [None] when it is [undefined]. *)
Definition parseFrames (codec : option Codec) (jpegSignature stdoutBuffer data : Buffer)
  : option (list Buffer * Buffer) :=
  if decide (codec ≠ Some MJPEG) then Some ([], stdoutBuffer)
  else
    let stdoutBuffer := stdoutBuffer ++ data in
    extractFrames (S (length stdoutBuffer)) jpegSignature stdoutBuffer.

(** Successive [data] events on one listener, from the frames emitted so far
    and the current [stdoutBuffer]. *)
Fixpoint feed (codec : option Codec) (jpegSignature : Buffer)
    (emitted : list Buffer) (stdoutBuffer : Buffer) (chunks : list Buffer)
  : option (list Buffer * Buffer) :=
  match chunks with
  | [] => Some (emitted, stdoutBuffer)
  | data :: chunks =>
    '(frames, stdoutBuffer) ← parseFrames codec jpegSignature stdoutBuffer data;
    feed codec jpegSignature (emitted ++ frames) stdoutBuffer chunks
  end.

(** The bytes of an ASCII string, for examples. *)
Definition bytes (s : string) : Buffer := list_byte_of_string s.

(** ** The signature provider *)

Inductive Error := MkError (message : string).

(** [StreamCamera.getJpegSignature], as a function of [systemInfo.model]. *)
Definition getJpegSignature (model : string) : Error + Buffer :=
  if ((model =? "BCM2711") || (model =? "BCM2835 - Pi 3 Model B")
      || (model =? "BCM2835 - Pi 3 Model B+") || (model =? "BCM2835 - Pi 4 Model B")
      || (model =? "BCM2835 - Pi Zero") || (model =? "BCM2835 - Pi Zero W")
      || (model =? "Docker Container"))%string
  then inr [xff; xd8; xff; xdb; x00; x84; x00]
  else inl (MkError ("Could not determine JPEG signature. Unknown system model '"
                     ++ model ++ "'")).

(** ** The camera object and its world *)

(** A promise: settled at most once. *)
Inductive Settled (A : Type) :=
| Pending
| Resolved (value : A)
| Rejected (reason : Error).
Arguments Pending {A}.
Arguments Resolved {A} value.
Arguments Rejected {A} reason.

(** [resolve] and [reject] act on a pending promise only. *)
Definition settle {A} (outcome p : Settled A) : Settled A :=
  match p with
  | Pending => outcome
  | _ => p
  end.

(** What one [startCapture] call creates: the process it spawns and the
    promise it returns. [awaiting]: the executor is suspended at
    [await StreamCamera.getJpegSignature()]. *)
Record ChildProcess := {
  killed : bool;
  startPromise : Settled unit;
  onceError : bool;
  onceData : bool;
  awaiting : bool;
}.

(** A listener attached by [stdout.on('data', _)]: the process it listens to
    and its closure variables. *)
Record DataListener := {
  target : nat;
  jpegSignature : Buffer;
  stdoutBuffer : Buffer;
}.

(** A [stream.Readable] made by [createStream]: the values pushed to it so
    far, [None] for [null]. *)
Abbreviation Readable := (list (option Buffer)).

(** The [StreamCamera] object ([codec] is [this.options.codec]; [childProcess]
    and [streams] hold references into [processes] and [readables];
    [frameListeners] are the [once('frame', _)] listeners of [takeImage], each
    named by the promise it resolves), the objects it refers to, the host's
    [systemInfo.model], and two histories: the frames given to
    [emit('frame', _)] and the chunks the data listeners were called with. *)
Record State := {
  codec : option Codec;
  childProcess : option nat;
  streams : list nat;
  frameListeners : list nat;
  systemModel : string;
  processes : list ChildProcess;
  dataListeners : list DataListener;
  readables : list Readable;
  images : list (Settled Buffer);
  emittedFrames : list Buffer;
  dispatched : list Buffer;
}.

Definition set_childProcess (v : option nat) (s : State) : State :=
  {| codec := codec s; childProcess := v; streams := streams s;
     frameListeners := frameListeners s; systemModel := systemModel s;
     processes := processes s; dataListeners := dataListeners s;
     readables := readables s; images := images s;
     emittedFrames := emittedFrames s; dispatched := dispatched s |}.

Definition set_streams (v : list nat) (s : State) : State :=
  {| codec := codec s; childProcess := childProcess s; streams := v;
     frameListeners := frameListeners s; systemModel := systemModel s;
     processes := processes s; dataListeners := dataListeners s;
     readables := readables s; images := images s;
     emittedFrames := emittedFrames s; dispatched := dispatched s |}.

Definition set_frameListeners (v : list nat) (s : State) : State :=
  {| codec := codec s; childProcess := childProcess s; streams := streams s;
     frameListeners := v; systemModel := systemModel s;
     processes := processes s; dataListeners := dataListeners s;
     readables := readables s; images := images s;
     emittedFrames := emittedFrames s; dispatched := dispatched s |}.

Definition set_processes (v : list ChildProcess) (s : State) : State :=
  {| codec := codec s; childProcess := childProcess s; streams := streams s;
     frameListeners := frameListeners s; systemModel := systemModel s;
     processes := v; dataListeners := dataListeners s;
     readables := readables s; images := images s;
     emittedFrames := emittedFrames s; dispatched := dispatched s |}.

Definition set_dataListeners (v : list DataListener) (s : State) : State :=
  {| codec := codec s; childProcess := childProcess s; streams := streams s;
     frameListeners := frameListeners s; systemModel := systemModel s;
     processes := processes s; dataListeners := v;
     readables := readables s; images := images s;
     emittedFrames := emittedFrames s; dispatched := dispatched s |}.

Definition set_readables (v : list Readable) (s : State) : State :=
  {| codec := codec s; childProcess := childProcess s; streams := streams s;
     frameListeners := frameListeners s; systemModel := systemModel s;
     processes := processes s; dataListeners := dataListeners s;
     readables := v; images := images s;
     emittedFrames := emittedFrames s; dispatched := dispatched s |}.

Definition set_images (v : list (Settled Buffer)) (s : State) : State :=
  {| codec := codec s; childProcess := childProcess s; streams := streams s;
     frameListeners := frameListeners s; systemModel := systemModel s;
     processes := processes s; dataListeners := dataListeners s;
     readables := readables s; images := v;
     emittedFrames := emittedFrames s; dispatched := dispatched s |}.

Definition set_emittedFrames (v : list Buffer) (s : State) : State :=
  {| codec := codec s; childProcess := childProcess s; streams := streams s;
     frameListeners := frameListeners s; systemModel := systemModel s;
     processes := processes s; dataListeners := dataListeners s;
     readables := readables s; images := images s;
     emittedFrames := v; dispatched := dispatched s |}.

Definition set_dispatched (v : list Buffer) (s : State) : State :=
  {| codec := codec s; childProcess := childProcess s; streams := streams s;
     frameListeners := frameListeners s; systemModel := systemModel s;
     processes := processes s; dataListeners := dataListeners s;
     readables := readables s; images := images s;
     emittedFrames := emittedFrames s; dispatched := v |}.

(** [new StreamCamera(options)] on a host whose model is [model].
    [codecOption] is the [codec] key of [options]: [None] when the key is
    absent (the default [Codec.H264] stays), [Some None] when it is present
    and [undefined]. The other options only shape the command line. *)
Definition newStreamCamera (codecOption : option (option Codec)) (model : string)
  : State :=
  {| codec := default (Some H264) codecOption; childProcess := None;
     streams := []; frameListeners := []; systemModel := model;
     processes := []; dataListeners := []; readables := []; images := [];
     emittedFrames := []; dispatched := [] |}.

(** ** [startCapture] *)

Definition spawned : ChildProcess :=
  {| killed := false; startPromise := Pending; onceError := true;
     onceData := true; awaiting := true |}.

Definition settleStart (outcome : Settled unit) (proc : ChildProcess) : ChildProcess :=
  {| killed := killed proc; startPromise := settle outcome (startPromise proc);
     onceError := onceError proc; onceData := onceData proc;
     awaiting := awaiting proc |}.

Definition resumed (proc : ChildProcess) : ChildProcess :=
  {| killed := killed proc; startPromise := startPromise proc;
     onceError := onceError proc; onceData := onceData proc; awaiting := false |}.

Definition dataSeen (proc : ChildProcess) : ChildProcess :=
  {| killed := killed proc; startPromise := startPromise proc;
     onceError := onceError proc; onceData := false; awaiting := awaiting proc |}.

Definition errorSeen (proc : ChildProcess) : ChildProcess :=
  {| killed := killed proc; startPromise := startPromise proc;
     onceError := false; onceData := onceData proc; awaiting := awaiting proc |}.

Definition kill (proc : ChildProcess) : ChildProcess :=
  {| killed := true; startPromise := startPromise proc;
     onceError := onceError proc; onceData := onceData proc;
     awaiting := awaiting proc |}.

(** The call of [startCapture] up to its [await]: the process is spawned and
    stored in [this.childProcess], the [once('error')] and
    [stdout.once('data')] listeners are attached. The result names the call:
    the handle of the process it spawned. (The argument list built from the
    options is left out; nothing here depends on it.) *)
Definition startCapture (s : State) : State * nat :=
  let handle := length (processes s) in
  (set_childProcess (Some handle) (set_processes (processes s ++ [spawned]) s),
   handle).

(** The rest of the executor of call [call], run when the promise of
    [getJpegSignature] is settled: the [catch] rejects with the error thrown,
    otherwise the data listener is attached to what [this.childProcess] is
    now. (The listeners that forward [error] and [close] events are left
    out.) *)
Definition resumeStartCapture (call : nat) (s : State) : State :=
  match processes s !! call with
  | Some proc =>
    if awaiting proc then
      let s := set_processes (alter resumed call (processes s)) s in
      match getJpegSignature (systemModel s) with
      | inl err =>
        set_processes (alter (settleStart (Rejected err)) call (processes s)) s
      | inr signature =>
        match childProcess s with
        | Some handle =>
          set_dataListeners
            (dataListeners s
             ++ [{| target := handle; jpegSignature := signature;
                    stdoutBuffer := [] |}]) s
        | None =>
          set_processes
            (alter (settleStart (Rejected (MkError "TypeError"))) call
                   (processes s)) s
        end
      end
    else s
  | None => s
  end.

(** The [error] event of process [handle]. *)
Definition processError (handle : nat) (s : State) : State :=
  match processes s !! handle with
  | Some proc =>
    if onceError proc then
      set_processes
        (alter (λ proc, errorSeen (settleStart (Rejected (MkError
           "Could not start capture with StreamCamera. Are you running on a Raspberry Pi with 'raspivid' installed?")) proc))
           handle (processes s)) s
    else s
  | None => s
  end.

(** ** The stdout [data] listener *)

(** [refs.forEach(...)] where the callback changes the object behind each
    reference by [f]. *)
Definition alterEach {A} (f : A → A) (refs : list nat) (heap : list A) : list A :=
  foldl (λ heap r, alter f r heap) heap refs.

(** [this.streams.forEach((innerStream) => innerStream.push(value))]. *)
Definition pushAll (value : option Buffer) (streams : list nat)
    (heap : list Readable) : list Readable :=
  alterEach (λ items, items ++ [value]) streams heap.

Definition fanOut (data : Buffer) (s : State) : State :=
  set_dispatched (dispatched s ++ [data])
    (set_readables (pushAll (Some data) (streams s) (readables s)) s).

(** [this.emit('frame', frame)]: every [once] listener is removed and called;
    it resolves its promise with the frame. *)
Definition emitFrame (s : State) (frame : Buffer) : State :=
  set_emittedFrames (emittedFrames s ++ [frame])
    (set_frameListeners []
       (set_images
          (alterEach (settle (Resolved frame)) (frameListeners s) (images s)) s)).

(** One call of the [k]-th data listener. *)
Definition dataListener (k : nat) (data : Buffer) (s : State) : option State :=
  match dataListeners s !! k with
  | Some l =>
    let s := fanOut data s in
    '(frames, rest) ← parseFrames (codec s) (jpegSignature l) (stdoutBuffer l) data;
    let s :=
      set_dataListeners
        (<[k := {| target := target l; jpegSignature := jpegSignature l;
                   stdoutBuffer := rest |}]> (dataListeners s)) s in
    Some (foldl emitFrame s frames)
  | None => Some s
  end.

(** The listeners among [ks] that are attached to [handle], called in turn. *)
Fixpoint callListeners (handle : nat) (data : Buffer) (ks : list nat) (s : State)
  : option State :=
  match ks with
  | [] => Some s
  | k :: ks =>
    match dataListeners s !! k with
    | Some l =>
      if decide (target l = handle) then
        s ← dataListener k data s; callListeners handle data ks s
      else callListeners handle data ks s
    | None => callListeners handle data ks s
    end
  end.

(** The [data] event of the stdout of process [handle]: the [once] listener
    of [startCapture] resolves, then the data listeners run in the order they
    were attached. *)
Definition stdoutData (handle : nat) (data : Buffer) (s : State) : option State :=
  match processes s !! handle with
  | Some proc =>
    let s :=
      if onceData proc then
        set_processes
          (alter (λ proc, dataSeen (settleStart (Resolved ()) proc)) handle
                 (processes s)) s
      else s in
    callListeners handle data (seq 0 (length (dataListeners s))) s
  | None => Some s
  end.

(** ** [stopCapture], [createStream], [takeImage] *)

Definition stopCapture (s : State) : State :=
  let s :=
    match childProcess s with
    | Some handle => set_processes (alter kill handle (processes s)) s
    | None => s
    end in
  set_streams [] (set_readables (pushAll None (streams s) (readables s)) s).

Definition createStream (s : State) : State * nat :=
  let newStream := length (readables s) in
  (set_streams (streams s ++ [newStream]) (set_readables (readables s ++ [[]]) s),
   newStream).

(** [takeImage]: the error thrown, or the new state with the promise
    returned. *)
Definition takeImage (s : State) : Error + State * nat :=
  if decide (codec s ≠ Some MJPEG) then
    inl (MkError "Codec must be 'MJPEG' to take image")
  else
    let promise := length (images s) in
    inr (set_frameListeners (frameListeners s ++ [promise])
           (set_images (images s ++ [Pending]) s),
         promise).

(** ** Runs *)

(** What can happen to a camera: calls of its methods by the owner, and
    events of the processes it spawned. *)
Inductive Event :=
| CallStartCapture
| ResumeStartCapture (call : nat)
| StdoutData (handle : nat) (data : Buffer)
| ProcessError (handle : nat)
| CallStopCapture
| CallCreateStream
| CallTakeImage.

#[global] Instance Event_eq_decision : EqDecision Event.
Proof. solve_decision. Defined.

(** [None]: a data listener does not return. A [takeImage] that throws
    leaves the state as it is. *)
Definition step (s : State) (e : Event) : option State :=
  match e with
  | CallStartCapture => Some (startCapture s).1
  | ResumeStartCapture call => Some (resumeStartCapture call s)
  | StdoutData handle data => stdoutData handle data s
  | ProcessError handle => Some (processError handle s)
  | CallStopCapture => Some (stopCapture s)
  | CallCreateStream => Some (createStream s).1
  | CallTakeImage =>
    match takeImage s with
    | inl _ => Some s
    | inr (s, _) => Some s
    end
  end.

Fixpoint run (s : State) (events : list Event) : option State :=
  match events with
  | [] => Some s
  | e :: events => s ← step s e; run s events
  end.

(** The state a run ends in (the state it starts in when it does not end). *)
Definition after (s : State) (events : list Event) : State :=
  default s (run s events).

(** ** Occurrences of the signature (specification side) *)

(** [value] occurs in [buf] at offset [i]. *)
Definition occurs_at (value buf : Buffer) (i : nat) : Prop :=
  value `prefix_of` drop i buf.

#[global] Instance occurs_at_dec value buf i : Decision (occurs_at value buf i).
Proof. unfold occurs_at. apply _. Defined.

(** The offsets from [p] on at which [value] occurs in [buf], in increasing
    order. *)
Definition occurrences_from (value buf : Buffer) (p : nat) : list nat :=
  filter (occurs_at value buf) (seq p (S (length buf) - p)).

Definition occurrences (value buf : Buffer) : list nat :=
  occurrences_from value buf 0.

(** The slices of [buf] between each offset of the list and the next one. *)
Fixpoint segments (buf : Buffer) (offsets : list nat) : list Buffer :=
  match offsets with
  | a :: (b :: _) as rest => take (b - a) (drop a buf) :: segments buf rest
  | _ => []
  end.

(** A signature that cannot overlap a shifted copy of itself: no proper
    suffix of it is also a prefix. *)
Definition unbordered (value : Buffer) : Prop :=
  Forall (λ d, drop d value ≠ take (length value - d) value)
         (seq 1 (length value - 1)).

#[global] Instance unbordered_dec value : Decision (unbordered value).
Proof. unfold unbordered. apply _. Defined.

(** ** Shapes of frames and buffers *)

(** The shape of an emitted frame: the signature at offset 0 and at no
    offset from the signature's length on. *)
Definition frame_shape (signature frame : Buffer) : Prop :=
  signature `prefix_of` frame
  ∧ ∀ j, length signature ≤ j → ¬ occurs_at signature frame j.

(** The shape of the buffer a pass leaves: no signature in it at all, or the
    signature at offset 0 and no second one after it. *)
Definition buffer_shape (signature buf : Buffer) : Prop :=
  (∀ i, ¬ occurs_at signature buf i)
  ∨ (signature `prefix_of` buf
     ∧ ∀ j, length signature ≤ j → ¬ occurs_at signature buf j).

(** ** Elementary transitions *)

(** The state after the part of a data listener's call that comes before
    the frames are emitted: the fan-out is done and the closure variable
    [stdoutBuffer] has its final value. *)
Definition listened (k : nat) (l : DataListener) (rest data : Buffer) (s : State)
  : State :=
  set_dataListeners
    (<[k := {| target := target l; jpegSignature := jpegSignature l;
               stdoutBuffer := rest |}]> (dataListeners s))
    (fanOut data s).

(** The elementary transitions an event is made of. A frame is emitted only
    by an MJPEG camera, and comes out of the loop of one of its listeners. *)
Inductive atom : Event → State → State → Prop :=
| atom_start s :
    atom CallStartCapture s (startCapture s).1
| atom_resume call s :
    atom (ResumeStartCapture call) s (resumeStartCapture call s)
| atom_error handle s :
    atom (ProcessError handle) s (processError handle s)
| atom_stop s :
    atom CallStopCapture s (stopCapture s)
| atom_create s :
    atom CallCreateStream s (createStream s).1
| atom_take s s' promise :
    takeImage s = inr (s', promise) → atom CallTakeImage s s'
| atom_once handle data s :
    atom (StdoutData handle data) s
      (set_processes
         (alter (λ proc, dataSeen (settleStart (Resolved ()) proc)) handle
                (processes s)) s)
| atom_listen handle data k l frames rest s :
    dataListeners s !! k = Some l →
    parseFrames (codec s) (jpegSignature l) (stdoutBuffer l) data
    = Some (frames, rest) →
    atom (StdoutData handle data) s (listened k l rest data s)
| atom_emit handle data s frame l :
    codec s = Some MJPEG →
    l ∈ dataListeners s → frame_shape (jpegSignature l) frame →
    atom (StdoutData handle data) s (emitFrame s frame).

(** ** The invariant of a camera *)

(** The registry holds distinct references to streams that exist and were
    not ended, and every data listener holds the signature the provider
    gives on this host. *)
Record wf (s : State) : Prop := {
  wf_streams_valid : ∀ r, r ∈ streams s → r < length (readables s);
  wf_streams_NoDup : NoDup (streams s);
  wf_streams_open :
    ∀ r items, r ∈ streams s → readables s !! r = Some items → None ∉ items;
  wf_signatures :
    ∀ l, l ∈ dataListeners s →
         getJpegSignature (systemModel s) = inr (jpegSignature l);
}.

Ltac unfold_ops :=
  unfold startCapture, resumeStartCapture, processError, stopCapture,
    createStream, takeImage, listened, fanOut, emitFrame in *.

(** ** Relations between a state and a later one *)

(** A stream that is not in the registry stays out of it and receives
    nothing. *)
Definition closed_stays (r : nat) (s s' : State) : Prop :=
  length (readables s) ≤ length (readables s')
  ∧ (r ∉ streams s → r < length (readables s) →
     (r ∉ streams s') ∧ readables s' !! r = readables s !! r).

(** A stream in the registry stays in it while [stopCapture] is not called,
    and receives the chunks the data listeners are called with, in order. *)
Definition receives (r : nat) (s s' : State) : Prop :=
  ∃ chunks,
    dispatched s' = dispatched s ++ chunks
    ∧ (r ∈ streams s →
       r ∈ streams s'
       ∧ readables s' !! r
         = (λ items, items ++ (Some <$> chunks)) <$> readables s !! r).

(** While a promise's listener is attached the promise is settled by the
    first frame emitted, and by nothing else; the listener is then gone. *)
Definition settles (p : nat) (s s' : State) : Prop :=
  ∃ frames,
    emittedFrames s' = emittedFrames s ++ frames
    ∧ length (images s) ≤ length (images s')
    ∧ (p ∈ frameListeners s → images s !! p = Some Pending →
       match frames with
       | [] => p ∈ frameListeners s' ∧ images s' !! p = Some Pending
       | frame :: _ =>
         (p ∉ frameListeners s') ∧ images s' !! p = Some (Resolved frame)
       end)
    ∧ (p ∉ frameListeners s → p < length (images s) →
       (p ∉ frameListeners s') ∧ images s' !! p = images s !! p).

(** ** Plain mode *)


(** ** Invariants of runs *)

(** Every listener's buffer and every frame emitted so far has its shape. *)
Definition shapes (s : State) : Prop :=
  (∀ l, l ∈ dataListeners s → buffer_shape (jpegSignature l) (stdoutBuffer l))
  ∧ (∀ frame, frame ∈ emittedFrames s →
       ∃ signature,
         getJpegSignature (systemModel s) = inr signature
         ∧ frame_shape signature frame).

(** A camera started once whose executor has resumed with a signature: one
    process, one data listener attached to it. *)
Definition single_session (s : State) : Prop :=
  ∃ proc l,
    processes s = [proc] ∧ awaiting proc = false
    ∧ dataListeners s = [l] ∧ target l = 0.

(** ** [spawnPromise] *)

(** [spawnPromise(command, args, options)]: the process is run to the end of
    its stdout and the promise gives all its stdout, or the reason of the
    failure. The state is the promise with the closure variables of the
    executor and the listeners still attached. *)
Module SpawnPromise.

(** The reason of a rejection: an [Error] value, or
    [new Error(stderrData.toString())], kept as its bytes. *)
Inductive Reason :=
| ErrorValue (err : Error)
| StderrText (stderrData : Buffer).

Inductive Promise :=
| Waiting
| Fulfilled (stdoutData : Buffer)
| Failed (reason : Reason).

(** [resolve] and [reject] act on a pending promise only. *)
Definition settle (outcome p : Promise) : Promise :=
  match p with
  | Waiting => outcome
  | _ => p
  end.

(** [attached]: the [data] and [close] listeners are attached; the three
    next fields: the [once('error')] listeners of the process, of its stdout
    and of its stderr are still attached. [thrown]: the error of an [error]
    event that found no listener; [emit] throws it, nothing in the program
    catches it, and the program ends there. *)
Record State := {
  promise : Promise;
  stdoutData : Buffer;
  stderrData : Buffer;
  attached : bool;
  onceError : bool;
  onceStdoutError : bool;
  onceStderrError : bool;
  thrown : option Error;
}.

(** [emit('error', err)] on an emitter without a listener for it. *)
Definition throw (err : Error) (s : State) : State :=
  {| promise := promise s; stdoutData := stdoutData s;
     stderrData := stderrData s; attached := attached s;
     onceError := onceError s; onceStdoutError := onceStdoutError s;
     onceStderrError := onceStderrError s; thrown := Some err |}.

(** The executor. [hasStdout] and [hasStderr]: the process spawned has a
    [stdout] and a [stderr] (it has none when [options.stdio] says so). A
    [throw] in the executor rejects the promise, and the listeners below it
    are not attached. *)
Definition spawnPromise (command : string) (hasStdout hasStderr : bool) : State :=
  if negb hasStdout then
    {| promise := Failed (ErrorValue (MkError
         ("No 'stdout' available on spawned process '" ++ command ++ "'")));
       stdoutData := []; stderrData := []; attached := false;
       onceError := false; onceStdoutError := false; onceStderrError := false;
       thrown := None |}
  else if negb hasStderr then
    {| promise := Failed (ErrorValue (MkError
         ("No 'stderr' available on spawned process '" ++ command ++ "'")));
       stdoutData := []; stderrData := []; attached := false;
       onceError := false; onceStdoutError := false; onceStderrError := false;
       thrown := None |}
  else
    {| promise := Waiting; stdoutData := []; stderrData := []; attached := true;
       onceError := true; onceStdoutError := true; onceStderrError := true;
       thrown := None |}.

Inductive Event :=
| ProcessError (err : Error)
| StdoutData (data : Buffer)
| StdoutError (err : Error)
| StderrData (data : Buffer)
| StderrError (err : Error)
| StdoutClose.

(** The listeners an event finds, called by [emit]. *)
Definition emit (s : State) (e : Event) : State :=
  match e with
  | ProcessError err =>
    if onceError s then
      {| promise := settle (Failed (ErrorValue err)) (promise s);
         stdoutData := stdoutData s; stderrData := stderrData s;
         attached := attached s; onceError := false;
         onceStdoutError := onceStdoutError s;
         onceStderrError := onceStderrError s; thrown := thrown s |}
    else throw err s
  | StdoutData data =>
    if attached s then
      {| promise := promise s; stdoutData := stdoutData s ++ data;
         stderrData := stderrData s; attached := attached s;
         onceError := onceError s; onceStdoutError := onceStdoutError s;
         onceStderrError := onceStderrError s; thrown := thrown s |}
    else s
  | StdoutError err =>
    if onceStdoutError s then
      {| promise := settle (Failed (ErrorValue err)) (promise s);
         stdoutData := stdoutData s; stderrData := stderrData s;
         attached := attached s; onceError := onceError s;
         onceStdoutError := false; onceStderrError := onceStderrError s; thrown := thrown s |}
    else throw err s
  | StderrData data =>
    if attached s then
      {| promise := promise s; stdoutData := stdoutData s;
         stderrData := stderrData s ++ data; attached := attached s;
         onceError := onceError s; onceStdoutError := onceStdoutError s;
         onceStderrError := onceStderrError s; thrown := thrown s |}
    else s
  | StderrError err =>
    if onceStderrError s then
      {| promise := settle (Failed (ErrorValue err)) (promise s);
         stdoutData := stdoutData s; stderrData := stderrData s;
         attached := attached s; onceError := onceError s;
         onceStdoutError := onceStdoutError s; onceStderrError := false; thrown := thrown s |}
    else throw err s
  | StdoutClose =>
    if attached s then
      {| promise :=
           settle (if (0 <? length (stderrData s))%nat
                   then Failed (StderrText (stderrData s))
                   else Fulfilled (stdoutData s))
                  (promise s);
         stdoutData := stdoutData s; stderrData := stderrData s;
         attached := attached s; onceError := onceError s;
         onceStdoutError := onceStdoutError s;
         onceStderrError := onceStderrError s; thrown := thrown s |}
    else s
  end.

(** One event; after an uncaught error the program sees no event. *)
Definition step (s : State) (e : Event) : State :=
  match thrown s with
  | Some _ => s
  | None => emit s e
  end.

Definition run (s : State) (events : list Event) : State := foldl step s events.

(** The chunks of stdout, and of stderr, among the events, end to end. *)
Definition stdoutOf (events : list Event) : Buffer :=
  concat (omap (λ e, match e with StdoutData data => Some data | _ => None end)
               events).

Definition stderrOf (events : list Event) : Buffer :=
  concat (omap (λ e, match e with StderrData data => Some data | _ => None end)
               events).

(** The events that carry output, and those that report an error. *)
Definition isData (e : Event) : bool :=
  match e with
  | StdoutData _ | StderrData _ => true
  | _ => false
  end.

Definition errorOf (e : Event) : option Error :=
  match e with
  | ProcessError err | StdoutError err | StderrError err => Some err
  | _ => None
  end.

(** The state of the executor while nothing but output has come: the promise
    is pending, every listener is attached, and the two variables hold the
    output so far. *)
Definition collecting (out err : Buffer) (s : State) : Prop :=
  s = {| promise := Waiting; stdoutData := out; stderrData := err;
         attached := true; onceError := true; onceStdoutError := true;
         onceStderrError := true; thrown := None |}.

End SpawnPromise.

(** ** Counting listeners, and further invariants *)

(** The number of data listeners attached to the stdout of process
    [handle]. *)
Definition listenersOf (handle : nat) (s : State) : nat :=
  length (filter (λ l, target l = handle) (dataListeners s)).

(** Every handle the camera or a listener holds is the handle of a process
    that was spawned. *)
Definition handles_valid (s : State) : Prop :=
  (∀ handle, childProcess s = Some handle → handle < length (processes s))
  ∧ (∀ l, l ∈ dataListeners s → target l < length (processes s)).

(** Every [takeImage] promise is either pending with its listener attached,
    or resolved with a frame that was emitted and without a listener. None is
    rejected. *)
Definition images_tracked (s : State) : Prop :=
  ∀ p x, images s !! p = Some x →
    (x = Pending ∧ p ∈ frameListeners s)
    ∨ (∃ frame, x = Resolved frame ∧ frame ∈ emittedFrames s
                ∧ p ∉ frameListeners s).

(** Every stream is either in the registry and holds no [null], or out of it
    and holds exactly one [null], as its last value. *)
Definition streams_tracked (s : State) : Prop :=
  ∀ r items, readables s !! r = Some items →
    (r ∈ streams s ∧ None ∉ items)
    ∨ ((r ∉ streams s) ∧ ∃ chunks, items = (Some <$> chunks) ++ [None]).

(** The start promise and the stdout [once] listener of call [call] are in
    [s'] what they were in [s]. *)
Definition start_untouched (call : nat) (s s' : State) : Prop :=
  ∀ proc, processes s !! call = Some proc →
    ∃ proc', processes s' !! call = Some proc'
             ∧ startPromise proc' = startPromise proc
             ∧ onceData proc' = onceData proc.

(** What is settled or killed in [s] is so, and the same, in [s']. *)
Definition settled_stays (call : nat) (s s' : State) : Prop :=
  ∀ proc, processes s !! call = Some proc →
    ∃ proc', processes s' !! call = Some proc'
             ∧ (startPromise proc ≠ Pending →
                startPromise proc' = startPromise proc)
             ∧ (killed proc = true → killed proc' = true).

(** What never goes away: once [this.childProcess] is set it stays set, and
    a data listener stays attached, to the same process and with the same
    signature. *)
Definition listeners_kept (s s' : State) : Prop :=
  (is_Some (childProcess s) → is_Some (childProcess s'))
  ∧ ∀ k l, dataListeners s !! k = Some l →
      ∃ l', dataListeners s' !! k = Some l' ∧ target l' = target l
            ∧ jpegSignature l' = jpegSignature l.

(** Two states that agree on everything but the streams, their registry,
    [this.childProcess] and which processes were killed. *)
Definition apart_from_streams (s s' : State) : Prop :=
  codec s' = codec s ∧ dataListeners s' = dataListeners s
  ∧ frameListeners s' = frameListeners s ∧ images s' = images s
  ∧ emittedFrames s' = emittedFrames s ∧ dispatched s' = dispatched s
  ∧ Forall2 (λ proc proc', onceData proc' = onceData proc
                           ∧ onceError proc' = onceError proc
                           ∧ awaiting proc' = awaiting proc
                           ∧ startPromise proc' = startPromise proc)
            (processes s) (processes s').

(** ** Chunks along the events *)

(** The stdout chunks of process [handle] among the events, in order. *)
Definition chunksOf (handle : nat) (events : list Event) : list Buffer :=
  omap (λ e, match e with
             | StdoutData h data => if decide (h = handle) then Some data else None
             | _ => None
             end) events.

(** What the events, from state [s] on, are to bring to the streams of the
    registry: each stdout chunk, once for each data listener attached to the
    stdout of its process when the chunk arrives. *)
Fixpoint deliveries (s : State) (events : list Event) : list Buffer :=
  match events with
  | [] => []
  | e :: events =>
    match e with
    | StdoutData handle data => replicate (listenersOf handle s) data
    | _ => []
    end
    ++ match step s e with
       | Some s' => deliveries s' events
       | None => []
       end
  end.


(** The executor of call [call] is at its [await]. *)
Definition suspended (call : nat) (s : State) : Prop :=
  ∃ proc, processes s !! call = Some proc ∧ awaiting proc = true.

(** * Lemmas *)

(** ** Facts about [search] and [indexFrom] *)

Section SearchFacts.
Variable value : Buffer.

Lemma occurs_at_length buf i :
  value ≠ [] → occurs_at value buf i → i + length value ≤ length buf.
Proof.
  intros Hne Hocc. apply prefix_length in Hocc. rewrite length_drop in Hocc.
  destruct value; [done|]. simpl in *. lia.
Qed.

Lemma occurs_at_drop buf p i :
  occurs_at value (drop p buf) i ↔ occurs_at value buf (p + i).
Proof. unfold occurs_at. by rewrite drop_drop. Qed.

Lemma occurs_at_app buf extra i :
  i ≤ length buf → occurs_at value buf i → occurs_at value (buf ++ extra) i.
Proof.
  unfold occurs_at. intros Hi Hocc. rewrite drop_app_le by done.
  by apply prefix_app_r.
Qed.

Lemma occurs_at_app_inv buf extra i :
  i + length value ≤ length buf →
  occurs_at value (buf ++ extra) i → occurs_at value buf i.
Proof.
  unfold occurs_at. intros Hi [k Hk]. rewrite drop_app_le in Hk by lia.
  exists (drop (length value) (drop i buf)).
  assert (Hlen : length value ≤ length (drop i buf)) by (rewrite length_drop; lia).
  assert (Hv : take (length value) (drop i buf) = value).
  { rewrite <- (take_app_le _ extra) by done. rewrite Hk.
    by rewrite take_app_length. }
  rewrite <- (take_drop (length value) (drop i buf)) at 1. by rewrite Hv.
Qed.

Lemma search_spec buf i :
  match search value buf i with
  | Some j => i ≤ j ∧ occurs_at value buf (j - i)
              ∧ ∀ k, k < j - i → ¬ occurs_at value buf k
  | None => ∀ k, ¬ occurs_at value buf k
  end.
Proof.
  revert i. induction buf as [|x rest IH]; intros i; simpl.
  - case_bool_decide as Hp.
    + replace (i - i) with 0 by lia. split_and!; [lia|done|lia].
    + intros k. unfold occurs_at. by rewrite drop_nil.
  - case_bool_decide as Hp.
    + replace (i - i) with 0 by lia. split_and!; [lia|done|lia].
    + specialize (IH (S i)). destruct (search value rest (S i)) as [j|].
      * destruct IH as (Hle & Hocc & Hmin).
        replace (j - i) with (S (j - S i)) by lia.
        split_and!; [lia|done|].
        intros [|k] Hk; [done|]. apply Hmin. lia.
      * intros [|k]; [done|]. apply IH.
Qed.

Lemma indexFrom_spec buf o j :
  indexFrom value buf o = Some j ↔
    o `min` length buf ≤ j ∧ occurs_at value buf j
    ∧ ∀ k, o `min` length buf ≤ k < j → ¬ occurs_at value buf k.
Proof.
  unfold indexFrom. set (from := o `min` length buf).
  pose proof (search_spec (drop from buf) from) as Hs.
  destruct (search value (drop from buf) from) as [j'|].
  - destruct Hs as (Hle & Hocc & Hmin).
    apply occurs_at_drop in Hocc. replace (from + (j' - from)) with j' in Hocc by lia.
    assert (Hmin' : ∀ k, from ≤ k < j' → ¬ occurs_at value buf k).
    { intros k Hk Hk'. apply (Hmin (k - from)); [lia|].
      apply occurs_at_drop. by replace (from + (k - from)) with k by lia. }
    split.
    + intros [= <-]. done.
    + intros (Hle2 & Hocc2 & Hmin2). f_equal.
      destruct (Nat.lt_trichotomy j j') as [Hlt|[->|Hlt]]; [|done|].
      * by destruct (Hmin' j).
      * by destruct (Hmin2 j').
  - split; [done|]. intros (Hle & Hocc & _). exfalso.
    apply (Hs (j - from)). apply occurs_at_drop.
    by replace (from + (j - from)) with j by lia.
Qed.

Lemma indexFrom_None buf o :
  indexFrom value buf o = None ↔
    ∀ k, o `min` length buf ≤ k → ¬ occurs_at value buf k.
Proof.
  split.
  - intros Hnone k Hk Hocc. unfold indexFrom in Hnone.
    pose proof (search_spec (drop (o `min` length buf) buf) (o `min` length buf)) as Hs.
    rewrite Hnone in Hs.
    apply (Hs (k - o `min` length buf)). apply occurs_at_drop.
    by replace (o `min` length buf + (k - o `min` length buf)) with k by lia.
  - intros Hno. destruct (indexFrom value buf o) as [j|] eqn:Hj; [|done].
    apply indexFrom_spec in Hj as (Hle & Hocc & _). by destruct (Hno j).
Qed.

Lemma indexFrom_le buf o j :
  value ≠ [] → indexFrom value buf o = Some j → j + length value ≤ length buf.
Proof.
  intros Hne (_ & Hocc & _)%indexFrom_spec. by apply occurs_at_length.
Qed.

Lemma indexFrom_ge buf o j :
  value ≠ [] → indexFrom value buf o = Some j → o ≤ j.
Proof.
  intros Hne Hj. pose proof (indexFrom_le _ _ _ Hne Hj).
  apply indexFrom_spec in Hj as (Hle & _).
  destruct value; [done|]. simpl in *. lia.
Qed.

(** A match found in a buffer is found at the same place when more input
    is appended. *)
Lemma indexFrom_app buf extra o j :
  value ≠ [] →
  indexFrom value buf o = Some j → indexFrom value (buf ++ extra) o = Some j.
Proof.
  intros Hne Hj.
  pose proof (indexFrom_le _ _ _ Hne Hj) as Hlen.
  pose proof (indexFrom_ge _ _ _ Hne Hj) as Hge.
  apply indexFrom_spec in Hj as (_ & Hocc & Hmin).
  apply indexFrom_spec. rewrite length_app. split_and!.
  - lia.
  - apply occurs_at_app; [lia|done].
  - intros k Hk Hk'. apply (Hmin k); [lia|].
    apply occurs_at_app_inv in Hk'; [done|lia].
Qed.

Lemma indexFrom_drop buf p o :
  p ≤ length buf →
  indexFrom value buf (p + o) = (λ i, p + i) <$> indexFrom value (drop p buf) o.
Proof.
  intros Hp. destruct (indexFrom value (drop p buf) o) as [i|] eqn:Hi; simpl.
  - apply indexFrom_spec in Hi as (Hle & Hocc & Hmin).
    rewrite length_drop in Hle, Hmin.
    apply indexFrom_spec. split_and!.
    + lia.
    + by apply occurs_at_drop.
    + intros k Hk Hk'. apply (Hmin (k - p)); [lia|].
      apply occurs_at_drop. by replace (p + (k - p)) with k by lia.
  - apply indexFrom_None. intros k Hk Hk'.
    rewrite indexFrom_None in Hi. rewrite length_drop in Hi.
    apply (Hi (k - p)); [lia|].
    apply occurs_at_drop. by replace (p + (k - p)) with k by lia.
Qed.
End SearchFacts.

(** ** The loop in terms of [indexFrom], [take] and [drop] *)

Lemma slice_from buf i : i ≤ length buf → slice buf (Z.of_nat i) None = drop i buf.
Proof.
  intros Hi. unfold slice, adjustOffset.
  destruct (Z.ltb_spec (Z.of_nat i) 0) as [?|_]; [lia|].
  rewrite Z.min_l by lia. rewrite Nat2Z.id.
  apply take_ge. rewrite length_drop. lia.
Qed.

Lemma slice_to buf n :
  n ≤ length buf → slice buf 0 (Some (Z.of_nat n)) = take n buf.
Proof.
  intros Hn. unfold slice, adjustOffset. simpl.
  destruct (Z.ltb_spec (Z.of_nat n) 0) as [?|_]; [lia|].
  rewrite (Z.min_l (Z.of_nat n)), (Z.min_l 0%Z) by lia.
  simpl. rewrite drop_0. f_equal. lia.
Qed.

Section Loop.
Variable signature : Buffer.
Hypothesis signature_nonempty : signature ≠ [].

Lemma extractFrames_S fuel buf :
  extractFrames (S fuel) signature buf =
    match indexFrom signature buf 0 with
    | None => Some ([], buf)
    | Some i =>
      match indexFrom signature (drop i buf) (length signature) with
      | None => Some ([], drop i buf)
      | Some n =>
        '(frames, rest) ← extractFrames fuel signature (drop n (drop i buf));
        Some (take n (drop i buf) :: frames, rest)
      end
    end.
Proof.
  cbn [extractFrames]. cbv zeta.
  destruct (indexFrom signature buf 0) as [i|] eqn:Hi.
  2: { unfold indexOf. by rewrite Hi. }
  pose proof (indexFrom_le _ _ _ _ signature_nonempty Hi) as Hlen.
  assert (Hidx : indexOf buf signature 0 = Z.of_nat i).
  { unfold indexOf. by rewrite Hi. }
  rewrite Hidx. clear Hidx.
  destruct (Z.eqb_spec (Z.of_nat i) (-1)) as [?|_]; [lia|].
  assert (Hbuf : (if (Z.of_nat i >? 0)%Z then slice buf (Z.of_nat i) None else buf)
                 = drop i buf).
  { destruct i as [|i]; [done|].
    replace (Z.of_nat (S i) >? 0)%Z with true by (symmetry; apply Z.gtb_lt; lia).
    apply slice_from. lia. }
  rewrite Hbuf. clear Hbuf.
  destruct (indexFrom signature (drop i buf) (length signature))
    as [n|] eqn:Hn.
  2: { unfold indexOf. by rewrite Hn. }
  pose proof (indexFrom_le _ _ _ _ signature_nonempty Hn) as Hlen'.
  assert (Hidx : indexOf (drop i buf) signature (length signature)
                 = Z.of_nat n).
  { unfold indexOf. by rewrite Hn. }
  rewrite Hidx. clear Hidx.
  destruct (Z.eqb_spec (Z.of_nat n) (-1)) as [?|_]; [lia|].
  rewrite slice_from, slice_to by lia. done.
Qed.

(** More fuel does not change a result. *)
Lemma extractFrames_mono fuel fuel' buf r :
  extractFrames fuel signature buf = Some r → fuel ≤ fuel' →
  extractFrames fuel' signature buf = Some r.
Proof.
  revert fuel' buf r. induction fuel as [|fuel IH]; intros fuel' buf r; [done|].
  intros Hr Hle. destruct fuel' as [|fuel']; [lia|].
  rewrite extractFrames_S in *.
  destruct (indexFrom signature buf 0) as [i|]; [|done].
  destruct (indexFrom signature (drop i buf) (length signature)) as [n|];
    [|done].
  destruct (extractFrames fuel signature (drop n (drop i buf)))
    as [[frames rest]|] eqn:Hrec; [|done].
  rewrite (IH fuel' _ _ Hrec) by lia. done.
Qed.

(** The loop ends: every pass that emits a frame shortens the buffer. *)
Lemma extractFrames_total fuel buf :
  length buf < fuel → is_Some (extractFrames fuel signature buf).
Proof.
  revert buf. induction fuel as [|fuel IH]; intros buf Hlen; [lia|].
  rewrite extractFrames_S.
  destruct (indexFrom signature buf 0) as [i|] eqn:Hi; [|done].
  destruct (indexFrom signature (drop i buf) (length signature))
    as [n|] eqn:Hn; [|done].
  pose proof (indexFrom_ge _ _ _ _ signature_nonempty Hn) as Hge.
  pose proof (indexFrom_le _ _ _ _ signature_nonempty Hn) as Hle.
  rewrite length_drop in Hle.
  destruct (IH (drop n (drop i buf))) as [[frames rest] ->]; [|done].
  rewrite !length_drop. destruct signature; [done|]. simpl in *. lia.
Qed.

Lemma parseFrames_total codec buf data :
  is_Some (parseFrames codec signature buf data).
Proof.
  unfold parseFrames. case_decide; [done|].
  apply extractFrames_total. lia.
Qed.
End Loop.

(** With an empty signature the loop never reaches a [break]. *)
Lemma extractFrames_empty_signature fuel buf : extractFrames fuel [] buf = None.
Proof.
  assert (Hidx : ∀ b : Buffer, indexOf b [] 0 = 0%Z).
  { intros b. unfold indexOf, indexFrom. simpl. by destruct b. }
  revert buf. induction fuel as [|fuel IH]; intros buf; [done|].
  cbn [extractFrames]. cbv zeta. simpl length.
  pose proof (slice_from buf 0) as Hsl.
  change (Z.of_nat 0) with 0%Z in Hsl. rewrite drop_0 in Hsl.
  rewrite !Hidx. simpl. rewrite Hsl by lia. rewrite IH. done.
Qed.

(** ** What one run of the loop emits and leaves *)

Section LoopResults.
Variable signature : Buffer.
Hypothesis signature_nonempty : signature ≠ [].

Lemma indexFrom_at_0 buf :
  signature `prefix_of` buf → indexFrom signature buf 0 = Some 0.
Proof.
  intros Hp. apply indexFrom_spec. split_and!; [lia| |lia].
  unfold occurs_at. by rewrite drop_0.
Qed.

Lemma extractFrames_frames fuel buf frames rest :
  extractFrames fuel signature buf = Some (frames, rest) →
  Forall (frame_shape signature) frames.
Proof.
  revert buf frames rest. induction fuel as [|fuel IH]; intros buf frames rest; [done|].
  rewrite extractFrames_S by done.
  destruct (indexFrom signature buf 0) as [i|] eqn:Hi.
  2: { intros [= <- <-]. constructor. }
  set (b1 := drop i buf) in *.
  destruct (indexFrom signature b1 (length signature)) as [n|] eqn:Hn.
  2: { intros [= <- <-]. constructor. }
  destruct (extractFrames fuel signature (drop n b1)) as [[fs r]|] eqn:Hrec;
    [|done].
  intros [= <- <-]. constructor; [|by eapply IH].
  assert (Hb1 : signature `prefix_of` b1).
  { apply indexFrom_spec in Hi as (_ & Hocc & _). done. }
  pose proof (prefix_length _ _ Hb1) as Hlen1.
  apply indexFrom_spec in Hn as (Hge & Hocc & Hmin).
  rewrite Nat.min_l in Hge, Hmin by done.
  split.
  - destruct Hb1 as [k ->]. rewrite take_app, take_ge by done.
    by apply prefix_app_r.
  - intros j Hj Hocc'.
    pose proof (occurs_at_length _ _ _ signature_nonempty Hocc') as Hlen.
    rewrite length_take in Hlen.
    apply (Hmin j).
    + destruct signature; [done|]. simpl in *. lia.
    + rewrite <- (take_drop n b1). apply occurs_at_app; [|done].
      rewrite length_take. lia.
Qed.

Lemma extractFrames_buffer fuel buf frames rest :
  extractFrames fuel signature buf = Some (frames, rest) →
  buffer_shape signature rest.
Proof.
  revert buf frames rest. induction fuel as [|fuel IH]; intros buf frames rest; [done|].
  rewrite extractFrames_S by done.
  destruct (indexFrom signature buf 0) as [i|] eqn:Hi.
  2: { intros [= <- <-]. left. intros k.
       rewrite indexFrom_None in Hi. apply Hi. lia. }
  set (b1 := drop i buf) in *.
  assert (Hb1 : signature `prefix_of` b1).
  { apply indexFrom_spec in Hi as (_ & Hocc & _). done. }
  destruct (indexFrom signature b1 (length signature)) as [n|] eqn:Hn.
  2: { intros [= <- <-]. right. split; [done|]. intros j Hj.
       rewrite indexFrom_None in Hn. apply Hn. lia. }
  destruct (extractFrames fuel signature (drop n b1)) as [[fs r]|] eqn:Hrec;
    [|done].
  intros [= <- <-]. by eapply IH.
Qed.

(** Running the loop on what an earlier run left, with new input appended,
    is running it once on everything. *)
Lemma extractFrames_app fuel buf frames rest :
  extractFrames fuel signature buf = Some (frames, rest) →
  ∀ data fuel' frames' rest',
    extractFrames fuel' signature (rest ++ data) = Some (frames', rest') →
    ∃ fuel'',
      extractFrames fuel'' signature (buf ++ data)
      = Some (frames ++ frames', rest').
Proof.
  revert buf frames rest. induction fuel as [|fuel IH]; intros buf frames rest; [done|].
  rewrite extractFrames_S by done.
  destruct (indexFrom signature buf 0) as [i|] eqn:Hi.
  2: { intros [= <- <-] data fuel' frames' rest' H'. by exists fuel'. }
  pose proof (indexFrom_le _ _ _ _ signature_nonempty Hi) as Hlen.
  assert (Hb1 : signature `prefix_of` drop i buf).
  { apply indexFrom_spec in Hi as (_ & Hocc & _). done. }
  assert (Hdrop : ∀ data, drop i (buf ++ data) = drop i buf ++ data).
  { intros data. apply drop_app_le. lia. }
  destruct (indexFrom signature (drop i buf) (length signature))
    as [n|] eqn:Hn.
  - destruct (extractFrames fuel signature (drop n (drop i buf)))
      as [[fs r]|] eqn:Hrec; [|done].
    intros [= <- <-] data fuel' frames' rest' H'.
    destruct (IH _ _ _ Hrec _ _ _ _ H') as [fuel1 H1].
    exists (S fuel1). rewrite extractFrames_S by done.
    rewrite (indexFrom_app _ _ data _ _ signature_nonempty Hi), Hdrop.
    rewrite (indexFrom_app _ _ data _ _ signature_nonempty Hn).
    pose proof (indexFrom_le _ _ _ _ signature_nonempty Hn) as Hlen'.
    rewrite drop_app_le, take_app_le by lia. by rewrite H1.
  - intros [= <- <-] data fuel' frames' rest' H'.
    destruct fuel' as [|fuel']; [done|]. exists (S fuel').
    rewrite extractFrames_S in H' |- * by done.
    rewrite (indexFrom_app _ _ data _ _ signature_nonempty Hi), Hdrop.
    rewrite indexFrom_at_0 in H' by (by apply prefix_app_r).
    by rewrite drop_0 in H'.
Qed.

Lemma extractFrames_nil : extractFrames 1 signature [] = Some ([], []).
Proof.
  rewrite extractFrames_S by done.
  destruct (indexFrom signature [] 0) as [i|] eqn:Hi; [|done].
  apply indexFrom_le in Hi; [|done]. destruct signature; [done|].
  simpl in Hi. lia.
Qed.

(** Chunk by chunk or all at once: the frames and the buffer left are the
    same. *)
Lemma feed_batch chunks :
  ∀ emitted buf fuel input,
    extractFrames fuel signature input = Some (emitted, buf) →
    feed (Some MJPEG) signature emitted buf chunks
    = extractFrames (S (length (input ++ concat chunks))) signature
        (input ++ concat chunks).
Proof.
  induction chunks as [|data chunks IH]; intros emitted buf fuel input Hin;
    cbn [feed concat].
  - rewrite app_nil_r.
    destruct (extractFrames_total _ signature_nonempty (S (length input)) input)
      as [r Hr]; [lia|].
    rewrite Hr. destruct (Nat.le_gt_cases fuel (S (length input))).
    + rewrite (extractFrames_mono _ signature_nonempty _ _ _ _ Hin H) in Hr.
      congruence.
    + rewrite (extractFrames_mono _ signature_nonempty _ fuel _ _ Hr) in Hin by lia.
      congruence.
  - destruct (parseFrames_total _ signature_nonempty (Some MJPEG) buf data)
      as [[frames' buf'] Hp].
    rewrite Hp. cbn [mbind option_bind].
    unfold parseFrames in Hp. case_decide as Hc; [done|].
    destruct (extractFrames_app _ _ _ _ Hin _ _ _ _ Hp) as [fuel1 H1].
    rewrite (IH _ _ _ _ H1). by rewrite <- !(assoc_L (++)).
Qed.

Lemma feed_concat chunks :
  feed (Some MJPEG) signature [] [] chunks
  = extractFrames (S (length (concat chunks))) signature (concat chunks).
Proof. apply (feed_batch chunks [] [] 1 []), extractFrames_nil. Qed.
End LoopResults.

(** ** The frames are the slices between consecutive occurrences *)

Lemma filter_none {A} (P : A → Prop) `{!∀ x, Decision (P x)} (l : list A) :
  (∀ x, x ∈ l → ¬ P x) → filter P l = [].
Proof.
  induction l as [|x l IH]; intros Hl; [done|].
  rewrite filter_cons_False by (apply Hl; left).
  apply IH. intros y Hy. apply Hl. by right.
Qed.

Lemma last_cons_default {A} (x : A) (l : list A) (d d' : A) :
  List.last (x :: l) d = List.last (x :: l) d'.
Proof.
  revert x. induction l as [|y l IH]; intros x; [done|].
  cbn [List.last] in *. apply IH.
Qed.

Lemma length_segments buf offsets :
  length (segments buf offsets) = length offsets - 1.
Proof.
  induction offsets as [|a [|b rest] IH]; [done..|].
  cbn [segments length] in *. lia.
Qed.

Lemma unbordered_no_overlap value buf a d :
  unbordered value → 0 < d < length value →
  occurs_at value buf a → ¬ occurs_at value buf (a + d).
Proof.
  intros Hunb Hd [k1 Hk1] [k2 Hk2].
  unfold unbordered in Hunb. rewrite list.Forall_forall in Hunb.
  apply (Hunb d).
  { apply elem_of_seq. lia. }
  rewrite <- drop_drop, Hk1, drop_app_le in Hk2 by lia.
  apply (f_equal (take (length value - d))) in Hk2.
  rewrite take_app_le in Hk2 by (rewrite length_drop; lia).
  rewrite take_app_le in Hk2 by lia.
  rewrite take_ge in Hk2 by (rewrite length_drop; lia). done.
Qed.

Section Occurrences.
Variable signature : Buffer.
Hypothesis signature_nonempty : signature ≠ [].
Hypothesis signature_unbordered : unbordered signature.

Lemma elem_of_occurrences_from buf p i :
  i ∈ occurrences_from signature buf p ↔
    p ≤ i ∧ occurs_at signature buf i.
Proof.
  unfold occurrences_from. rewrite list_elem_of_filter, elem_of_seq.
  split; [intros [? ?]; split; [lia|done]|].
  intros [Hp Hocc]. split; [done|].
  pose proof (occurs_at_length _ _ _ signature_nonempty Hocc). lia.
Qed.

Lemma occurrences_from_None buf p :
  indexFrom signature buf p = None → p ≤ length buf →
  occurrences_from signature buf p = [].
Proof.
  intros Hnone Hp. apply filter_none. intros k Hk%elem_of_seq.
  rewrite indexFrom_None in Hnone. apply Hnone. lia.
Qed.

Lemma occurrences_from_Some buf p j :
  indexFrom signature buf p = Some j →
  occurrences_from signature buf p
  = j :: occurrences_from signature buf (S j).
Proof.
  intros Hj.
  pose proof (indexFrom_le _ _ _ _ signature_nonempty Hj) as Hlen.
  pose proof (indexFrom_ge _ _ _ _ signature_nonempty Hj) as Hge.
  apply indexFrom_spec in Hj as (_ & Hocc & Hmin).
  unfold occurrences_from.
  replace (S (length buf) - p) with ((j - p) + S (S (length buf) - S j)) by lia.
  rewrite seq_app, list.filter_app. cbn [seq].
  replace (p + (j - p)) with j by lia.
  rewrite filter_cons_True by done.
  rewrite filter_none; [done|].
  intros k Hk%elem_of_seq. apply Hmin. lia.
Qed.

Lemma occurrences_from_skip buf a :
  occurs_at signature buf a →
  occurrences_from signature buf (S a)
  = occurrences_from signature buf (a + length signature).
Proof.
  intros Hocc.
  pose proof (occurs_at_length _ _ _ signature_nonempty Hocc) as Hlen.
  assert (0 < length signature) by (destruct signature; [done|simpl; lia]).
  unfold occurrences_from.
  replace (S (length buf) - S a)
    with ((length signature - 1)
          + (S (length buf) - (a + length signature))) by lia.
  rewrite seq_app, list.filter_app.
  replace (S a + (length signature - 1)) with (a + length signature) by lia.
  rewrite filter_none; [done|].
  intros k Hk%elem_of_seq.
  replace k with (a + (k - a)) by lia.
  apply unbordered_no_overlap; [done|lia|done].
Qed.

(** One run of the loop on the input from offset [p] on: the frames are the
    slices between the occurrences from [p] on, and the buffer left starts
    at the last of them. *)
Lemma extractFrames_segments fuel input p frames rest :
  p ≤ length input →
  extractFrames fuel signature (drop p input) = Some (frames, rest) →
  frames = segments input (occurrences_from signature input p)
  ∧ rest = drop (List.last (occurrences_from signature input p) p) input.
Proof.
  revert p frames rest.
  induction fuel as [|fuel IH]; intros p frames rest Hp; [done|].
  rewrite extractFrames_S by done.
  pose proof (indexFrom_drop signature input p 0 Hp) as H0.
  rewrite Nat.add_0_r in H0.
  destruct (indexFrom signature (drop p input) 0) as [i|] eqn:Hi; simpl in H0.
  2: { intros [= <- <-]. by rewrite occurrences_from_None. }
  rewrite (occurrences_from_Some _ _ _ H0).
  pose proof (indexFrom_le _ _ _ _ signature_nonempty H0) as Hlen.
  assert (Hocc : occurs_at signature input (p + i)).
  { by apply indexFrom_spec in H0 as (_ & ? & _). }
  rewrite (occurrences_from_skip _ _ Hocc).
  rewrite drop_drop.
  pose proof (indexFrom_drop signature input (p + i) (length signature)
                ltac:(lia)) as H1.
  destruct (indexFrom signature (drop (p + i) input) (length signature))
    as [n|] eqn:Hn; simpl in H1.
  2: { intros [= <- <-]. rewrite occurrences_from_None by (done || lia). done. }
  destruct (extractFrames fuel signature (drop n (drop (p + i) input)))
    as [[fs r]|] eqn:Hrec; [|done].
  intros [= <- <-].
  rewrite (occurrences_from_Some _ _ _ H1).
  pose proof (indexFrom_le _ _ _ _ signature_nonempty H1) as Hlen'.
  rewrite drop_drop in Hrec.
  destruct (IH (p + i + n) _ _ ltac:(lia) Hrec) as [Hfs Hr].
  assert (Hq : occurrences_from signature input (p + i + n)
               = (p + i + n) :: occurrences_from signature input (S (p + i + n))).
  { apply occurrences_from_Some. apply indexFrom_spec.
    apply indexFrom_spec in H1 as (_ & ? & _). split_and!; [lia|done|lia]. }
  rewrite Hq in Hfs, Hr. cbn [segments]. split.
  - f_equal; [|done]. f_equal. lia.
  - rewrite Hr. f_equal. cbn [List.last]. apply last_cons_default.
Qed.
End Occurrences.

(** ** Objects changed through a list of references *)

Section AlterEach.
Context {A : Type} (f : A → A).

Lemma length_alterEach refs (heap : list A) :
  length (alterEach f refs heap) = length heap.
Proof.
  revert heap. induction refs as [|r refs IH]; intros heap; [done|].
  cbn [alterEach foldl]. fold (alterEach f refs (alter f r heap)).
  by rewrite IH, length_alter.
Qed.

Lemma lookup_alterEach_notin refs (heap : list A) i :
  i ∉ refs → alterEach f refs heap !! i = heap !! i.
Proof.
  revert heap. induction refs as [|r refs IH]; intros heap Hi; [done|].
  cbn [alterEach foldl]. fold (alterEach f refs (alter f r heap)).
  apply not_elem_of_cons in Hi as [Hne Hi].
  by rewrite IH, list_lookup_alter_ne.
Qed.

Lemma lookup_alterEach_NoDup refs (heap : list A) i :
  NoDup refs → i ∈ refs → alterEach f refs heap !! i = f <$> heap !! i.
Proof.
  revert heap. induction refs as [|r refs IH]; intros heap Hnd Hi.
  { by apply elem_of_nil in Hi. }
  cbn [alterEach foldl]. fold (alterEach f refs (alter f r heap)).
  apply list.NoDup_cons in Hnd as [Hr Hnd].
  destruct (decide (i = r)) as [->|Hne].
  - by rewrite lookup_alterEach_notin, list_lookup_alter_eq.
  - apply elem_of_cons in Hi as [?|Hi]; [done|].
    by rewrite IH, list_lookup_alter_ne.
Qed.

Lemma lookup_alterEach_idemp refs (heap : list A) i :
  (∀ x, f (f x) = f x) → i ∈ refs → alterEach f refs heap !! i = f <$> heap !! i.
Proof.
  intros Hf. revert heap. induction refs as [|r refs IH]; intros heap Hi.
  { by apply elem_of_nil in Hi. }
  cbn [alterEach foldl]. fold (alterEach f refs (alter f r heap)).
  destruct (decide (i = r)) as [->|Hne].
  - destruct (decide (r ∈ refs)) as [Hin|Hnin].
    + rewrite IH, list_lookup_alter_eq by done.
      destruct (heap !! r); simpl; [by rewrite Hf|done].
    + by rewrite lookup_alterEach_notin, list_lookup_alter_eq.
  - apply elem_of_cons in Hi as [?|Hi]; [done|].
    by rewrite IH, list_lookup_alter_ne.
Qed.
End AlterEach.

(** ** Runs as sequences of elementary transitions *)

Lemma parseFrames_plain codec signature buf data :
  codec ≠ Some MJPEG →
  parseFrames codec signature buf data = Some ([], buf).
Proof. intros Hc. unfold parseFrames. by rewrite decide_True. Qed.

Lemma parseFrames_frame_shape codec signature buf data frames rest :
  parseFrames codec signature buf data = Some (frames, rest) →
  Forall (frame_shape signature) frames.
Proof.
  unfold parseFrames. case_decide.
  { intros [= <- <-]. constructor. }
  destruct signature as [|b signature].
  { by rewrite extractFrames_empty_signature. }
  by apply extractFrames_frames.
Qed.

Lemma emitFrames_atoms handle data frames l s :
  codec s = Some MJPEG →
  l ∈ dataListeners s → Forall (frame_shape (jpegSignature l)) frames →
  rtc (atom (StdoutData handle data)) s (foldl emitFrame s frames).
Proof.
  revert s. induction frames as [|frame frames IH]; intros s Hc Hl Hall; [done|].
  apply list.Forall_cons in Hall as [Hframe Hall].
  cbn [foldl]. eapply rtc_l; [by eapply atom_emit|]. by apply IH.
Qed.

Lemma dataListener_atoms handle data k s s' :
  dataListener k data s = Some s' → rtc (atom (StdoutData handle data)) s s'.
Proof.
  unfold dataListener. destruct (dataListeners s !! k) as [l|] eqn:Hl.
  2: { intros [= <-]. done. }
  cbn zeta.
  destruct (parseFrames (codec (fanOut data s)) (jpegSignature l) (stdoutBuffer l) data)
    as [[frames rest]|] eqn:Hp; [|done].
  cbn [mbind option_bind]. intros [= <-].
  eapply rtc_l; [by eapply (atom_listen _ _ k l frames rest)|].
  destruct (decide (codec s = Some MJPEG)) as [Hc|Hc].
  - eapply (emitFrames_atoms _ _ _
              {| target := target l; jpegSignature := jpegSignature l;
                 stdoutBuffer := rest |}); [done| |].
    + unfold listened. cbn. eapply list_elem_of_lookup_2.
      apply list_lookup_insert_eq. by eapply lookup_lt_Some.
    + by eapply parseFrames_frame_shape.
  - change (codec (fanOut data s)) with (codec s) in Hp.
    rewrite parseFrames_plain in Hp by done. by injection Hp as <- <-.
Qed.

Lemma callListeners_atoms handle data ks s s' :
  callListeners handle data ks s = Some s' →
  rtc (atom (StdoutData handle data)) s s'.
Proof.
  revert s. induction ks as [|k ks IH]; intros s; cbn [callListeners].
  { by intros [= <-]. }
  destruct (dataListeners s !! k) as [l|]; [|by apply IH].
  case_decide; [|by apply IH].
  destruct (dataListener k data s) as [s1|] eqn:H1; [|done].
  cbn [mbind option_bind]. intros Hrest.
  etrans; [by eapply dataListener_atoms|by apply IH].
Qed.

Lemma step_atoms s e s' : step s e = Some s' → rtc (atom e) s s'.
Proof.
  destruct e as [|call|handle data|handle| | |]; cbn [step].
  - intros [= <-]. apply rtc_once, atom_start.
  - intros [= <-]. apply rtc_once, atom_resume.
  - unfold stdoutData. destruct (processes s !! handle) as [proc|].
    2: { by intros [= <-]. }
    destruct (onceData proc).
    + intros Hc. eapply rtc_l; [apply atom_once|]. by eapply callListeners_atoms.
    + apply callListeners_atoms.
  - intros [= <-]. apply rtc_once, atom_error.
  - intros [= <-]. apply rtc_once, atom_stop.
  - intros [= <-]. apply rtc_once, atom_create.
  - destruct (takeImage s) as [err|[s1 p]] eqn:Ht; intros [= <-]; [done|].
    by eapply rtc_once, atom_take.
Qed.

(** A reflexive and transitive relation that holds along every elementary
    transition of the events allowed holds along every run of them. *)
Lemma run_rel (Q : State → State → Prop) (allowed : Event → Prop) :
  (∀ s, Q s s) →
  (∀ s1 s2 s3, Q s1 s2 → Q s2 s3 → Q s1 s3) →
  (∀ e s s', allowed e → atom e s s' → Q s s') →
  ∀ events s s', Forall allowed events → run s events = Some s' → Q s s'.
Proof.
  intros Hrefl Htrans Hatom.
  assert (Hrtc : ∀ e s s', allowed e → rtc (atom e) s s' → Q s s').
  { intros e s s' He. induction 1 as [|s1 s2 s3 H12 _ IH]; [done|].
    eapply Htrans; [by eapply Hatom|done]. }
  induction events as [|e events IH]; intros s s' Hall; cbn [run].
  { by intros [= <-]. }
  apply list.Forall_cons in Hall as [He Hall].
  destruct (step s e) as [s1|] eqn:H1; [|done]. cbn [mbind option_bind].
  intros Hrun. eapply Htrans; [|by apply IH].
  by eapply Hrtc, step_atoms.
Qed.

(** ** The invariant holds along runs, and runs go through *)

Lemma wf_newStreamCamera codecOption model : wf (newStreamCamera codecOption model).
Proof.
  split; simpl.
  - by intros r ?%elem_of_nil.
  - constructor.
  - by intros r items ?%elem_of_nil.
  - by intros l ?%elem_of_nil.
Qed.

Lemma getJpegSignature_inr model signature :
  getJpegSignature model = inr signature →
  signature = [xff; xd8; xff; xdb; x00; x84; x00].
Proof. unfold getJpegSignature. case_match; congruence. Qed.

Lemma getJpegSignature_nonempty model signature :
  getJpegSignature model = inr signature → signature ≠ [].
Proof. by intros ->%getJpegSignature_inr. Qed.

Lemma getJpegSignature_unbordered model signature :
  getJpegSignature model = inr signature → unbordered signature.
Proof.
  intros ->%getJpegSignature_inr.
  unfold unbordered. repeat constructor; by vm_compute.
Qed.

Lemma lookup_pushAll value refs heap r :
  NoDup refs → r ∈ refs →
  pushAll value refs heap !! r = (λ items, items ++ [value]) <$> heap !! r.
Proof. apply lookup_alterEach_NoDup. Qed.

Lemma lookup_pushAll_notin value refs heap r :
  r ∉ refs → pushAll value refs heap !! r = heap !! r.
Proof. apply lookup_alterEach_notin. Qed.

Lemma length_pushAll value refs heap :
  length (pushAll value refs heap) = length heap.
Proof. apply length_alterEach. Qed.

Lemma atom_wf e s s' : atom e s s' → wf s → wf s'.
Proof.
  intros Hatom [Hvalid Hnd Hopen Hsig].
  destruct Hatom as [s|call s|handle s|s|s|s s' p Htake|handle data s
                     |handle data k l frames rest s Hl Hp|handle data s frame l0 Hc Hl0 Hshape];
    unfold_ops.
  - by split.
  - repeat case_match; try by split.
    split; try done. cbn. intros l' [Hl'| ->%list_elem_of_singleton]%elem_of_app.
    + by apply Hsig.
    + done.
  - repeat case_match; by split.
  - split; cbn; try done.
    + by intros r ?%elem_of_nil.
    + constructor.
    + by intros r items ?%elem_of_nil.
    + repeat case_match; done.
  - split; cbn; try done.
    + intros r [Hr| ->%list_elem_of_singleton]%elem_of_app; rewrite length_app; simpl.
      * apply Hvalid in Hr. lia.
      * lia.
    + apply NoDup_app. split_and!; [done| |apply NoDup_singleton].
      intros r Hr ->%list_elem_of_singleton. apply Hvalid in Hr. lia.
    + intros r items [Hr| ->%list_elem_of_singleton]%elem_of_app.
      * rewrite lookup_app_l by (by apply Hvalid). by apply Hopen.
      * rewrite list_lookup_middle by done. intros [= <-]. by intros ?%elem_of_nil.
  - case_decide; [done|]. injection Htake as <- _. by split.
  - by split.
  - split; cbn; try done.
    + intros r Hr. rewrite length_pushAll. by apply Hvalid.
    + intros r items Hr. rewrite lookup_pushAll by done.
      destruct (readables s !! r) as [old|] eqn:Hold; [|done].
      intros [= <-]. intros [Hin|Hin%list_elem_of_singleton]%elem_of_app; [|done].
      by eapply Hopen.
    + intros l' [j Hj]%list_elem_of_lookup.
      apply list_lookup_insert_Some in Hj as [(_ & <- & _)|[_ Hj]]; simpl.
      * apply Hsig. by eapply list_elem_of_lookup_2.
      * apply Hsig. by eapply list_elem_of_lookup_2.
  - by split.
Qed.

Lemma rtc_atom_wf e s s' : rtc (atom e) s s' → wf s → wf s'.
Proof. induction 1; eauto using atom_wf. Qed.

Lemma step_wf s e s' : step s e = Some s' → wf s → wf s'.
Proof. intros H%step_atoms. by apply (rtc_atom_wf e). Qed.

Lemma run_wf events s s' : run s events = Some s' → wf s → wf s'.
Proof.
  intros Hrun.
  apply (run_rel (λ s s', wf s → wf s') (λ _, True)) with (events := events);
    [done|naive_solver|by eauto using atom_wf| |done].
  by apply Forall_true.
Qed.

(** With the invariant every listener returns: no event gets a run stuck. *)
Lemma dataListener_total k data s : wf s → is_Some (dataListener k data s).
Proof.
  intros Hwf. unfold dataListener.
  destruct (dataListeners s !! k) as [l|] eqn:Hl; [|done]. cbn zeta.
  destruct (parseFrames_total (jpegSignature l)
              (getJpegSignature_nonempty (systemModel s) _
                 (wf_signatures s Hwf l (list_elem_of_lookup_2 _ _ _ Hl)))
              (codec (fanOut data s)) (stdoutBuffer l) data) as [[frames rest] ->].
  done.
Qed.

Lemma callListeners_total handle data ks s :
  wf s → is_Some (callListeners handle data ks s).
Proof.
  revert s. induction ks as [|k ks IH]; intros s Hwf; cbn [callListeners]; [done|].
  destruct (dataListeners s !! k) as [l|]; [|by apply IH].
  case_decide; [|by apply IH].
  destruct (dataListener_total k data s Hwf) as [s1 H1]. rewrite H1.
  cbn [mbind option_bind]. apply IH.
  eapply rtc_atom_wf; [|done]. by eapply (dataListener_atoms handle).
Qed.



(** ** What a run does to one stream *)

Lemma atom_closed_stays r e s s' : atom e s s' → closed_stays r s s'.
Proof.
  intros Hatom.
  destruct Hatom as [s|call s|handle s|s|s|s s' p Htake|handle data s
                     |handle data k l frames rest s Hl Hp|handle data s frame l0 Hc Hl0 Hshape];
    unfold_ops.
  - by split.
  - repeat case_match; by split.
  - repeat case_match; by split.
  - split; cbn.
    + rewrite length_pushAll. by repeat case_match.
    + intros Hr Hlen. split; [by intros ?%elem_of_nil|].
      rewrite lookup_pushAll_notin; by repeat case_match.
  - split; cbn.
    + rewrite length_app. lia.
    + intros Hr Hlen. split.
      * intros [?| ->%list_elem_of_singleton]%elem_of_app; [done|lia].
      * by rewrite lookup_app_l.
  - case_decide; [done|]. injection Htake as <- _. by split.
  - by split.
  - split; cbn.
    + by rewrite length_pushAll.
    + intros Hr Hlen. split; [done|]. by rewrite lookup_pushAll_notin.
  - by split.
Qed.

Lemma run_closed_stays r events s s' :
  run s events = Some s' → closed_stays r s s'.
Proof.
  apply (run_rel (closed_stays r) (λ _, True)).
  - by split.
  - intros s1 s2 s3 [Hlen1 H1] [Hlen2 H2]. split; [lia|].
    intros Hr Hlen. destruct (H1 Hr Hlen) as [Hr2 Heq2].
    destruct (H2 Hr2 ltac:(lia)) as [Hr3 Heq3]. split; [done|congruence].
  - intros e s1 s2 _. apply atom_closed_stays.
  - by apply Forall_true.
Qed.

Lemma fmap_app_nil {A} (o : option (list A)) : (λ items, items ++ []) <$> o = o.
Proof. destruct o; simpl; [by rewrite app_nil_r|done]. Qed.

Lemma receives_nothing r s s' :
  dispatched s' = dispatched s → streams s' = streams s →
  readables s' = readables s → receives r s s'.
Proof.
  intros Hd Hs Hr. exists []. rewrite Hd, Hs, Hr, app_nil_r. split; [done|].
  intros Hin. split; [done|]. symmetry. apply fmap_app_nil.
Qed.

Lemma atom_receives r e s s' :
  e ≠ CallStopCapture → atom e s s' → wf s → receives r s s'.
Proof.
  intros He Hatom Hwf.
  destruct Hatom as [s|call s|handle s|s|s|s s' p Htake|handle data s
                     |handle data k l frames rest s Hl Hp|handle data s frame l0 Hc Hl0 Hshape];
    unfold_ops.
  - by apply receives_nothing.
  - repeat case_match; by apply receives_nothing.
  - repeat case_match; by apply receives_nothing.
  - done.
  - exists []. cbn. rewrite app_nil_r. split; [done|]. intros Hr.
    split; [apply elem_of_app; by left|].
    rewrite lookup_app_l by (by apply wf_streams_valid).
    symmetry. apply fmap_app_nil.
  - case_decide; [done|]. injection Htake as <- _. by apply receives_nothing.
  - by apply receives_nothing.
  - exists [data]. cbn. split; [done|]. intros Hr. split; [done|].
    rewrite lookup_pushAll; [done|by apply wf_streams_NoDup|done].
  - by apply receives_nothing.
Qed.

Lemma run_receives r events s s' :
  CallStopCapture ∉ events → wf s → run s events = Some s' →
  wf s' ∧ receives r s s'.
Proof.
  intros Hstop Hwf Hrun. revert Hwf.
  apply (run_rel (λ s s', wf s → wf s' ∧ receives r s s') (λ e, e ≠ CallStopCapture))
    with (events := events); [| | | |done].
  - intros s1 Hwf. split; [done|]. by apply receives_nothing.
  - intros s1 s2 s3 H12 H23 Hwf1.
    destruct (H12 Hwf1) as [Hwf2 (c1 & Hd1 & H1)].
    destruct (H23 Hwf2) as [Hwf3 (c2 & Hd2 & H2)].
    split; [done|]. exists (c1 ++ c2). split.
    + by rewrite Hd2, Hd1, (assoc_L (++)).
    + intros Hr. destruct (H1 Hr) as [Hr2 Heq2].
      destruct (H2 Hr2) as [Hr3 Heq3]. split; [done|].
      rewrite Heq3, Heq2. destruct (readables s1 !! r); [|done]. simpl.
      by rewrite fmap_app, (assoc_L (++)).
  - intros e s1 s2 He Hatom Hwf. split; [by eapply atom_wf|].
    by eapply atom_receives.
  - apply list.Forall_forall. by intros e He ->.
Qed.

(** ** What a run does to one [takeImage] promise *)

Lemma settles_nothing p s s' :
  emittedFrames s' = emittedFrames s → frameListeners s' = frameListeners s →
  images s' = images s → settles p s s'.
Proof.
  intros He Hl Hi. exists []. rewrite He, Hl, Hi, app_nil_r. by split_and!.
Qed.

Lemma settle_idemp {A} (outcome x : Settled A) :
  settle outcome (settle outcome x) = settle outcome x.
Proof. by destruct x, outcome. Qed.

Lemma atom_settles p e s s' : atom e s s' → settles p s s'.
Proof.
  intros Hatom.
  destruct Hatom as [s|call s|handle s|s|s|s s' q Htake|handle data s
                     |handle data k l frames rest s Hl Hp|handle data s frame l0 Hc Hl0 Hshape];
    unfold_ops.
  - by apply settles_nothing.
  - repeat case_match; by apply settles_nothing.
  - repeat case_match; by apply settles_nothing.
  - repeat case_match; by apply settles_nothing.
  - by apply settles_nothing.
  - case_decide; [done|]. injection Htake as <- _. exists []. cbn.
    rewrite app_nil_r, length_app. split_and!; [done|lia| |].
    + intros Hin Hpend. split; [apply elem_of_app; by left|].
      by apply lookup_app_l_Some.
    + intros Hin Hlen. split.
      * intros [?| ->%list_elem_of_singleton]%elem_of_app; [done|lia].
      * by rewrite lookup_app_l.
  - by apply settles_nothing.
  - by apply settles_nothing.
  - exists [frame]. cbn. rewrite length_alterEach. split_and!; [done..| |].
    + intros Hin Hpend. split; [by intros ?%elem_of_nil|].
      rewrite lookup_alterEach_idemp by (done || apply settle_idemp).
      by rewrite Hpend.
    + intros Hin Hlen. split; [by intros ?%elem_of_nil|].
      by rewrite lookup_alterEach_notin.
Qed.

Lemma settles_trans p s1 s2 s3 : settles p s1 s2 → settles p s2 s3 → settles p s1 s3.
Proof.
  intros (f1 & He1 & Hlen1 & Hin1 & Hout1) (f2 & He2 & Hlen2 & Hin2 & Hout2).
  exists (f1 ++ f2). split_and!.
  - by rewrite He2, He1, (assoc_L (++)).
  - lia.
  - intros Hin Hpend. specialize (Hin1 Hin Hpend).
    destruct f1 as [|frame f1]; simpl.
    + destruct Hin1 as [Hin' Hpend']. by apply Hin2.
    + destruct Hin1 as [Hin' Hres].
      destruct (Hout2 Hin') as [Hin'' Heq]; [by eapply lookup_lt_Some|].
      split; [done|congruence].
  - intros Hin Hlen. destruct (Hout1 Hin Hlen) as [Hin' Heq].
    destruct (Hout2 Hin') as [Hin'' Heq']; [lia|]. split; [done|congruence].
Qed.

Lemma run_settles p events s s' : run s events = Some s' → settles p s s'.
Proof.
  apply (run_rel (settles p) (λ _, True)).
  - intros s1. by apply settles_nothing.
  - apply settles_trans.
  - intros e s1 s2 _. apply atom_settles.
  - by apply Forall_true.
Qed.

(** ** Plain mode along a run *)



(** ** What no event changes *)

Lemma atom_systemModel e s s' :
  atom e s s' → systemModel s' = systemModel s ∧ codec s' = codec s.
Proof.
  intros Hatom.
  destruct Hatom as [s|call s|handle s|s|s|s s' q Htake|handle data s
                     |handle data k l frames rest s Hl Hp|handle data s frame l0 Hc Hl0 Hshape];
    unfold_ops; try done.
  - by repeat case_match.
  - by repeat case_match.
  - by repeat case_match.
  - case_decide; [done|]. by injection Htake as <- _.
Qed.

Lemma run_systemModel events s s' :
  run s events = Some s' → systemModel s' = systemModel s.
Proof.
  apply (run_rel (λ s s', systemModel s' = systemModel s) (λ _, True)).
  - done.
  - congruence.
  - intros e s1 s2 _ Hatom. by apply atom_systemModel in Hatom as [? _].
  - by apply Forall_true.
Qed.

(** ** Successive calls of one listener *)

Section Feed.
Variable signature : Buffer.
Hypothesis signature_nonempty : signature ≠ [].

Lemma parseFrames_frames codec buf data frames rest :
  parseFrames codec signature buf data = Some (frames, rest) →
  Forall (frame_shape signature) frames.
Proof.
  unfold parseFrames. case_decide.
  - intros [= <- <-]. constructor.
  - by apply extractFrames_frames.
Qed.

Lemma parseFrames_buffer codec buf data frames rest :
  buffer_shape signature buf →
  parseFrames codec signature buf data = Some (frames, rest) →
  buffer_shape signature rest.
Proof.
  intros Hbuf. unfold parseFrames. case_decide.
  - by intros [= <- <-].
  - by apply extractFrames_buffer.
Qed.

Lemma feed_total codec chunks emitted buf :
  is_Some (feed codec signature emitted buf chunks).
Proof.
  revert emitted buf. induction chunks as [|data chunks IH]; intros emitted buf;
    cbn [feed]; [done|].
  destruct (parseFrames_total _ signature_nonempty codec buf data)
    as [[frames rest] ->].
  cbn [mbind option_bind]. apply IH.
Qed.

Lemma feed_frames codec chunks emitted buf frames rest :
  Forall (frame_shape signature) emitted →
  feed codec signature emitted buf chunks = Some (frames, rest) →
  Forall (frame_shape signature) frames.
Proof.
  revert emitted buf. induction chunks as [|data chunks IH]; intros emitted buf Hem;
    cbn [feed].
  { by intros [= <- <-]. }
  destruct (parseFrames codec signature buf data) as [[fs b]|] eqn:Hp; [|done].
  cbn [mbind option_bind]. apply IH. apply Forall_app. split; [done|].
  by eapply parseFrames_frames.
Qed.

Lemma feed_buffer codec chunks emitted buf frames rest :
  buffer_shape signature buf →
  feed codec signature emitted buf chunks = Some (frames, rest) →
  buffer_shape signature rest.
Proof.
  revert emitted buf. induction chunks as [|data chunks IH]; intros emitted buf Hbuf;
    cbn [feed].
  { by intros [= <- <-]. }
  destruct (parseFrames codec signature buf data) as [[fs b]|] eqn:Hp; [|done].
  cbn [mbind option_bind]. apply IH. by eapply parseFrames_buffer.
Qed.

Lemma buffer_shape_nil : buffer_shape signature [].
Proof.
  left. intros i Hocc. apply occurs_at_length in Hocc; [|done].
  destruct signature; [done|]. simpl in Hocc. lia.
Qed.

(** For a signature that cannot overlap itself, the frames of a session
    are the slices between consecutive occurrences in all the input. *)
Lemma feed_segments chunks :
  unbordered signature →
  ∃ rest,
    feed (Some MJPEG) signature [] [] chunks
    = Some (segments (concat chunks) (occurrences signature (concat chunks)),
            rest).
Proof.
  intros Hunb. rewrite feed_concat by done.
  destruct (extractFrames_total _ signature_nonempty
              (S (length (concat chunks))) (concat chunks)) as [[frames rest] Hr];
    [lia|].
  exists rest. rewrite Hr.
  destruct (extractFrames_segments _ signature_nonempty Hunb
              (S (length (concat chunks))) (concat chunks) 0 frames rest)
    as [-> _]; [lia|by rewrite drop_0|done].
Qed.
End Feed.

(** ** One session of a camera with one listener *)

Lemma emitFrames_fields frames s :
  emittedFrames (foldl emitFrame s frames) = emittedFrames s ++ frames
  ∧ dataListeners (foldl emitFrame s frames) = dataListeners s
  ∧ processes (foldl emitFrame s frames) = processes s
  ∧ codec (foldl emitFrame s frames) = codec s.
Proof.
  revert s. induction frames as [|frame frames IH]; intros s; cbn [foldl].
  { by rewrite app_nil_r. }
  destruct (IH (emitFrame s frame)) as (-> & -> & -> & ->). cbn.
  by rewrite <- (assoc_L (++)).
Qed.

(** The chunks of one process reaching the only data listener: the run is the
    listener's [feed]. *)
Lemma run_single_listener signature chunks :
  signature ≠ [] →
  ∀ s buf proc,
    dataListeners s
    = [{| target := 0; jpegSignature := signature; stdoutBuffer := buf |}] →
    processes s = [proc] →
    ∃ s' frames rest,
      run s (StdoutData 0 <$> chunks) = Some s'
      ∧ feed (codec s) signature (emittedFrames s) buf chunks = Some (frames, rest)
      ∧ emittedFrames s' = frames.
Proof.
  intros Hne. induction chunks as [|data chunks IH]; intros s buf proc Hl Hp.
  { by exists s, (emittedFrames s), buf. }
  cbn [fmap list_fmap run step feed]. unfold stdoutData. rewrite Hp. cbn [lookup list_lookup].
  set (s1 := if onceData proc
             then set_processes
                    (alter (λ proc0, dataSeen (settleStart (Resolved ()) proc0)) 0
                           [proc]) s
             else s).
  assert (H1 : dataListeners s1 = dataListeners s ∧ codec s1 = codec s
               ∧ emittedFrames s1 = emittedFrames s
               ∧ ∃ proc1, processes s1 = [proc1]).
  { unfold s1. destruct (onceData proc); cbn; eauto. }
  destruct H1 as (Hl1 & Hc1 & He1 & proc1 & Hp1).
  rewrite Hl1, Hl. cbn [length seq callListeners].
  rewrite Hl1, Hl. cbn [lookup list_lookup target]. rewrite decide_True by done.
  unfold dataListener. rewrite Hl1, Hl. cbn [lookup list_lookup]. cbn zeta.
  change (codec (fanOut data s1)) with (codec s1). rewrite Hc1.
  cbn [jpegSignature stdoutBuffer target].
  destruct (parseFrames_total signature Hne (codec s) buf data) as [[fs rest] Hparse].
  rewrite Hparse. cbn [mbind option_bind].
  set (s2 := foldl emitFrame _ fs).
  destruct (emitFrames_fields fs
              (set_dataListeners
                 (<[0:={| target := 0; jpegSignature := signature;
                          stdoutBuffer := rest |}]> (dataListeners (fanOut data s1)))
                 (fanOut data s1))) as (He2 & Hl2 & Hp2 & Hc2).
  fold s2 in He2, Hl2, Hp2, Hc2. cbn in He2, Hl2, Hp2, Hc2.
  rewrite Hl1, Hl in Hl2. cbn in Hl2. rewrite Hp1 in Hp2.
  rewrite He1 in He2. rewrite Hc1 in Hc2.
  destruct (IH s2 rest proc1 Hl2 Hp2) as (s' & frames & rest' & Hrun & Hfeed & He).
  exists s', frames, rest'. rewrite Hrun. split; [done|].
  rewrite Hc2, He2 in Hfeed. done.
Qed.

(** ** Shapes along a run *)

Lemma atom_shapes e s s' : atom e s s' → wf s → shapes s → shapes s'.
Proof.
  intros Hatom Hwf [Hbuf Hframes].
  destruct Hatom as [s|call s|handle s|s|s|s s' q Htake|handle data s
                     |handle data k l frames rest s Hl Hp
                     |handle data s frame l0 Hc Hl0 Hshape];
    unfold_ops.
  - by split.
  - repeat case_match; try by split.
    split; [|done]. cbn.
    intros l' [Hl'| ->%list_elem_of_singleton]%elem_of_app; [by apply Hbuf|].
    cbn. apply buffer_shape_nil. by eapply getJpegSignature_nonempty.
  - repeat case_match; by split.
  - repeat case_match; by split.
  - by split.
  - case_decide; [done|]. injection Htake as <- _. by split.
  - by split.
  - split; [|done]. cbn.
    intros l' [j Hj]%list_elem_of_lookup.
    apply list_lookup_insert_Some in Hj as [(_ & <- & _)|[_ Hj]]; cbn.
    + assert (Hin : l ∈ dataListeners s) by (by eapply list_elem_of_lookup_2).
      eapply parseFrames_buffer; [|by apply Hbuf|done].
      eapply getJpegSignature_nonempty. by apply wf_signatures.
    + apply Hbuf. by eapply list_elem_of_lookup_2.
  - split; [done|]. cbn.
    intros frame' [Hin| ->%list_elem_of_singleton]%elem_of_app; [by apply Hframes|].
    exists (jpegSignature l0). split; [by apply wf_signatures|done].
Qed.

Lemma run_shapes events s s' :
  run s events = Some s' → wf s → shapes s → shapes s'.
Proof.
  intros Hrun Hwf Hshapes.
  cut (wf s' ∧ shapes s'); [by intros [_ ?]|].
  revert Hwf Hshapes.
  apply (run_rel (λ s s', wf s → shapes s → wf s' ∧ shapes s') (λ _, True))
    with (events := events); [| | | |done].
  - done.
  - intros s1 s2 s3 H12 H23 Hwf Hs. destruct (H12 Hwf Hs). by apply H23.
  - intros e s1 s2 _ Hatom Hwf Hs. split; [by eapply atom_wf|by eapply atom_shapes].
  - by apply Forall_true.
Qed.

Lemma shapes_newStreamCamera codecOption model :
  shapes (newStreamCamera codecOption model).
Proof. split; cbn; by intros ? ?%elem_of_nil. Qed.

(** ** A camera started once *)


Lemma atom_single_session e s s' :
  e ≠ CallStartCapture → atom e s s' → single_session s → single_session s'.
Proof.
  intros He Hatom (proc & l & Hp & Ha & Hl & Ht).
  destruct Hatom as [s|call s|handle s|s|s|s s' q Htake|handle data s
                     |handle data k l' frames rest s Hl' Hp'|handle data s frame l0 Hc Hl0 Hshape];
    unfold_ops.
  - done.
  - rewrite Hp. destruct call as [|call]; cbn; [rewrite Ha|]; by exists proc, l.
  - rewrite Hp. destruct handle as [|handle]; cbn; [|by exists proc, l].
    case_match; [|by exists proc, l]. by eexists _, l.
  - case_match; [|by exists proc, l]. cbn. rewrite Hp.
    destruct n as [|n]; cbn; by eexists _, l.
  - by exists proc, l.
  - case_decide; [done|]. injection Htake as <- _. by exists proc, l.
  - cbn. rewrite Hp. destruct handle as [|handle]; cbn; by eexists _, l.
  - cbn. rewrite Hl in Hl' |- *. destruct k as [|k]; [|done].
    injection Hl' as <-. by eexists proc, _.
  - by exists proc, l.
Qed.

Lemma run_single_session events s s' :
  CallStartCapture ∉ events → run s events = Some s' →
  single_session s → single_session s'.
Proof.
  intros Hstart.
  apply (run_rel (λ s s', single_session s → single_session s')
                 (λ e, e ≠ CallStartCapture)).
  - done.
  - naive_solver.
  - intros e s1 s2. apply atom_single_session.
  - apply list.Forall_forall. by intros e He ->.
Qed.


(** ** What the loop keeps and what it drops *)

Section Conservation.
Variable signature : Buffer.
Hypothesis signature_nonempty : signature ≠ [].

(** One run of the loop: nothing is emitted when the buffer holds no
    signature; otherwise the frames and the buffer left are, end to end, the
    buffer from the first signature on. *)
Lemma extractFrames_conserve fuel buf frames rest :
  extractFrames fuel signature buf = Some (frames, rest) →
  match indexFrom signature buf 0 with
  | None => frames = [] ∧ rest = buf
  | Some i => concat frames ++ rest = drop i buf
  end.
Proof.
  revert buf frames rest. induction fuel as [|fuel IH]; intros buf frames rest; [done|].
  rewrite extractFrames_S by done.
  destruct (indexFrom signature buf 0) as [i|] eqn:Hi.
  2: { by intros [= <- <-]. }
  destruct (indexFrom signature (drop i buf) (length signature)) as [n|] eqn:Hn.
  2: { by intros [= <- <-]. }
  destruct (extractFrames fuel signature (drop n (drop i buf)))
    as [[fs r]|] eqn:Hrec; [|done].
  intros [= <- <-]. apply IH in Hrec.
  rewrite indexFrom_at_0 in Hrec.
  - rewrite drop_0 in Hrec. cbn [concat]. rewrite <- (assoc_L (++)), Hrec.
    apply take_drop.
  - by apply indexFrom_spec in Hn as (_ & ? & _).
Qed.

(** One run of the loop emits a frame only if the signature occurs at two
    offsets of the buffer. *)
Lemma extractFrames_two_occurrences fuel buf frame frames rest :
  extractFrames fuel signature buf = Some (frame :: frames, rest) →
  ∃ i j, i < j ∧ occurs_at signature buf i ∧ occurs_at signature buf j.
Proof.
  destruct fuel as [|fuel]; [done|]. rewrite extractFrames_S by done.
  destruct (indexFrom signature buf 0) as [i|] eqn:Hi; [|done].
  destruct (indexFrom signature (drop i buf) (length signature)) as [n|] eqn:Hn;
    [|done].
  intros _. exists i, (i + n).
  pose proof (indexFrom_ge _ _ _ _ signature_nonempty Hn) as Hge.
  apply indexFrom_spec in Hi as (_ & Hocc & _).
  apply indexFrom_spec in Hn as (_ & Hocc' & _).
  apply occurs_at_drop in Hocc'. split_and!; [|done..].
  destruct signature; [done|]. simpl in Hge. lia.
Qed.
(** When the buffer holds the signature, what the loop leaves starts with
    it. *)
Lemma extractFrames_rest_at_signature fuel buf frames rest :
  extractFrames fuel signature buf = Some (frames, rest) →
  is_Some (indexFrom signature buf 0) →
  signature `prefix_of` rest.
Proof.
  revert buf frames rest. induction fuel as [|fuel IH]; intros buf frames rest; [done|].
  rewrite extractFrames_S by done. intros Hrun [i Hi]. rewrite Hi in Hrun.
  assert (signature `prefix_of` drop i buf) as Hpre.
  { by apply indexFrom_spec in Hi as (_ & ? & _). }
  destruct (indexFrom signature (drop i buf) (length signature)) as [n|] eqn:Hn.
  2: { by injection Hrun as <- <-. }
  destruct (extractFrames fuel signature (drop n (drop i buf)))
    as [[fs r]|] eqn:Hrec; [|done].
  injection Hrun as <- <-. eapply IH; [done|].
  exists 0. apply indexFrom_at_0.
  by apply indexFrom_spec in Hn as (_ & ? & _).
Qed.
End Conservation.

(** ** The session of one listener, event by event *)

Lemma feed_emitted codec signature chunks :
  ∀ emitted buf,
    feed codec signature emitted buf chunks
    = (λ '(frames, rest), (emitted ++ frames, rest))
        <$> feed codec signature [] buf chunks.
Proof.
  induction chunks as [|data chunks IH]; intros emitted buf; cbn [feed].
  { cbn. by rewrite app_nil_r. }
  destruct (parseFrames codec signature buf data) as [[fs b]|]; [|done].
  cbn [mbind option_bind]. rewrite (IH (emitted ++ fs)), (IH ([] ++ fs)).
  destruct (feed codec signature [] b chunks) as [[frames rest]|]; [|done].
  cbn. by rewrite (assoc_L (++)).
Qed.

(** ** One stdout chunk and the listeners of its process *)

Lemma emitFrames_untouched frames s :
  streams (foldl emitFrame s frames) = streams s
  ∧ readables (foldl emitFrame s frames) = readables s
  ∧ dispatched (foldl emitFrame s frames) = dispatched s
  ∧ childProcess (foldl emitFrame s frames) = childProcess s.
Proof.
  revert s. induction frames as [|frame frames IH]; intros s; cbn [foldl]; [done|].
  by destruct (IH (emitFrame s frame)) as (-> & -> & -> & ->).
Qed.

Lemma dataListener_effect k l data s s' :
  dataListeners s !! k = Some l →
  dataListener k data s = Some s' →
  streams s' = streams s
  ∧ readables s' = pushAll (Some data) (streams s) (readables s)
  ∧ dispatched s' = dispatched s ++ [data]
  ∧ processes s' = processes s
  ∧ childProcess s' = childProcess s
  ∧ target <$> dataListeners s' = target <$> dataListeners s.
Proof.
  intros Hl. unfold dataListener. rewrite Hl. cbn zeta.
  destruct (parseFrames (codec (fanOut data s)) (jpegSignature l) (stdoutBuffer l) data)
    as [[frames rest]|]; [|done].
  cbn [mbind option_bind]. intros [= <-].
  match goal with |- context [foldl emitFrame ?x frames] => set (s0 := x) end.
  destruct (emitFrames_fields frames s0) as (_ & El & Ep & _).
  destruct (emitFrames_untouched frames s0) as (Es & Er & Ed & Ec).
  rewrite El, Ep, Es, Er, Ed, Ec. unfold s0. cbn. split_and!; try done.
  rewrite list_fmap_insert. cbn. apply list_insert_id.
  by rewrite list_lookup_fmap, Hl.
Qed.

Lemma append_replicate {A} (o : option (list A)) (x : A) (n : nat) :
  (λ items, items ++ replicate n x) <$> ((λ items, items ++ [x]) <$> o)
  = (λ items, items ++ replicate (S n) x) <$> o.
Proof. destruct o; cbn; [|done]. by rewrite <- (assoc_L (++)). Qed.

(** Calling the listeners [ks]: the chunk is dispatched once for each of them
    that is attached to [handle]. *)
Lemma callListeners_effect handle data ks :
  ∀ s s',
    wf s → callListeners handle data ks s = Some s' →
    let n :=
      length (filter (λ k, (target <$> dataListeners s) !! k = Some handle) ks) in
    wf s'
    ∧ streams s' = streams s
    ∧ dispatched s' = dispatched s ++ replicate n data
    ∧ processes s' = processes s
    ∧ childProcess s' = childProcess s
    ∧ target <$> dataListeners s' = target <$> dataListeners s
    ∧ (∀ r, r ∈ streams s →
         readables s' !! r
         = (λ items, items ++ replicate n (Some data)) <$> readables s !! r)
    ∧ (∀ r, r ∉ streams s → readables s' !! r = readables s !! r).
Proof.
  induction ks as [|k ks IH]; intros s s' Hwf; cbn [callListeners].
  { intros [= <-]. cbn. rewrite app_nil_r. split_and!; try done.
    intros r _. symmetry. apply fmap_app_nil. }
  rewrite list.filter_cons, list_lookup_fmap.
  destruct (dataListeners s !! k) as [l|] eqn:Hl; cbn [fmap option_fmap option_map].
  2: { rewrite decide_False by done. by apply IH. }
  destruct (decide (target l = handle)) as [Ht|Ht].
  2: { rewrite decide_False by congruence. by apply IH. }
  rewrite decide_True by congruence.
  destruct (dataListener k data s) as [s1|] eqn:H1; [|done].
  cbn [mbind option_bind]. intros Hrest.
  assert (Hwf1 : wf s1).
  { eapply rtc_atom_wf; [|done]. by eapply (dataListener_atoms handle). }
  destruct (dataListener_effect _ _ _ _ _ Hl H1) as (Hs1 & Hr1 & Hd1 & Hp1 & Hc1 & Ht1).
  destruct (IH _ _ Hwf1 Hrest) as (Hwf' & Hs & Hd & Hp & Hc & Htg & Hin & Hout).
  rewrite Ht1 in Hd, Hin. cbn [length].
  split_and!; try congruence.
  - rewrite Hd, Hd1, <- (assoc_L (++)). done.
  - intros r Hr. rewrite Hin by congruence. rewrite Hr1.
    rewrite lookup_pushAll by (done || by apply wf_streams_NoDup).
    apply append_replicate.
  - intros r Hr. rewrite Hout by congruence. rewrite Hr1.
    by apply lookup_pushAll_notin.
Qed.

Lemma filter_targets_length handle (ls : list DataListener) :
  length (filter (λ t, t = handle) (target <$> ls))
  = length (filter (λ l, target l = handle) ls).
Proof.
  induction ls as [|l ls IH]; [done|]. cbn [fmap list_fmap].
  rewrite !list.filter_cons. destruct (decide (target l = handle)); cbn; by rewrite IH.
Qed.

Lemma filter_indices_length handle (ts pre : list nat) :
  length (filter (λ k, (pre ++ ts) !! k = Some handle) (seq (length pre) (length ts)))
  = length (filter (λ t, t = handle) ts).
Proof.
  revert pre. induction ts as [|t ts IH]; intros pre; [done|].
  cbn [length seq]. rewrite !list.filter_cons, list_lookup_middle by done.
  specialize (IH (pre ++ [t])).
  rewrite <- (assoc_L (++)), length_app in IH. cbn in IH.
  rewrite Nat.add_1_r in IH.
  destruct (decide (t = handle)) as [->|Hne].
  - rewrite decide_True by done. cbn. by rewrite IH.
  - rewrite decide_False by congruence. done.
Qed.

Lemma listeners_counted handle s :
  length (filter (λ k, (target <$> dataListeners s) !! k = Some handle)
            (seq 0 (length (dataListeners s))))
  = listenersOf handle s.
Proof.
  unfold listenersOf. rewrite <- filter_targets_length.
  rewrite <- (filter_indices_length handle (target <$> dataListeners s) []).
  by rewrite length_fmap.
Qed.

(** The whole [data] event of a process that exists. *)
Lemma stdoutData_effect handle data proc s :
  wf s → processes s !! handle = Some proc →
  ∃ s',
    stdoutData handle data s = Some s'
    ∧ wf s'
    ∧ streams s' = streams s
    ∧ dispatched s' = dispatched s ++ replicate (listenersOf handle s) data
    ∧ childProcess s' = childProcess s
    ∧ target <$> dataListeners s' = target <$> dataListeners s
    ∧ processes s'
      = (if onceData proc
         then alter (λ proc, dataSeen (settleStart (Resolved ()) proc)) handle
                    (processes s)
         else processes s)
    ∧ (∀ r, r ∈ streams s →
         readables s' !! r
         = (λ items, items ++ replicate (listenersOf handle s) (Some data))
             <$> readables s !! r)
    ∧ (∀ r, r ∉ streams s → readables s' !! r = readables s !! r).
Proof.
  intros Hwf Hp. unfold stdoutData. rewrite Hp.
  set (s1 := if onceData proc then _ else s).
  assert (H1 : wf s1 ∧ streams s1 = streams s ∧ dispatched s1 = dispatched s
               ∧ childProcess s1 = childProcess s
               ∧ dataListeners s1 = dataListeners s
               ∧ readables s1 = readables s
               ∧ processes s1
                 = (if onceData proc
                    then alter (λ proc, dataSeen (settleStart (Resolved ()) proc))
                               handle (processes s)
                    else processes s)).
  { unfold s1. destruct (onceData proc); [|done]. split_and!; try done.
    eapply atom_wf; [|done]. apply (atom_once handle data). }
  destruct H1 as (Hwf1 & Hs1 & Hd1 & Hc1 & Hl1 & Hr1 & Hp1).
  destruct (callListeners_total handle data (seq 0 (length (dataListeners s1))) s1 Hwf1)
    as [s' Hcall].
  exists s'. split; [done|].
  destruct (callListeners_effect _ _ _ _ _ Hwf1 Hcall)
    as (Hwf' & Hs & Hd & Hp' & Hc & Htg & Hin & Hout).
  rewrite listeners_counted in Hd, Hin.
  assert (Hn : listenersOf handle s1 = listenersOf handle s).
  { unfold listenersOf. by rewrite Hl1. }
  rewrite Hn in Hd, Hin. rewrite Hl1 in Htg. rewrite Hr1 in Hin, Hout.
  split_and!; try congruence.
  - intros r Hr. apply Hin. congruence.
  - intros r Hr. apply Hout. congruence.
Qed.

(** ** Handles stay valid *)

Lemma atom_handles_valid e s s' : atom e s s' → handles_valid s → handles_valid s'.
Proof.
  intros Hatom [Hchild Htargets].
  destruct Hatom as [s|call s|handle s|s|s|s s' q Htake|handle data s
                     |handle data k l frames rest s Hl Hp
                     |handle data s frame l0 Hc Hl0 Hshape];
    unfold_ops.
  - split; cbn; rewrite length_app; cbn.
    + intros handle [= <-]. lia.
    + intros l Hl. apply Htargets in Hl. lia.
  - repeat case_match; try done; split; cbn; rewrite ?length_alter; try done.
    intros l' [Hl'| ->%list_elem_of_singleton]%elem_of_app; [by apply Htargets|].
    cbn. by apply Hchild.
  - repeat case_match; try done. split; cbn; by rewrite length_alter.
  - repeat case_match; split; cbn; rewrite ?length_alter; intros;
      first [apply Hchild; congruence | by apply Htargets].
  - done.
  - case_decide; [done|]. by injection Htake as <- _.
  - split; cbn; by rewrite length_alter.
  - split; cbn; [done|].
    intros l' [j Hj]%list_elem_of_lookup.
    apply list_lookup_insert_Some in Hj as [(_ & <- & _)|[_ Hj]]; cbn.
    + apply Htargets. by eapply list_elem_of_lookup_2.
    + apply Htargets. by eapply list_elem_of_lookup_2.
  - done.
Qed.

Lemma run_handles_valid events s s' :
  run s events = Some s' → handles_valid s → handles_valid s'.
Proof.
  apply (run_rel (λ s s', handles_valid s → handles_valid s') (λ _, True)).
  - done.
  - naive_solver.
  - intros e s1 s2 _. apply atom_handles_valid.
  - by apply Forall_true.
Qed.

Lemma handles_valid_newStreamCamera codecOption model :
  handles_valid (newStreamCamera codecOption model).
Proof. split; cbn; [done|]. by intros l ?%elem_of_nil. Qed.

Lemma listenersOf_none handle s :
  (∀ l, l ∈ dataListeners s → target l ≠ handle) → listenersOf handle s = 0.
Proof.
  intros Hnone. unfold listenersOf. rewrite filter_none; [done|]. done.
Qed.

(** A call of the listeners of a process none of them is attached to. *)
Lemma callListeners_skip handle data ks s :
  (∀ k l, k ∈ ks → dataListeners s !! k = Some l → target l ≠ handle) →
  callListeners handle data ks s = Some s.
Proof.
  induction ks as [|k ks IH]; intros Hks; cbn [callListeners]; [done|].
  destruct (dataListeners s !! k) as [l|] eqn:Hl.
  - rewrite decide_False by (eapply Hks; [by left|done]).
    apply IH. intros k' l' Hk'. apply Hks. by right.
  - apply IH. intros k' l' Hk'. apply Hks. by right.
Qed.

(** ** A stdout chunk of any process, and the deliveries of a run *)

Lemma stdoutData_dispatch handle data s :
  wf s → handles_valid s →
  ∃ s',
    stdoutData handle data s = Some s'
    ∧ streams s' = streams s
    ∧ dispatched s' = dispatched s ++ replicate (listenersOf handle s) data
    ∧ (∀ r, r ∈ streams s →
         readables s' !! r
         = (λ items, items ++ replicate (listenersOf handle s) (Some data))
             <$> readables s !! r)
    ∧ (∀ r, r ∉ streams s → readables s' !! r = readables s !! r).
Proof.
  intros Hwf [_ Htargets].
  destruct (processes s !! handle) as [proc|] eqn:Hp.
  - destruct (stdoutData_effect handle data proc s Hwf Hp)
      as (s' & Hstep & _ & Hs & Hd & _ & _ & _ & Hin & Hout).
    by exists s'.
  - exists s. unfold stdoutData. rewrite Hp.
    rewrite listenersOf_none.
    + cbn. rewrite app_nil_r. split_and!; try done.
      intros r _. symmetry. apply fmap_app_nil.
    + intros l Hl Ht. apply Htargets in Hl. apply lookup_ge_None in Hp. lia.
Qed.

Lemma step_handles_valid e s s' :
  step s e = Some s' → handles_valid s → handles_valid s'.
Proof.
  intros Hstep. apply (run_handles_valid [e]). cbn. by rewrite Hstep.
Qed.

Lemma step_dispatched e s s' :
  wf s → handles_valid s → step s e = Some s' →
  dispatched s' = dispatched s ++ deliveries s [e].
Proof.
  intros Hwf Hvalid Hstep. cbn [deliveries]. rewrite Hstep, app_nil_r.
  destruct e as [|call|handle data|handle| | |]; cbn [step] in Hstep.
  - injection Hstep as <-. cbn. by rewrite app_nil_r.
  - injection Hstep as <-. unfold resumeStartCapture.
    repeat case_match; cbn; by rewrite app_nil_r.
  - destruct (stdoutData_dispatch handle data s Hwf Hvalid)
      as (s1 & Hs1 & _ & Hd & _). congruence.
  - injection Hstep as <-. unfold processError.
    repeat case_match; cbn; by rewrite app_nil_r.
  - injection Hstep as <-. unfold stopCapture.
    repeat case_match; cbn; by rewrite app_nil_r.
  - injection Hstep as <-. cbn. by rewrite app_nil_r.
  - unfold takeImage in Hstep. case_decide; injection Hstep as <-; cbn;
      by rewrite app_nil_r.
Qed.

(** The chunks dispatched along a run are the deliveries of its events. *)
Lemma run_deliveries events :
  ∀ s s', wf s → handles_valid s → run s events = Some s' →
          dispatched s' = dispatched s ++ deliveries s events.
Proof.
  induction events as [|e events IH]; intros s s' Hwf Hvalid; cbn [run].
  { intros [= <-]. cbn. by rewrite app_nil_r. }
  destruct (step s e) as [s1|] eqn:Hstep; [|done]. cbn [mbind option_bind].
  intros Hrun.
  rewrite (IH s1 s') by eauto using step_wf, step_handles_valid.
  rewrite (step_dispatched e s s1) by done.
  cbn [deliveries]. by rewrite Hstep, app_nil_r, (assoc_L (++)).
Qed.

(** In a camera started once the deliveries are the chunks of its process,
    once each. *)
Lemma deliveries_single_session events :
  ∀ s s', single_session s → CallStartCapture ∉ events →
          run s events = Some s' →
          deliveries s events = chunksOf 0 events.
Proof.
  induction events as [|e events IH]; intros s s' Hsingle Hstart; [done|].
  apply not_elem_of_cons in Hstart as [He Hstart]. cbn [run deliveries].
  destruct (step s e) as [s1|] eqn:Hstep; [|done]. cbn [mbind option_bind].
  intros Hrun.
  assert (single_session s1) as Hsingle1.
  { apply (run_single_session [e] s); [|by cbn; rewrite Hstep|done].
    by intros ?%list_elem_of_singleton. }
  rewrite (IH s1 s' Hsingle1 Hstart Hrun).
  destruct Hsingle as (proc & l & Hp & Ha & Hl & Ht).
  destruct e as [| |handle data| | | |]; try done.
  assert (listenersOf handle s = if decide (handle = 0) then 1 else 0) as ->.
  { unfold listenersOf. rewrite Hl, list.filter_cons, filter_nil, Ht.
    destruct (decide (handle = 0)) as [->|Hne]; [by rewrite decide_True|].
    by rewrite decide_False. }
  assert (chunksOf 0 (StdoutData handle data :: events)
          = (if decide (handle = 0) then [data] else []) ++ chunksOf 0 events) as ->.
  { unfold chunksOf. cbn. by destruct (decide (handle = 0)). }
  by destruct (decide (handle = 0)).
Qed.

(** ** No listener, no chunk *)

Lemma atom_targets e s s' :
  (∀ call, e ≠ ResumeStartCapture call) → atom e s s' →
  target <$> dataListeners s' = target <$> dataListeners s.
Proof.
  intros He Hatom.
  destruct Hatom as [s|call s|handle s|s|s|s s' q Htake|handle data s
                     |handle data k l frames rest s Hl Hp
                     |handle data s frame l0 Hc Hl0 Hshape];
    unfold_ops; try done.
  - by destruct (He call).
  - by repeat case_match.
  - by repeat case_match.
  - case_decide; [done|]. by injection Htake as <- _.
  - cbn. rewrite list_fmap_insert. apply list_insert_id.
    by rewrite list_lookup_fmap, Hl.
Qed.

(** While no executor resumes no listener is attached and none changes its
    process. *)
Lemma run_targets events s s' :
  Forall (λ e, ∀ call, e ≠ ResumeStartCapture call) events →
  run s events = Some s' →
  target <$> dataListeners s' = target <$> dataListeners s.
Proof.
  apply (run_rel (λ s s', target <$> dataListeners s' = target <$> dataListeners s)
                 (λ e, ∀ call, e ≠ ResumeStartCapture call)).
  - done.
  - congruence.
  - intros e s1 s2. apply atom_targets.
Qed.




(** ** A session, event by event *)

(** One chunk of the process of a camera with one listener: the listener's
    pass. *)
Lemma stdoutData_single_listener signature buf data fs rest proc s :
  dataListeners s
  = [{| target := 0; jpegSignature := signature; stdoutBuffer := buf |}] →
  processes s = [proc] →
  parseFrames (codec s) signature buf data = Some (fs, rest) →
  ∃ s' proc',
    stdoutData 0 data s = Some s'
    ∧ emittedFrames s' = emittedFrames s ++ fs
    ∧ dataListeners s'
      = [{| target := 0; jpegSignature := signature; stdoutBuffer := rest |}]
    ∧ codec s' = codec s
    ∧ processes s' = [proc'] ∧ awaiting proc' = awaiting proc.
Proof.
  intros Hl Hp Hparse. unfold stdoutData. rewrite Hp. cbn [lookup list_lookup].
  set (s1 := if onceData proc
             then set_processes
                    (alter (λ proc0, dataSeen (settleStart (Resolved ()) proc0)) 0
                           [proc]) s
             else s).
  assert (H1 : dataListeners s1 = dataListeners s ∧ codec s1 = codec s
               ∧ emittedFrames s1 = emittedFrames s
               ∧ ∃ proc1, processes s1 = [proc1] ∧ awaiting proc1 = awaiting proc).
  { unfold s1. destruct (onceData proc); cbn; eauto 10. }
  destruct H1 as (Hl1 & Hc1 & He1 & proc1 & Hp1 & Ha1).
  rewrite Hl1, Hl. cbn [length seq callListeners].
  rewrite Hl1, Hl. cbn [lookup list_lookup target]. rewrite decide_True by done.
  unfold dataListener. rewrite Hl1, Hl. cbn [lookup list_lookup]. cbn zeta.
  change (codec (fanOut data s1)) with (codec s1). rewrite Hc1.
  cbn [jpegSignature stdoutBuffer target]. rewrite Hparse. cbn [mbind option_bind].
  set (s2 := foldl emitFrame _ fs).
  destruct (emitFrames_fields fs
              (set_dataListeners
                 (<[0:={| target := 0; jpegSignature := signature;
                          stdoutBuffer := rest |}]> (dataListeners (fanOut data s1)))
                 (fanOut data s1))) as (He2 & Hl2 & Hp2 & Hc2).
  fold s2 in He2, Hl2, Hp2, Hc2. cbn in He2, Hl2, Hp2, Hc2.
  rewrite Hl1, Hl in Hl2. cbn in Hl2. rewrite Hp1 in Hp2.
  rewrite He1 in He2. rewrite Hc1 in Hc2.
  exists s2, proc1. by split_and!.
Qed.

(** Any other event, a new [startCapture] apart, leaves the listener and the
    frames emitted as they are. *)
Lemma step_session_other e l proc s :
  dataListeners s = [l] → processes s = [proc] → awaiting proc = false →
  e ≠ CallStartCapture → (∀ data, e ≠ StdoutData 0 data) →
  ∃ s' proc',
    step s e = Some s'
    ∧ emittedFrames s' = emittedFrames s
    ∧ dataListeners s' = dataListeners s
    ∧ codec s' = codec s
    ∧ processes s' = [proc'] ∧ awaiting proc' = false.
Proof.
  intros Hl Hp Ha Hstart Hdata.
  destruct e as [|call|handle data|handle| | |]; cbn [step].
  - done.
  - unfold resumeStartCapture. rewrite Hp.
    destruct call as [|call]; cbn; [rewrite Ha|]; by exists s, proc.
  - destruct handle as [|handle]; [by destruct (Hdata data)|].
    unfold stdoutData. rewrite Hp. cbn. by exists s, proc.
  - unfold processError. rewrite Hp.
    destruct handle as [|handle]; cbn; [|by exists s, proc].
    destruct (onceError proc); cbn; [|by exists s, proc].
    eexists _, _. by split_and!.
  - unfold stopCapture.
    destruct (childProcess s) as [[|handle]|]; cbn; rewrite ?Hp; cbn;
      eexists _, _; by split_and!.
  - eexists _, _. by split_and!.
  - unfold takeImage. case_decide; eexists _, _; by split_and!.
Qed.

(** The events of a camera with one listener, a new [startCapture] apart:
    what is emitted and what the listener's buffer becomes are the
    listener's [feed] on the chunks of the process among the events. *)
Lemma run_session_feed signature events :
  signature ≠ [] →
  CallStartCapture ∉ events →
  ∀ s buf proc,
    dataListeners s
    = [{| target := 0; jpegSignature := signature; stdoutBuffer := buf |}] →
    processes s = [proc] → awaiting proc = false →
    ∃ s' frames rest,
      run s events = Some s'
      ∧ feed (codec s) signature [] buf (chunksOf 0 events) = Some (frames, rest)
      ∧ emittedFrames s' = emittedFrames s ++ frames
      ∧ dataListeners s'
        = [{| target := 0; jpegSignature := signature; stdoutBuffer := rest |}]
      ∧ codec s' = codec s.
Proof.
  intros Hne. induction events as [|e events IH]; intros Hstart s buf proc Hl Hp Ha.
  { exists s, [], buf. cbn. by rewrite app_nil_r. }
  apply not_elem_of_cons in Hstart as [He Hstart]. specialize (IH Hstart).
  assert ((∃ data, e = StdoutData 0 data) ∨ ¬ ∃ data, e = StdoutData 0 data)
    as [[data ->]|Hother].
  { destruct e as [| |[|handle] data| | | |];
      first [right; by intros [? ?] | left; by eexists]. }
  - destruct (parseFrames_total signature Hne (codec s) buf data)
      as [[fs b] Hparse].
    destruct (stdoutData_single_listener _ _ _ _ _ _ _ Hl Hp Hparse)
      as (s1 & proc1 & Hstep & He1 & Hl1 & Hc1 & Hp1 & Ha1).
    destruct (IH s1 b proc1 Hl1 Hp1) as (s' & frames & rest & Hrun & Hfeed & He' & Hl' & Hc');
      [congruence|].
    exists s', (fs ++ frames), rest.
    assert (chunksOf 0 (StdoutData 0 data :: events) = data :: chunksOf 0 events)
      as -> by done.
    cbn [run step]. rewrite Hstep. cbn [mbind option_bind].
    cbn [feed]. rewrite Hparse. cbn [mbind option_bind].
    rewrite feed_emitted. rewrite Hc1 in Hfeed. rewrite Hfeed. cbn.
    split_and!; [done|done| |done|congruence].
    by rewrite He', He1, (assoc_L (++)).
  - destruct (step_session_other e _ proc s Hl Hp Ha (not_eq_sym He))
      as (s1 & proc1 & Hstep & He1 & Hl1 & Hc1 & Hp1 & Ha1).
    { intros data ->. apply Hother. by exists data. }
    rewrite Hl in Hl1.
    destruct (IH s1 buf proc1 Hl1 Hp1 Ha1)
      as (s' & frames & rest & Hrun & Hfeed & He' & Hl' & Hc').
    exists s', frames, rest. cbn [run]. rewrite Hstep. cbn [mbind option_bind].
    assert (chunksOf 0 (e :: events) = chunksOf 0 events) as ->.
    { destruct e as [| |handle data| | | |]; try done.
      destruct (decide (handle = 0)) as [->|Hh]; [destruct Hother; by exists data|].
      unfold chunksOf. cbn. by rewrite decide_False. }
    split_and!; [done|congruence|congruence|done|congruence].
Qed.

(** * The claims *)

(** ** Frame extraction *)

(** The property of C1 needs a signature that cannot overlap itself: in the
    input [AAA] the signature [AA] occurs twice and no frame is emitted. The
    signature of the provider is of that kind. *)
Example overlapping_signature :
  occurrences (bytes "AA") (bytes "AAA") = [0; 1]
  ∧ feed (Some MJPEG) (bytes "AA") [] [] [bytes "AAA"] = Some ([], bytes "AAA")
  ∧ ¬ unbordered (bytes "AA").
Proof.
  split_and!; [by vm_compute..|].
  unfold unbordered. simpl. intros Hne%Forall_inv. by apply Hne.
Qed.

(** C1. In MJPEG mode, with the signature the provider resolves, a session
    whose chunks together contain [k ≥ 2] occurrences of the signature emits
    exactly [k - 1] frames: the slices of the whole input from each occurrence
    to the next one, in order. Any other way of cutting the same input into
    chunks gives the same frames and leaves the same buffer. The frames are
    those a started MJPEG camera emits when its process delivers the
    chunks. *)
Theorem frames_between_consecutive_signatures
    (model : string) (signature : Buffer) (chunks : list Buffer) (k : nat) :
  getJpegSignature model = inr signature →
  length (occurrences signature (concat chunks)) = k →
  2 ≤ k →
  ∃ frames rest,
    feed (Some MJPEG) signature [] [] chunks = Some (frames, rest)
    ∧ length frames = k - 1
    ∧ frames = segments (concat chunks) (occurrences signature (concat chunks))
    ∧ (∀ chunks', concat chunks' = concat chunks →
         feed (Some MJPEG) signature [] [] chunks' = Some (frames, rest))
    ∧ ∃ s,
        run (newStreamCamera (Some (Some MJPEG)) model)
          (CallStartCapture :: ResumeStartCapture 0 :: (StdoutData 0 <$> chunks))
        = Some s
        ∧ emittedFrames s = frames.
Proof.
  intros Hsig Hk _.
  pose proof (getJpegSignature_nonempty _ _ Hsig) as Hne.
  pose proof (getJpegSignature_unbordered _ _ Hsig) as Hunb.
  destruct (feed_segments signature Hne chunks Hunb) as [rest Hfeed].
  eexists _, rest. split_and!; [done| |done| |].
  - by rewrite length_segments, Hk.
  - intros chunks' Heq. rewrite feed_concat in Hfeed |- * by done.
    by rewrite Heq.
  - cbn [run step mbind option_bind fst].
    unfold startCapture, resumeStartCapture. cbn. rewrite Hsig. cbn.
    edestruct (run_single_listener signature chunks Hne) as (s & fs & r & Hrun & Hf & He);
      [| |exists s; split; [exact Hrun|]].
    + reflexivity.
    + reflexivity.
    + cbn in Hf. rewrite Hfeed in Hf. by injection Hf as <- _.
Qed.

Lemma frames_between_consecutive_signatures_witness :
  let signature := [xff; xd8; xff; xdb; x00; x84; x00] in
  let chunks :=
    [ [x41; xff; xd8; xff]; [xdb; x00; x84; x00; x01; xff; xd8];
      [xff; xdb; x00; x84; x00; x02; x03; xff; xd8; xff; xdb; x00; x84; x00] ] in
  ∃ frames rest,
    feed (Some MJPEG) signature [] [] chunks = Some (frames, rest)
    ∧ length frames = 3 - 1
    ∧ frames = segments (concat chunks) (occurrences signature (concat chunks))
    ∧ (∀ chunks', concat chunks' = concat chunks →
         feed (Some MJPEG) signature [] [] chunks' = Some (frames, rest))
    ∧ ∃ s,
        run (newStreamCamera (Some (Some MJPEG)) "BCM2711")
          (CallStartCapture :: ResumeStartCapture 0 :: (StdoutData 0 <$> chunks))
        = Some s
        ∧ emittedFrames s = frames.
Proof.
  intros signature chunks.
  apply (frames_between_consecutive_signatures "BCM2711" signature chunks 3).
  - reflexivity.
  - vm_compute. reflexivity.
  - lia.
Defined.

(** C4, as the code has it. After every pass of an MJPEG session one of
    two things holds. Either the input received so far holds no occurrence of
    the signature: nothing was emitted and the buffer is all of that input,
    kept as it is, noise included. Or the buffer is the input from one of its
    occurrences of the signature on: it starts with the signature, and it
    holds no second occurrence from the signature's length on. The buffer of
    a session is the [stdoutBuffer] of the data listener of a camera started
    once, and the shape holds of the [stdoutBuffer] of every data listener in
    every state a camera reaches. *)
Theorem buffer_after_each_pass
    (codec : option Codec) (signature : Buffer) (chunks : list Buffer) :
  signature ≠ [] →
  (∃ frames rest,
     feed codec signature [] [] chunks = Some (frames, rest)
     ∧ ((∀ i, ¬ occurs_at signature rest i)
        ∨ (signature `prefix_of` rest
           ∧ ∀ j, length signature ≤ j → ¬ occurs_at signature rest j))
     ∧ (codec = Some MJPEG →
        ((∀ i, ¬ occurs_at signature (concat chunks) i)
         ∧ frames = [] ∧ rest = concat chunks)
        ∨ (∃ j, occurs_at signature (concat chunks) j
                ∧ rest = drop j (concat chunks)
                ∧ signature `prefix_of` rest
                ∧ ∀ j', length signature ≤ j' → ¬ occurs_at signature rest j')))
  ∧ (∀ codecOption model events s l,
       run (newStreamCamera codecOption model) events = Some s →
       l ∈ dataListeners s →
       buffer_shape (jpegSignature l) (stdoutBuffer l))
  ∧ (∀ model events s,
       getJpegSignature model = inr signature →
       CallStartCapture ∉ events →
       run (newStreamCamera (Some (Some MJPEG)) model)
         (CallStartCapture :: ResumeStartCapture 0 :: events) = Some s →
       ∃ frames rest,
         feed (Some MJPEG) signature [] [] (chunksOf 0 events) = Some (frames, rest)
         ∧ dataListeners s
           = [{| target := 0; jpegSignature := signature; stdoutBuffer := rest |}]).
Proof.
  intros Hne. split_and!.
  - destruct (feed_total signature Hne codec chunks [] []) as [[frames rest] Hfeed].
    exists frames, rest. split; [done|].
    assert (buffer_shape signature rest) as Hshape.
    { eapply feed_buffer; [done|by apply buffer_shape_nil|done]. }
    split; [done|]. intros ->. rewrite feed_concat in Hfeed by done.
    pose proof (extractFrames_conserve signature Hne _ _ _ _ Hfeed) as Hcons.
    destruct (indexFrom signature (concat chunks) 0) as [i0|] eqn:Hi0.
    + right. exists (i0 + length (concat frames)).
      assert (rest = drop (i0 + length (concat frames)) (concat chunks)) as Hrest.
      { rewrite <- drop_drop, <- Hcons. by rewrite drop_app_length. }
      assert (signature `prefix_of` rest) as Hpre.
      { eapply extractFrames_rest_at_signature; [done..|]. by rewrite Hi0. }
      split_and!; [|done|done|].
      * unfold occurs_at. by rewrite <- Hrest.
      * destruct Hshape as [Hnone|[_ Hno]]; [|done].
        destruct (Hnone 0). unfold occurs_at. by rewrite drop_0.
    + left. destruct Hcons as [-> ->]. split; [|done].
      intros i. rewrite indexFrom_None in Hi0. apply Hi0. lia.
  - intros codecOption model events s l Hrun Hl.
    destruct (run_shapes _ _ _ Hrun (wf_newStreamCamera _ _)
                (shapes_newStreamCamera _ _)) as [Hbuf _].
    by apply Hbuf.
  - intros model events s Hsig Hstart Hrun.
    cbn [run step mbind option_bind fst] in Hrun.
    destruct (run_session_feed signature events Hne Hstart
                (resumeStartCapture 0
                   (startCapture (newStreamCamera (Some (Some MJPEG)) model)).1)
                [] (resumed spawned))
      as (s' & frames & rest & Hrun' & Hfeed & _ & Hl & _).
    + unfold startCapture, resumeStartCapture. cbn. by rewrite Hsig.
    + unfold startCapture, resumeStartCapture. cbn. by rewrite Hsig.
    + done.
    + exists frames, rest. split.
      * revert Hfeed. unfold startCapture, resumeStartCapture. cbn.
        by rewrite Hsig.
      * congruence.
Qed.

Lemma buffer_after_each_pass_witness :
  let signature := [xff; xd8; xff; xdb; x00; x84; x00] in
  let chunks := [bytes "noise"; [xff; xd8; xff] ] in
  signature ≠ []
  ∧ feed (Some MJPEG) signature [] [] chunks
    = Some ([], bytes "noise" ++ [xff; xd8; xff])
  ∧ (∃ frames rest,
       feed (Some MJPEG) signature [] [] chunks = Some (frames, rest)
       ∧ ((∀ i, ¬ occurs_at signature rest i)
          ∨ (signature `prefix_of` rest
             ∧ ∀ j, length signature ≤ j → ¬ occurs_at signature rest j))
       ∧ (Some MJPEG = Some MJPEG →
          ((∀ i, ¬ occurs_at signature (concat chunks) i)
           ∧ frames = [] ∧ rest = concat chunks)
          ∨ (∃ j, occurs_at signature (concat chunks) j
                  ∧ rest = drop j (concat chunks)
                  ∧ signature `prefix_of` rest
                  ∧ ∀ j', length signature ≤ j' → ¬ occurs_at signature rest j')))
  ∧ (∀ codecOption model events s l,
       run (newStreamCamera codecOption model) events = Some s →
       l ∈ dataListeners s →
       buffer_shape (jpegSignature l) (stdoutBuffer l))
  ∧ (∀ model events s,
       getJpegSignature model = inr signature →
       CallStartCapture ∉ events →
       run (newStreamCamera (Some (Some MJPEG)) model)
         (CallStartCapture :: ResumeStartCapture 0 :: events) = Some s →
       ∃ frames rest,
         feed (Some MJPEG) signature [] [] (chunksOf 0 events) = Some (frames, rest)
         ∧ dataListeners s
           = [{| target := 0; jpegSignature := signature; stdoutBuffer := rest |}]).
Proof.
  intros signature chunks.
  assert (signature ≠ []) as Hne by discriminate.
  split; [exact Hne|]. split; [vm_compute; reflexivity|].
  exact (buffer_after_each_pass (Some MJPEG) signature chunks Hne).
Defined.

(** C4 as stated fails: after a pass on a chunk without the signature the
    buffer is that chunk, neither empty nor at a signature. *)
Lemma buffer_keeps_leading_noise :
  feed (Some MJPEG) [xff; xd8; xff; xdb; x00; x84; x00] [] [] [bytes "AAA"]
  = Some ([], bytes "AAA")
  ∧ bytes "AAA" ≠ []
  ∧ ¬ [xff; xd8; xff; xdb; x00; x84; x00] `prefix_of` bytes "AAA".
Proof.
  split_and!; [by vm_compute|done|].
  by intros Hpre%prefix_cons_inv_1.
Qed.

(** C5, as the code has it. With signature [SIG], the chunk [AAA] emits
    nothing and is kept; the chunk [SIG1dataSIG2moredataSIG3] then emits two
    frames, [SIG1data] and [SIG2moredata], and the buffer left is [SIG3]. *)
Theorem scenario_emits_both_frames :
  parseFrames (Some MJPEG) (bytes "SIG") [] (bytes "AAA")
  = Some ([], bytes "AAA")
  ∧ parseFrames (Some MJPEG) (bytes "SIG") (bytes "AAA")
      (bytes "SIG1dataSIG2moredataSIG3")
    = Some ([bytes "SIG1data"; bytes "SIG2moredata"], bytes "SIG3")
  ∧ feed (Some MJPEG) (bytes "SIG") [] []
      [bytes "AAA"; bytes "SIG1dataSIG2moredataSIG3"]
    = Some ([bytes "SIG1data"; bytes "SIG2moredata"], bytes "SIG3").
Proof. split_and!; by vm_compute. Qed.

(** C5 as stated fails: the session does not stop at one frame with
    [SIG2moredataSIG3] left in the buffer. *)
Lemma scenario_not_one_frame :
  feed (Some MJPEG) (bytes "SIG") [] []
    [bytes "AAA"; bytes "SIG1dataSIG2moredataSIG3"]
  ≠ Some ([bytes "SIG1data"], bytes "SIG2moredataSIG3").
Proof. by vm_compute. Qed.

(** C10. Every frame a session emits starts with the signature and holds no
    occurrence of the signature at an offset from the signature's length
    on. The same holds, with the provider's signature, of every frame a
    camera emits in any run. *)
Theorem emitted_frame_shape
    (codec : option Codec) (signature : Buffer) (chunks : list Buffer) :
  signature ≠ [] →
  (∃ frames rest,
     feed codec signature [] [] chunks = Some (frames, rest)
     ∧ ∀ frame, frame ∈ frames →
         signature `prefix_of` frame
         ∧ ∀ j, length signature ≤ j → ¬ occurs_at signature frame j)
  ∧ ∀ codecOption model events s frame,
      run (newStreamCamera codecOption model) events = Some s →
      frame ∈ emittedFrames s →
      ∃ jpegSignature,
        getJpegSignature model = inr jpegSignature
        ∧ jpegSignature `prefix_of` frame
        ∧ ∀ j, length jpegSignature ≤ j → ¬ occurs_at jpegSignature frame j.
Proof.
  intros Hne. split.
  - destruct (feed_total signature Hne codec chunks [] []) as [[frames rest] Hfeed].
    exists frames, rest. split; [done|].
    apply list.Forall_forall. eapply feed_frames; [done|constructor|done].
  - intros codecOption model events s frame Hrun Hframe.
    destruct (run_shapes _ _ _ Hrun (wf_newStreamCamera _ _)
                (shapes_newStreamCamera _ _)) as [_ Hframes].
    destruct (Hframes frame Hframe) as (sig' & Hsig & Hpre & Hocc).
    exists sig'. rewrite (run_systemModel _ _ _ Hrun) in Hsig. done.
Qed.

Lemma emitted_frame_shape_witness :
  (∃ frames rest,
     feed (Some MJPEG) (bytes "SIG") [] []
       [bytes "AAA"; bytes "SIG1dataSIG2moredataSIG3"]
     = Some (frames, rest)
     ∧ ∀ frame, frame ∈ frames →
         bytes "SIG" `prefix_of` frame
         ∧ ∀ j, length (bytes "SIG") ≤ j → ¬ occurs_at (bytes "SIG") frame j)
  ∧ ∀ codecOption model events s frame,
      run (newStreamCamera codecOption model) events = Some s →
      frame ∈ emittedFrames s →
      ∃ jpegSignature,
        getJpegSignature model = inr jpegSignature
        ∧ jpegSignature `prefix_of` frame
        ∧ ∀ j, length jpegSignature ≤ j → ¬ occurs_at jpegSignature frame j.
Proof. apply emitted_frame_shape. discriminate. Defined.

(** ** Starting *)

(** C2, as the code has it. [startCapture] has no guard: called while a
    process is stored in [this.childProcess], it returns a pending promise,
    spawns one more process and stores the new handle in place of the old
    one. The earlier process is left as it was (not killed), and a
    [stopCapture] after that kills the new process and does not reach the
    earlier one. *)
Theorem startCapture_while_active (s : State) (handle : nat) (proc : ChildProcess) :
  childProcess s = Some handle →
  processes s !! handle = Some proc →
  let s' := (startCapture s).1 in
  let call := (startCapture s).2 in
  call = length (processes s)
  ∧ processes s' = processes s ++ [spawned]
  ∧ startPromise <$> processes s' !! call = Some Pending
  ∧ childProcess s' = Some call
  ∧ call ≠ handle
  ∧ processes s' !! handle = Some proc
  ∧ processes (stopCapture s') !! handle = Some proc
  ∧ processes (stopCapture s') !! call = Some (kill spawned).
Proof.
  intros Hchild Hproc. cbn zeta. unfold startCapture, stopCapture. cbn.
  pose proof (lookup_lt_Some _ _ _ Hproc) as Hlt.
  split_and!; try done.
  - by rewrite list_lookup_middle.
  - lia.
  - by apply lookup_app_l_Some.
  - rewrite list_lookup_alter_ne by lia. by apply lookup_app_l_Some.
  - by rewrite list_lookup_alter_eq, list_lookup_middle.
Qed.

Lemma startCapture_while_active_witness :
  let s := (startCapture (newStreamCamera None "BCM2711")).1 in
  let s' := (startCapture s).1 in
  let call := (startCapture s).2 in
  call = length (processes s)
  ∧ processes s' = processes s ++ [spawned]
  ∧ startPromise <$> processes s' !! call = Some Pending
  ∧ childProcess s' = Some call
  ∧ call ≠ 0
  ∧ processes s' !! 0 = Some spawned
  ∧ processes (stopCapture s') !! 0 = Some spawned
  ∧ processes (stopCapture s') !! call = Some (kill spawned).
Proof.
  apply (startCapture_while_active
           (startCapture (newStreamCamera None "BCM2711")).1 0 spawned);
    reflexivity.
Defined.

(** C2 as stated fails: a second [startCapture] with no [stopCapture] in
    between is not rejected. Two processes exist, the first one is not
    killed and no longer stored, and the second promise resolves on the first
    chunk. *)
Lemma second_start_not_rejected :
  let s1 := (startCapture (newStreamCamera None "BCM2711")).1 in
  let s2 := (startCapture s1).1 in
  childProcess s1 = Some 0
  ∧ killed <$> processes s2 !! 0 = Some false
  ∧ childProcess s2 = Some 1
  ∧ startPromise <$> processes s2 !! 1 = Some Pending
  ∧ length (processes s2) = 2
  ∧ (s ← run s2 [ResumeStartCapture 0; ResumeStartCapture 1; StdoutData 1 [x00]];
     startPromise <$> processes s !! 1) = Some (Resolved ()).
Proof. by vm_compute. Qed.

(** C3, as the code has it. On a host for which the provider has no
    signature, in every encoding mode: [startCapture] first spawns the
    process and stores its handle, the promise still pending. When the
    executor resumes after the [await], at once or after any other events,
    the promise is rejected with the provider's error if it is still pending
    (the first chunk may have resolved it meanwhile); the process is not
    killed by that, the stored handle stays and no data listener is
    attached. *)
Theorem startCapture_unknown_host (s : State) (err : Error) :
  getJpegSignature (systemModel s) = inl err →
  let s1 := (startCapture s).1 in
  let call := (startCapture s).2 in
  processes s1 = processes s ++ [spawned]
  ∧ childProcess s1 = Some call
  ∧ processes (resumeStartCapture call s1) !! call
    = Some {| killed := false; startPromise := Rejected err; onceError := true;
              onceData := true; awaiting := false |}
  ∧ ∀ events s2 proc,
      run s1 events = Some s2 →
      processes s2 !! call = Some proc →
      awaiting proc = true →
      processes (resumeStartCapture call s2) !! call
      = Some {| killed := killed proc;
                startPromise := settle (Rejected err) (startPromise proc);
                onceError := onceError proc; onceData := onceData proc;
                awaiting := false |}
      ∧ childProcess (resumeStartCapture call s2) = childProcess s2
      ∧ dataListeners (resumeStartCapture call s2) = dataListeners s2.
Proof.
  intros Herr. cbn zeta.
  assert (Hresume : ∀ s2 proc,
            systemModel s2 = systemModel s →
            processes s2 !! length (processes s) = Some proc →
            awaiting proc = true →
            processes (resumeStartCapture (length (processes s)) s2)
              !! length (processes s)
            = Some {| killed := killed proc;
                      startPromise := settle (Rejected err) (startPromise proc);
                      onceError := onceError proc; onceData := onceData proc;
                      awaiting := false |}
            ∧ childProcess (resumeStartCapture (length (processes s)) s2)
              = childProcess s2
            ∧ dataListeners (resumeStartCapture (length (processes s)) s2)
              = dataListeners s2).
  { intros s2 proc Hmodel Hproc Hawait. unfold resumeStartCapture.
    rewrite Hproc, Hawait. cbn. rewrite Hmodel, Herr. cbn.
    split_and!; [|done..]. rewrite !list_lookup_alter_eq, Hproc. done. }
  split_and!; [done..| |].
  - apply (Hresume (startCapture s).1 spawned); [done| |done].
    unfold startCapture. cbn. by rewrite list_lookup_middle.
  - intros events s2 proc Hrun Hproc Hawait. apply Hresume; [|done..].
    by rewrite (run_systemModel _ _ _ Hrun).
Qed.

Lemma startCapture_unknown_host_witness :
  let s := newStreamCamera (Some (Some H264)) "Desktop PC" in
  let err :=
    MkError "Could not determine JPEG signature. Unknown system model 'Desktop PC'" in
  let s1 := (startCapture s).1 in
  let call := (startCapture s).2 in
  processes s1 = processes s ++ [spawned]
  ∧ childProcess s1 = Some call
  ∧ processes (resumeStartCapture call s1) !! call
    = Some {| killed := false; startPromise := Rejected err; onceError := true;
              onceData := true; awaiting := false |}
  ∧ ∀ events s2 proc,
      run s1 events = Some s2 →
      processes s2 !! call = Some proc →
      awaiting proc = true →
      processes (resumeStartCapture call s2) !! call
      = Some {| killed := killed proc;
                startPromise := settle (Rejected err) (startPromise proc);
                onceError := onceError proc; onceData := onceData proc;
                awaiting := false |}
      ∧ childProcess (resumeStartCapture call s2) = childProcess s2
      ∧ dataListeners (resumeStartCapture call s2) = dataListeners s2.
Proof.
  apply (startCapture_unknown_host (newStreamCamera (Some (Some H264)) "Desktop PC")).
  reflexivity.
Defined.

(** C3 as stated fails: in H264 mode on an unknown host the signature is
    resolved all the same, and when its error rejects the promise the process
    has been spawned already. *)
Lemma signature_error_after_spawn_in_plain_mode :
  let s := newStreamCamera (Some (Some H264)) "Desktop PC" in
  let s1 := (startCapture s).1 in
  let s2 := resumeStartCapture 0 s1 in
  codec s = Some H264
  ∧ processes s = []
  ∧ processes s1 = [spawned]
  ∧ startPromise <$> processes s2 !! 0
    = Some (Rejected (MkError
        "Could not determine JPEG signature. Unknown system model 'Desktop PC'"))
  ∧ killed <$> processes s2 !! 0 = Some false.
Proof. by vm_compute. Qed.

(** ** Plain mode, fan-out, single images and stopping *)




(** C7. A stream made by [createStream] at any point of a run, while
    [stopCapture] is not called after that. The chunks dispatched since are
    those of the stdout events since, each once for each data listener
    attached to the stdout of its process when it arrives; in a camera
    started once they are the chunks of its process, once each. The stream
    did not exist before; it holds exactly those chunks, in that order and as
    they were, and none from before. Every stream that was in the registry
    before has received the same chunks after what it held. When
    [stopCapture] is called, what the stream holds from then on is those
    chunks followed by one [null]. *)
Theorem fan_out_since_registration
    (codecOption : option (option Codec)) (model : string)
    (events events' : list Event) (s s2 : State) :
  run (newStreamCamera codecOption model) events = Some s →
  CallStopCapture ∉ events' →
  run (createStream s).1 events' = Some s2 →
  let r := (createStream s).2 in
  let chunks := deliveries (createStream s).1 events' in
  readables s !! r = None
  ∧ dispatched s2 = dispatched s ++ chunks
  ∧ r ∈ streams s2
  ∧ readables s2 !! r = Some (Some <$> chunks)
  ∧ (∀ r' items, r' ∈ streams s → readables s !! r' = Some items →
       r' ∈ streams s2 ∧ readables s2 !! r' = Some (items ++ (Some <$> chunks)))
  ∧ (∀ events'' s3, run (stopCapture s2) events'' = Some s3 →
       readables s3 !! r = Some ((Some <$> chunks) ++ [None]))
  ∧ (∀ signature pre,
       getJpegSignature model = inr signature →
       events = CallStartCapture :: ResumeStartCapture 0 :: pre →
       CallStartCapture ∉ pre → CallStartCapture ∉ events' →
       chunks = chunksOf 0 events').
Proof.
  intros Hrun Hstop Hrun2. cbn zeta.
  pose proof (run_wf _ _ _ Hrun (wf_newStreamCamera _ _)) as Hwf.
  pose proof (run_handles_valid _ _ _ Hrun (handles_valid_newStreamCamera _ _))
    as Hvalid.
  assert (Hwf1 : wf (createStream s).1).
  { eapply atom_wf; [apply atom_create|done]. }
  set (chunks := deliveries (createStream s).1 events').
  assert (Hd : dispatched s2 = dispatched s ++ chunks).
  { by apply (run_deliveries events' (createStream s).1 s2). }
  assert (Hget : ∀ r' items,
             r' ∈ streams (createStream s).1 →
             readables (createStream s).1 !! r' = Some items →
             r' ∈ streams s2 ∧ readables s2 !! r' = Some (items ++ (Some <$> chunks))).
  { intros r' items Hr' Hitems.
    destruct (run_receives r' _ _ _ Hstop Hwf1 Hrun2) as [_ (chunks' & Hd' & Hrec)].
    assert (chunks' = chunks) as ->.
    { change (dispatched (createStream s).1) with (dispatched s) in Hd'.
      rewrite Hd in Hd'. by apply (inj (app _)) in Hd'. }
    destruct (Hrec Hr') as [Hin Heq]. split; [done|]. by rewrite Heq, Hitems. }
  assert (Hnew : (createStream s).2 ∈ streams s2
                 ∧ readables s2 !! (createStream s).2 = Some (Some <$> chunks)).
  { apply (Hget _ []).
    - cbn. apply elem_of_app. right. by apply list_elem_of_singleton.
    - cbn. by rewrite list_lookup_middle. }
  destruct Hnew as [Hin Hnew].
  split_and!; [|done..| | |].
  - cbn. by apply lookup_ge_None.
  - intros r' items Hr' Hitems. apply Hget.
    + cbn. apply elem_of_app. by left.
    + cbn. by apply lookup_app_l_Some.
  - intros events'' s3 Hrun3.
    pose proof (run_wf _ _ _ Hrun2 Hwf1) as Hwf2.
    destruct (run_closed_stays (createStream s).2 _ _ _ Hrun3) as [_ Hclosed].
    destruct Hclosed as [_ Heq].
    + unfold stopCapture. cbn. by intros ?%elem_of_nil.
    + unfold stopCapture. cbn. rewrite length_pushAll.
      repeat case_match; by eapply lookup_lt_Some.
    + etrans; [exact Heq|]. unfold stopCapture. cbn.
      etrans; [apply lookup_pushAll|].
      * repeat case_match; cbn; by apply wf_streams_NoDup.
      * by repeat case_match.
      * cbn in Hnew. repeat case_match; cbn; by rewrite Hnew.
  - intros signature pre Hsig -> Hpre Hevents'.
    cbn [run step mbind option_bind fst] in Hrun.
    assert (Hsingle : single_session s).
    { eapply (run_single_session pre); [done..|].
      unfold startCapture, resumeStartCapture. cbn. rewrite Hsig. cbn.
      by eexists _, _. }
    apply (deliveries_single_session events' (createStream s).1 s2); [|done..].
    by apply (atom_single_session CallCreateStream s); [|apply atom_create|].
Qed.

Lemma fan_out_since_registration_witness :
  let events :=
    [CallStartCapture; ResumeStartCapture 0; CallCreateStream;
     StdoutData 0 [x01]] in
  let events' := [StdoutData 0 [x02]; CallCreateStream; StdoutData 0 [x03]] in
  let s := after (newStreamCamera None "BCM2711") events in
  let s2 := after (createStream s).1 events' in
  let r := (createStream s).2 in
  let chunks := deliveries (createStream s).1 events' in
  chunks = [[x02]; [x03]]
  ∧ readables s2 = [[Some [x01]; Some [x02]; Some [x03]];
                    [Some [x02]; Some [x03]]; [Some [x03]]]
  ∧ readables s !! r = None
  ∧ dispatched s2 = dispatched s ++ chunks
  ∧ r ∈ streams s2
  ∧ readables s2 !! r = Some (Some <$> chunks)
  ∧ (∀ r' items, r' ∈ streams s → readables s !! r' = Some items →
       r' ∈ streams s2 ∧ readables s2 !! r' = Some (items ++ (Some <$> chunks)))
  ∧ (∀ events'' s3, run (stopCapture s2) events'' = Some s3 →
       readables s3 !! r = Some ((Some <$> chunks) ++ [None]))
  ∧ (∀ signature pre,
       getJpegSignature "BCM2711" = inr signature →
       events = CallStartCapture :: ResumeStartCapture 0 :: pre →
       CallStartCapture ∉ pre → CallStartCapture ∉ events' →
       chunks = chunksOf 0 events').
Proof.
  intros events events' s s2.
  split; [vm_compute; reflexivity|]. split; [vm_compute; reflexivity|].
  apply (fan_out_since_registration None "BCM2711" events events' s s2).
  - vm_compute. reflexivity.
  - intros Hin. by repeat (apply elem_of_cons in Hin as [?|Hin]; [done|]);
      apply elem_of_nil in Hin.
  - vm_compute. reflexivity.
Defined.

(** C8. [takeImage] on a camera whose codec is not MJPEG throws at once: no
    promise is made and no listener attached (the state is not touched). On
    an MJPEG camera it returns a new pending promise whose listener is
    attached; whatever was emitted before, the promise stays pending until the
    next frame is emitted, is resolved with that frame, and the listener is
    gone from then on. In a camera started once, the next frame is the first
    one the loop of the data listener extracts from what its buffer holds at
    the call followed by the chunks the process delivers afterwards; while
    the loop extracts none the promise stays pending. *)
Theorem takeImage_next_frame (s : State) :
  (codec s ≠ Some MJPEG →
   takeImage s = inl (MkError "Codec must be 'MJPEG' to take image"))
  ∧ (codec s = Some MJPEG →
     ∃ s1 p,
       takeImage s = inr (s1, p)
       ∧ p = length (images s)
       ∧ images s1 !! p = Some Pending
       ∧ p ∈ frameListeners s1
       ∧ emittedFrames s1 = emittedFrames s
       ∧ (∀ events s2,
            run s1 events = Some s2 →
            match drop (length (emittedFrames s)) (emittedFrames s2) with
            | [] => images s2 !! p = Some Pending ∧ p ∈ frameListeners s2
            | frame :: _ =>
              images s2 !! p = Some (Resolved frame) ∧ p ∉ frameListeners s2
            end)
       ∧ (∀ signature buf proc events,
            signature ≠ [] →
            dataListeners s
            = [{| target := 0; jpegSignature := signature; stdoutBuffer := buf |}] →
            processes s = [proc] → awaiting proc = false →
            CallStartCapture ∉ events →
            ∃ s2 frames rest,
              run s1 events = Some s2
              ∧ feed (Some MJPEG) signature [] buf (chunksOf 0 events)
                = Some (frames, rest)
              ∧ emittedFrames s2 = emittedFrames s ++ frames
              ∧ match frames with
                | [] => images s2 !! p = Some Pending ∧ p ∈ frameListeners s2
                | frame :: _ =>
                  images s2 !! p = Some (Resolved frame) ∧ p ∉ frameListeners s2
                end)).
Proof.
  split; intros Hc; unfold takeImage.
  - by rewrite decide_True.
  - rewrite decide_False by (by intros ?).
    eexists _, _. split; [done|]. cbn.
    assert (Hpend : (images s ++ [Pending]) !! length (images s) = Some Pending).
    { by rewrite list_lookup_middle. }
    assert (Hin : length (images s) ∈ frameListeners s ++ [length (images s)]).
    { apply elem_of_app. right. by apply list_elem_of_singleton. }
    assert (Hnext : ∀ events s2,
              run (set_frameListeners (frameListeners s ++ [length (images s)])
                     (set_images (images s ++ [Pending]) s)) events = Some s2 →
              match drop (length (emittedFrames s)) (emittedFrames s2) with
              | [] => images s2 !! length (images s) = Some Pending
                      ∧ length (images s) ∈ frameListeners s2
              | frame :: _ =>
                images s2 !! length (images s) = Some (Resolved frame)
                ∧ length (images s) ∉ frameListeners s2
              end).
    { intros events s2 Hrun.
      destruct (run_settles (length (images s)) _ _ _ Hrun)
        as (frames & He & _ & Hlisten & _).
      cbn in He, Hlisten. rewrite He, drop_app_length.
      specialize (Hlisten Hin Hpend).
      destruct frames as [|frame frames]; destruct Hlisten; by split. }
    split_and!; [done..|].
    intros signature buf proc events Hne Hl Hp Ha Hstart.
    destruct (run_session_feed signature events Hne Hstart
                (set_frameListeners (frameListeners s ++ [length (images s)])
                   (set_images (images s ++ [Pending]) s)) buf proc Hl Hp Ha)
      as (s2 & frames & rest & Hrun & Hfeed & He & _).
    cbn in Hfeed, He. rewrite Hc in Hfeed.
    exists s2, frames, rest. split_and!; [done..|].
    specialize (Hnext events s2 Hrun). by rewrite He, drop_app_length in Hnext.
Qed.

Lemma takeImage_next_frame_witness :
  let signature := [xff; xd8; xff; xdb; x00; x84; x00] in
  let s :=
    after (newStreamCamera (Some (Some MJPEG)) "BCM2711")
      [CallStartCapture; ResumeStartCapture 0;
       StdoutData 0 (signature ++ [x01] ++ signature ++ [x02])] in
  let events :=
    [StdoutData 0 [x03; xff; xd8]; CallCreateStream;
     StdoutData 0 ([xff; xdb; x00; x84; x00; x04] ++ signature)] in
  codec s = Some MJPEG
  ∧ emittedFrames s = [signature ++ [x01]]
  ∧ ∃ s1 p s2,
      takeImage s = inr (s1, p)
      ∧ images s1 !! p = Some Pending
      ∧ run s1 events = Some s2
      ∧ feed (Some MJPEG) signature [] (signature ++ [x02]) (chunksOf 0 events)
        = Some ([signature ++ [x02; x03]; signature ++ [x04]], signature)
      ∧ emittedFrames s2
        = emittedFrames s ++ [signature ++ [x02; x03]; signature ++ [x04]]
      ∧ images s2 !! p = Some (Resolved (signature ++ [x02; x03]))
      ∧ p ∉ frameListeners s2.
Proof.
  intros signature s events.
  assert (codec s = Some MJPEG) as Hc by (vm_compute; reflexivity).
  split; [exact Hc|]. split; [vm_compute; reflexivity|].
  destruct (takeImage_next_frame s) as [_ Hmjpeg].
  destruct (Hmjpeg Hc) as (s1 & p & Htake & _ & Hpend & _ & _ & _ & Hsession).
  destruct (Hsession signature (signature ++ [x02])
              (dataSeen (settleStart (Resolved ()) (resumed spawned))) events)
    as (s2 & frames & rest & Hrun & Hfeed & He & Hres).
  - discriminate.
  - vm_compute. reflexivity.
  - vm_compute. reflexivity.
  - reflexivity.
  - intros Hin. by repeat (apply elem_of_cons in Hin as [?|Hin]; [done|]);
      apply elem_of_nil in Hin.
  - assert (Some (frames, rest)
            = Some ([signature ++ [x02; x03]; signature ++ [x04]], signature))
      as Hvalue.
    { rewrite <- Hfeed. vm_compute. reflexivity. }
    injection Hvalue as -> ->.
    exists s1, p, s2. destruct Hres as [Hres Hgone]. by split_and!.
Defined.

Lemma readables_stopCapture s :
  readables (stopCapture s) = pushAll None (streams s) (readables s).
Proof. unfold stopCapture. by case_match. Qed.

(** C9. At any point of any run, [stopCapture] empties the registry and
    appends one [null] to every stream that was in it, none of which held a
    [null] before; whatever happens afterwards, a second [stopCapture]
    included, those streams receive nothing more. Frames play no part. *)
Theorem stopCapture_ends_each_stream_once
    (codecOption : option (option Codec)) (model : string)
    (events : list Event) (s : State) :
  run (newStreamCamera codecOption model) events = Some s →
  streams (stopCapture s) = []
  ∧ (∀ r, r ∈ streams s →
       ∃ items,
         readables s !! r = Some items
         ∧ (None ∉ items)
         ∧ readables (stopCapture s) !! r = Some (items ++ [None])
         ∧ ∀ events' s', run (stopCapture s) events' = Some s' →
                         readables s' !! r = Some (items ++ [None]))
  ∧ readables (stopCapture (stopCapture s)) = readables (stopCapture s).
Proof.
  intros Hrun.
  pose proof (run_wf _ _ _ Hrun (wf_newStreamCamera _ _)) as Hwf.
  split_and!.
  - done.
  - intros r Hr.
    pose proof (wf_streams_valid _ Hwf r Hr) as Hlt.
    destruct (lookup_lt_is_Some_2 _ _ Hlt) as [items Hitems].
    assert (Hstop : readables (stopCapture s) !! r = Some (items ++ [None])).
    { rewrite readables_stopCapture.
      rewrite lookup_pushAll by (done || by apply wf_streams_NoDup).
      by rewrite Hitems. }
    exists items. split_and!; [done|by eapply wf_streams_open|done|].
    intros events' s' Hrun'.
    destruct (run_closed_stays r _ _ _ Hrun') as [_ Hclosed].
    destruct Hclosed as [_ Heq].
    + by intros ?%elem_of_nil.
    + by eapply lookup_lt_Some.
    + by rewrite Heq.
  - by rewrite (readables_stopCapture (stopCapture s)).
Qed.

Lemma stopCapture_ends_each_stream_once_witness :
  let s :=
    after (newStreamCamera None "BCM2711")
      [CallCreateStream; CallStartCapture; ResumeStartCapture 0;
       CallCreateStream; StdoutData 0 [x01]] in
  streams (stopCapture s) = []
  ∧ (∀ r, r ∈ streams s →
       ∃ items,
         readables s !! r = Some items
         ∧ (None ∉ items)
         ∧ readables (stopCapture s) !! r = Some (items ++ [None])
         ∧ ∀ events' s', run (stopCapture s) events' = Some s' →
                         readables s' !! r = Some (items ++ [None]))
  ∧ readables (stopCapture (stopCapture s)) = readables (stopCapture s).
Proof.
  intros s.
  apply (stopCapture_ends_each_stream_once None "BCM2711"
           [CallCreateStream; CallStartCapture; ResumeStartCapture 0;
            CallCreateStream; StdoutData 0 [x01]] s).
  vm_compute. reflexivity.
Defined.

(** * Further properties *)

(** ** What the loop keeps and what it drops *)

Lemma two_elements_length {A} (l : list A) (x y : A) :
  x ∈ l → y ∈ l → x ≠ y → 2 ≤ length l.
Proof.
  intros Hx Hy Hne. destruct l as [|a [|b l]]; simpl; [|exfalso|lia].
  - by apply elem_of_nil in Hx.
  - apply list_elem_of_singleton in Hx, Hy. congruence.
Qed.

(** X1. Whatever the non-empty signature and the chunks of an MJPEG session:
    if the input holds no signature, nothing is emitted and the buffer is the
    whole input; otherwise the frames emitted, put end to end and followed by
    the buffer left, are exactly the input from its first signature on. No
    byte after the first signature is lost, repeated or moved, and the bytes
    before it appear in no frame. *)
Theorem frames_and_buffer_conserve_input (signature : Buffer) (chunks : list Buffer) :
  signature ≠ [] →
  ∃ frames rest,
    feed (Some MJPEG) signature [] [] chunks = Some (frames, rest)
    ∧ ((∀ i, ¬ occurs_at signature (concat chunks) i) →
       frames = [] ∧ rest = concat chunks)
    ∧ (∀ i, occurs_at signature (concat chunks) i →
            (∀ k, k < i → ¬ occurs_at signature (concat chunks) k) →
            concat frames ++ rest = drop i (concat chunks)).
Proof.
  intros Hne. rewrite feed_concat by done.
  destruct (extractFrames_total signature Hne (S (length (concat chunks)))
              (concat chunks)) as [[frames rest] Hr]; [lia|].
  exists frames, rest. split; [done|].
  pose proof (extractFrames_conserve signature Hne _ _ _ _ Hr) as Hcons.
  destruct (indexFrom signature (concat chunks) 0) as [i0|] eqn:Hi0; split.
  - intros Hnone. apply indexFrom_spec in Hi0 as (_ & Hocc & _). by destruct (Hnone i0).
  - intros i Hocc Hmin.
    assert (indexFrom signature (concat chunks) 0 = Some i) as Hi.
    { apply indexFrom_spec. split_and!; [lia|done|]. intros k Hk. apply Hmin. lia. }
    congruence.
  - done.
  - intros i Hocc _. rewrite indexFrom_None in Hi0. destruct (Hi0 i); [lia|done].
Qed.

Lemma frames_and_buffer_conserve_input_witness :
  let signature := bytes "SIG" in
  let chunks := [bytes "AAAS"; bytes "IG1dataSI"; bytes "G2"] in
  ∃ frames rest,
    feed (Some MJPEG) signature [] [] chunks = Some (frames, rest)
    ∧ ((∀ i, ¬ occurs_at signature (concat chunks) i) →
       frames = [] ∧ rest = concat chunks)
    ∧ (∀ i, occurs_at signature (concat chunks) i →
            (∀ k, k < i → ¬ occurs_at signature (concat chunks) k) →
            concat frames ++ rest = drop i (concat chunks)).
Proof.
  intros signature chunks. apply frames_and_buffer_conserve_input. discriminate.
Defined.

(** X2. No false positives: with any non-empty signature, an MJPEG session
    whose whole input holds the signature at one offset at most emits no
    frame. *)
Theorem no_frame_without_two_signatures (signature : Buffer) (chunks : list Buffer) :
  signature ≠ [] →
  length (occurrences signature (concat chunks)) ≤ 1 →
  ∃ rest, feed (Some MJPEG) signature [] [] chunks = Some ([], rest).
Proof.
  intros Hne Hk. rewrite feed_concat by done.
  destruct (extractFrames_total signature Hne (S (length (concat chunks)))
              (concat chunks)) as [[frames rest] Hr]; [lia|].
  exists rest. rewrite Hr. destruct frames as [|frame frames]; [done|].
  destruct (extractFrames_two_occurrences signature Hne _ _ _ _ _ Hr)
    as (i & j & Hij & Hi & Hj).
  assert (2 ≤ length (occurrences signature (concat chunks))); [|lia].
  apply (two_elements_length _ i j); [| |lia].
  - apply elem_of_occurrences_from; [done|]. split; [lia|done].
  - apply elem_of_occurrences_from; [done|]. split; [lia|done].
Qed.

Lemma no_frame_without_two_signatures_witness :
  ∃ rest,
    feed (Some MJPEG) (bytes "AA") [] [] [bytes "xA"; bytes "Ay"; bytes "A"]
    = Some ([], rest).
Proof.
  apply no_frame_without_two_signatures; [discriminate|].
  vm_compute. lia.
Defined.

(** X3. For every non-empty signature, one that can overlap itself
    included, what an MJPEG session emits and leaves depends on the bytes
    received only, not on how they were cut into chunks; empty chunks change
    nothing. *)
Theorem feed_chunking_irrelevant (signature : Buffer) (chunks chunks' : list Buffer) :
  signature ≠ [] →
  concat chunks = concat chunks' →
  feed (Some MJPEG) signature [] [] chunks = feed (Some MJPEG) signature [] [] chunks'
  ∧ is_Some (feed (Some MJPEG) signature [] [] chunks).
Proof.
  intros Hne Heq. split; [|by apply feed_total].
  by rewrite !feed_concat, Heq.
Qed.

Lemma feed_chunking_irrelevant_witness :
  feed (Some MJPEG) (bytes "AA") [] [] [bytes "AAxA"; []; bytes "AAA"]
  = feed (Some MJPEG) (bytes "AA") [] [] [bytes "A"; bytes "AxAA"; bytes "AA"]
  ∧ is_Some (feed (Some MJPEG) (bytes "AA") [] [] [bytes "AAxA"; []; bytes "AAA"]).
Proof. apply feed_chunking_irrelevant; [discriminate|reflexivity]. Defined.

Lemma last_elem_of {A} (l : list A) (d : A) : l ≠ [] → List.last l d ∈ l.
Proof.
  induction l as [|x [|y l] IH]; intros Hne; [done|by left|].
  right. apply IH. done.
Qed.

(** X4. With the signature of the provider, the buffer an MJPEG session
    leaves is the input from its last signature on (all the input when it
    holds none): the bytes of the last image are kept back until another
    signature arrives, so the last image of a stream is never emitted. *)
Theorem last_image_stays_in_buffer
    (model : string) (signature : Buffer) (chunks : list Buffer) :
  getJpegSignature model = inr signature →
  ∃ frames rest,
    feed (Some MJPEG) signature [] [] chunks = Some (frames, rest)
    ∧ rest = drop (List.last (occurrences signature (concat chunks)) 0)
               (concat chunks)
    ∧ (occurrences signature (concat chunks) ≠ [] →
       signature `prefix_of` rest).
Proof.
  intros Hsig.
  pose proof (getJpegSignature_nonempty _ _ Hsig) as Hne.
  pose proof (getJpegSignature_unbordered _ _ Hsig) as Hunb.
  rewrite feed_concat by done.
  destruct (extractFrames_total signature Hne (S (length (concat chunks)))
              (concat chunks)) as [[frames rest] Hr]; [lia|].
  exists frames, rest. split; [done|].
  destruct (extractFrames_segments signature Hne Hunb
              (S (length (concat chunks))) (concat chunks) 0 frames rest)
    as [Hframes Hrest]; [lia|by rewrite drop_0|].
  split; [done|]. intros Hocc. rewrite Hrest.
  apply (last_elem_of _ 0) in Hocc.
  by apply elem_of_occurrences_from in Hocc as [_ Hocc].
Qed.

Lemma last_image_stays_in_buffer_witness :
  let signature := [xff; xd8; xff; xdb; x00; x84; x00] in
  let chunks :=
    [ [xff; xd8; xff; xdb; x00; x84; x00; x01; xff; xd8; xff; xdb; x00; x84];
      [x00; x02; x03] ] in
  ∃ frames rest,
    feed (Some MJPEG) signature [] [] chunks = Some (frames, rest)
    ∧ rest = drop (List.last (occurrences signature (concat chunks)) 0)
               (concat chunks)
    ∧ (occurrences signature (concat chunks) ≠ [] →
       signature `prefix_of` rest).
Proof.
  intros signature chunks.
  apply (last_image_stays_in_buffer "Docker Container"). reflexivity.
Defined.

(** ** One stdout chunk and the listeners of its process *)

(** X5. In every state a camera reaches, a stdout chunk of any process is
    dispatched once for each data listener attached to that process: the
    chunk is appended that many times to every stream of the registry, streams
    outside the registry receive nothing and the registry stays as it is. *)
Theorem chunk_dispatched_once_per_listener
    (codecOption : option (option Codec)) (model : string)
    (events : list Event) (s : State) (handle : nat) (data : Buffer) :
  run (newStreamCamera codecOption model) events = Some s →
  ∃ s',
    step s (StdoutData handle data) = Some s'
    ∧ streams s' = streams s
    ∧ dispatched s' = dispatched s ++ replicate (listenersOf handle s) data
    ∧ (∀ r, r ∈ streams s →
         readables s' !! r
         = (λ items, items ++ replicate (listenersOf handle s) (Some data))
             <$> readables s !! r)
    ∧ (∀ r, r ∉ streams s → readables s' !! r = readables s !! r).
Proof.
  intros Hrun.
  pose proof (run_wf _ _ _ Hrun (wf_newStreamCamera _ _)) as Hwf.
  pose proof (run_handles_valid _ _ _ Hrun (handles_valid_newStreamCamera _ _))
    as [_ Htargets].
  cbn [step]. destruct (processes s !! handle) as [proc|] eqn:Hp.
  - destruct (stdoutData_effect handle data proc s Hwf Hp)
      as (s' & Hstep & _ & Hs & Hd & _ & _ & _ & Hin & Hout).
    by exists s'.
  - exists s. unfold stdoutData. rewrite Hp.
    rewrite listenersOf_none.
    + cbn. rewrite app_nil_r. split_and!; try done.
      intros r _. symmetry. apply fmap_app_nil.
    + intros l Hl Ht. apply Htargets in Hl. apply lookup_ge_None in Hp. lia.
Qed.

Lemma chunk_dispatched_once_per_listener_witness :
  let s :=
    after (newStreamCamera None "BCM2711")
      [CallStartCapture; ResumeStartCapture 0; CallCreateStream] in
  ∃ s',
    step s (StdoutData 0 [x01]) = Some s'
    ∧ streams s' = streams s
    ∧ dispatched s' = dispatched s ++ replicate (listenersOf 0 s) [x01]
    ∧ (∀ r, r ∈ streams s →
         readables s' !! r
         = (λ items, items ++ replicate (listenersOf 0 s) (Some [x01]))
             <$> readables s !! r)
    ∧ (∀ r, r ∉ streams s → readables s' !! r = readables s !! r).
Proof.
  intros s.
  apply (chunk_dispatched_once_per_listener None "BCM2711"
           [CallStartCapture; ResumeStartCapture 0; CallCreateStream] s 0 [x01]).
  vm_compute. reflexivity.
Defined.

(** ** Chunks and calls of [startCapture] that cross *)

Lemma listenersOf_app handle s ls :
  listenersOf handle (set_dataListeners (dataListeners s ++ ls) s)
  = listenersOf handle s + length (filter (λ l, target l = handle) ls).
Proof. unfold listenersOf. cbn. by rewrite list.filter_app, length_app. Qed.

(** X7. When [startCapture] is called twice before the executor of the
    first call resumes, on a host with a signature, both executors attach
    their data listener to the process of the second call, the one stored in
    [this.childProcess] by then. The first process has no data listener: its
    chunks reach no stream. Every chunk of the second process is dispatched
    twice. *)
Theorem two_starts_share_the_second_process
    (codecOption : option (option Codec)) (model : string) (signature : Buffer)
    (events : list Event) (s : State) (data : Buffer) :
  run (newStreamCamera codecOption model) events = Some s →
  getJpegSignature model = inr signature →
  let first := (startCapture s).2 in
  let second := (startCapture (startCapture s).1).2 in
  let s' :=
    resumeStartCapture second
      (resumeStartCapture first (startCapture (startCapture s).1).1) in
  dataListeners s'
  = dataListeners s
    ++ [{| target := second; jpegSignature := signature; stdoutBuffer := [] |};
        {| target := second; jpegSignature := signature; stdoutBuffer := [] |}]
  ∧ listenersOf first s' = 0
  ∧ listenersOf second s' = 2
  ∧ (∃ s1,
       step s' (StdoutData first data) = Some s1
       ∧ dispatched s1 = dispatched s'
       ∧ ∀ r, readables s1 !! r = readables s' !! r)
  ∧ (∃ s2,
       step s' (StdoutData second data) = Some s2
       ∧ dispatched s2 = dispatched s' ++ [data; data]
       ∧ ∀ r, r ∈ streams s' →
           readables s2 !! r
           = (λ items, items ++ [Some data; Some data]) <$> readables s' !! r).
Proof.
  intros Hrun Hsig. cbn zeta.
  pose proof (run_wf _ _ _ Hrun (wf_newStreamCamera _ _)) as Hwf.
  pose proof (run_handles_valid _ _ _ Hrun (handles_valid_newStreamCamera _ _))
    as Hvalid.
  pose proof (run_systemModel _ _ _ Hrun) as Hmodel. cbn in Hmodel.
  set (s' := resumeStartCapture _ (resumeStartCapture _ _)).
  assert (Hwf' : wf s').
  { unfold s'. eapply atom_wf; [apply atom_resume|].
    eapply atom_wf; [apply atom_resume|].
    eapply atom_wf; [apply atom_start|]. eapply atom_wf; [apply atom_start|done]. }
  assert (Hlisteners :
            dataListeners s'
            = dataListeners s
              ++ [{| target := S (length (processes s)); jpegSignature := signature;
                     stdoutBuffer := [] |};
                  {| target := S (length (processes s)); jpegSignature := signature;
                     stdoutBuffer := [] |}]).
  { unfold s', resumeStartCapture, startCapture. cbn.
    rewrite length_app. cbn. rewrite Nat.add_1_r.
    rewrite lookup_app_l by (rewrite length_app; cbn; lia).
    rewrite list_lookup_middle by done. cbn. rewrite Hmodel, Hsig. cbn.
    rewrite list_lookup_alter_ne by lia.
    rewrite (list_lookup_middle _ [] spawned) by (rewrite length_app; cbn; lia).
    cbn. rewrite Hmodel, Hsig. cbn. by rewrite <- (assoc_L (++)). }
  assert (Hprocs : length (processes s') = S (S (length (processes s)))).
  { unfold s', resumeStartCapture, startCapture. cbn.
    repeat case_match; cbn; rewrite ?length_alter, !length_app; cbn; lia. }
  assert (Hstreams : streams s' = streams s ∧ readables s' = readables s).
  { unfold s', resumeStartCapture, startCapture. cbn. by repeat case_match. }
  destruct Hvalid as [_ Htargets].
  assert (Hfirst : listenersOf (length (processes s)) s' = 0).
  { apply listenersOf_none. rewrite Hlisteners.
    intros l [Hl|Hl]%elem_of_app.
    - apply Htargets in Hl. lia.
    - apply elem_of_cons in Hl as [->|Hl]; [cbn; lia|].
      apply list_elem_of_singleton in Hl as ->. cbn. lia. }
  assert (Hsecond : listenersOf (S (length (processes s))) s' = 2).
  { unfold listenersOf. rewrite Hlisteners, list.filter_app, length_app.
    rewrite filter_none.
    - cbn. by rewrite !decide_True.
    - intros l Hl. apply Htargets in Hl. lia. }
  assert (Hsec : (startCapture (startCapture s).1).2 = S (length (processes s))).
  { unfold startCapture. cbn. rewrite length_app. cbn. lia. }
  rewrite Hsec. change (startCapture s).2 with (length (processes s)).
  split_and!; [done..| |].
  - destruct (lookup_lt_is_Some_2 (processes s') (length (processes s)))
      as [proc Hproc]; [lia|].
    destruct (stdoutData_effect _ data proc s' Hwf' Hproc)
      as (s1 & Hstep & _ & _ & Hd & _ & _ & _ & Hin & Hout).
    exists s1. cbn [step]. split; [done|]. rewrite Hfirst in Hd, Hin. cbn in Hd.
    rewrite app_nil_r in Hd. split; [done|]. intros r.
    destruct (decide (r ∈ streams s')) as [Hr|Hr]; [|by apply Hout].
    rewrite Hin by done. apply fmap_app_nil.
  - destruct (lookup_lt_is_Some_2 (processes s') (S (length (processes s))))
      as [proc Hproc]; [lia|].
    destruct (stdoutData_effect _ data proc s' Hwf' Hproc)
      as (s2 & Hstep & _ & _ & Hd & _ & _ & _ & Hin & _).
    exists s2. cbn [step]. split; [done|]. rewrite Hsecond in Hd, Hin. done.
Qed.

Lemma two_starts_share_the_second_process_witness :
  let s := after (newStreamCamera None "BCM2711") [CallCreateStream] in
  let signature := [xff; xd8; xff; xdb; x00; x84; x00] in
  let data := [x01; x02] in
  let first := (startCapture s).2 in
  let second := (startCapture (startCapture s).1).2 in
  let s' :=
    resumeStartCapture second
      (resumeStartCapture first (startCapture (startCapture s).1).1) in
  dataListeners s'
  = dataListeners s
    ++ [{| target := second; jpegSignature := signature; stdoutBuffer := [] |};
        {| target := second; jpegSignature := signature; stdoutBuffer := [] |}]
  ∧ listenersOf first s' = 0
  ∧ listenersOf second s' = 2
  ∧ (∃ s1,
       step s' (StdoutData first data) = Some s1
       ∧ dispatched s1 = dispatched s'
       ∧ ∀ r, readables s1 !! r = readables s' !! r)
  ∧ (∃ s2,
       step s' (StdoutData second data) = Some s2
       ∧ dispatched s2 = dispatched s' ++ [data; data]
       ∧ ∀ r, r ∈ streams s' →
           readables s2 !! r
           = (λ items, items ++ [Some data; Some data]) <$> readables s' !! r).
Proof.
  intros s signature data.
  apply (two_starts_share_the_second_process None "BCM2711" signature
           [CallCreateStream] s data); reflexivity.
Defined.

(** ** The promise of [startCapture] *)

Lemma settled_stays_refl call s : settled_stays call s s.
Proof. intros proc Hp. by exists proc. Qed.

Lemma settled_stays_trans call s1 s2 s3 :
  settled_stays call s1 s2 → settled_stays call s2 s3 → settled_stays call s1 s3.
Proof.
  intros H12 H23 proc Hp.
  destruct (H12 proc Hp) as (proc2 & Hp2 & Hs2 & Hk2).
  destruct (H23 proc2 Hp2) as (proc3 & Hp3 & Hs3 & Hk3).
  exists proc3. split_and!; [done| |by auto].
  intros Hne. rewrite Hs3; [by apply Hs2|]. by rewrite Hs2.
Qed.

Lemma settled_stays_alter call (f : ChildProcess → ChildProcess) handle s :
  (∀ proc, (startPromise proc ≠ Pending → startPromise (f proc) = startPromise proc)
           ∧ (killed proc = true → killed (f proc) = true)) →
  settled_stays call s (set_processes (alter f handle (processes s)) s).
Proof.
  intros Hf proc Hp. cbn. destruct (decide (handle = call)) as [->|Hne].
  - exists (f proc). rewrite list_lookup_alter_eq, Hp. split; [done|]. apply Hf.
  - exists proc. by rewrite list_lookup_alter_ne.
Qed.

Lemma settle_settled {A} (outcome p : Settled A) :
  p ≠ Pending → settle outcome p = p.
Proof. by destruct p. Qed.

Lemma settled_stays_settleStart call outcome handle s :
  settled_stays call s
    (set_processes (alter (settleStart outcome) handle (processes s)) s).
Proof.
  apply settled_stays_alter. intros proc. split; [apply settle_settled|done].
Qed.

Lemma atom_settled_stays call e s s' : atom e s s' → settled_stays call s s'.
Proof.
  intros Hatom.
  destruct Hatom as [s|call' s|handle s|s|s|s s' q Htake|handle data s
                     |handle data k l frames rest s Hl Hp
                     |handle data s frame l0 Hc Hl0 Hshape];
    unfold_ops.
  - intros proc Hp. exists proc. cbn. split; [|done]. by apply lookup_app_l_Some.
  - destruct (processes s !! call'); [|(intros proc Hproc; by exists proc)].
    case_match; [|(intros proc Hproc; by exists proc)].
    cbn zeta. eapply settled_stays_trans.
    { by apply (settled_stays_alter call resumed call'). }
    set (s1 := set_processes (alter resumed call' (processes s)) s).
    case_match.
    + exact (settled_stays_settleStart call _ call' s1).
    + case_match.
      * intros proc Hp. by exists proc.
      * exact (settled_stays_settleStart call _ call' s1).
  - repeat case_match; try (intros proc Hproc; by exists proc).
    apply settled_stays_alter. intros proc. split; [apply settle_settled|done].
  - case_match.
    + intros proc Hp.
      destruct (settled_stays_alter call kill n s) with (proc := proc)
        as (proc' & ? & ? & ?); [done..|]. by exists proc'.
    + intros proc Hp. by exists proc.
  - (intros proc Hproc; by exists proc).
  - case_decide; [done|]. injection Htake as <- _. (intros proc Hproc; by exists proc).
  - apply settled_stays_alter. intros proc. split; [apply settle_settled|done].
  - (intros proc Hproc; by exists proc).
  - (intros proc Hproc; by exists proc).
Qed.

(** X8. The promise of a [startCapture] call is settled once: whatever
    happens afterwards (chunks, process errors, the signature lookup failing,
    further calls), a promise that is resolved or rejected keeps its outcome,
    and a process that was killed stays killed. *)
Theorem start_promise_settles_once
    (s s' : State) (events : list Event) (call : nat) (proc : ChildProcess) :
  run s events = Some s' →
  processes s !! call = Some proc →
  ∃ proc',
    processes s' !! call = Some proc'
    ∧ (startPromise proc ≠ Pending → startPromise proc' = startPromise proc)
    ∧ (killed proc = true → killed proc' = true).
Proof.
  intros Hrun. revert proc.
  change (settled_stays call s s'). revert Hrun.
  apply (run_rel (settled_stays call) (λ _, True)).
  - apply settled_stays_refl.
  - apply settled_stays_trans.
  - intros e s1 s2 _. apply atom_settled_stays.
  - by apply Forall_true.
Qed.

Lemma start_promise_settles_once_witness :
  let s :=
    after (newStreamCamera None "Desktop PC")
      [CallStartCapture; StdoutData 0 [x01]] in
  let s' := after s [ResumeStartCapture 0; ProcessError 0; CallStopCapture] in
  ∃ proc',
    processes s' !! 0 = Some proc'
    ∧ (startPromise
         {| killed := false; startPromise := Resolved (); onceError := true;
            onceData := false; awaiting := true |} ≠ Pending →
       startPromise proc'
       = startPromise
           {| killed := false; startPromise := Resolved (); onceError := true;
              onceData := false; awaiting := true |})
    ∧ (killed
         {| killed := false; startPromise := Resolved (); onceError := true;
            onceData := false; awaiting := true |} = true →
       killed proc' = true).
Proof.
  intros s s'.
  apply (start_promise_settles_once s s'
           [ResumeStartCapture 0; ProcessError 0; CallStopCapture] 0).
  - vm_compute. reflexivity.
  - vm_compute. reflexivity.
Defined.

Lemma start_untouched_alter call (f : ChildProcess → ChildProcess) handle s :
  (handle ≠ call
   ∨ ∀ proc, startPromise (f proc) = startPromise proc
             ∧ onceData (f proc) = onceData proc) →
  start_untouched call s (set_processes (alter f handle (processes s)) s).
Proof.
  intros Hf proc Hp. cbn. destruct (decide (handle = call)) as [->|Hne].
  - exists (f proc). rewrite list_lookup_alter_eq, Hp. split; [done|].
    destruct Hf as [?|Hf]; [done|]. apply Hf.
  - exists proc. by rewrite list_lookup_alter_ne.
Qed.

Lemma start_untouched_trans call s1 s2 s3 :
  start_untouched call s1 s2 → start_untouched call s2 s3 →
  start_untouched call s1 s3.
Proof.
  intros H12 H23 proc Hp.
  destruct (H12 proc Hp) as (proc2 & Hp2 & Hs2 & Ho2).
  destruct (H23 proc2 Hp2) as (proc3 & Hp3 & Hs3 & Ho3).
  exists proc3. split_and!; [done|congruence..].
Qed.

(** Along the elementary transitions of every event that is neither a chunk
    nor an error of the process of [call], on a host with a signature and
    with a process stored, the promise of [call] is not touched. *)
Lemma atom_start_untouched call e s s' :
  e ≠ ProcessError call → (∀ data, e ≠ StdoutData call data) →
  atom e s s' →
  (∃ signature, getJpegSignature (systemModel s) = inr signature) →
  is_Some (childProcess s) →
  is_Some (childProcess s') ∧ start_untouched call s s'.
Proof.
  intros Herr Hdata Hatom [signature Hsig] [stored Hstored].
  destruct Hatom as [s|call' s|handle s|s|s|s s' q Htake|handle data s
                     |handle data k l frames rest s Hl Hp
                     |handle data s frame l0 Hc Hl0 Hshape];
    unfold_ops.
  - split; [done|]. intros proc Hproc. exists proc. cbn.
    split; [|done]. by apply lookup_app_l_Some.
  - destruct (processes s !! call');
      [|split; [done|]; intros proc Hproc; by exists proc].
    case_match; [|split; [done|]; intros proc Hproc; by exists proc].
    cbn. rewrite Hsig, Hstored. cbn. split; [done|].
    apply (start_untouched_alter call resumed call'). by right.
  - repeat case_match; (split; [done|]);
      try (intros proc Hproc; by exists proc).
    apply start_untouched_alter. left. congruence.
  - split; [by repeat case_match|]. rewrite Hstored.
    intros proc Hproc.
    destruct (start_untouched_alter call kill stored s) with (proc := proc)
      as (proc' & ? & ? & ?); [by right|done|]. by exists proc'.
  - split; [done|]. intros proc Hproc. by exists proc.
  - case_decide; [done|]. injection Htake as <- _.
    split; [done|]. intros proc Hproc. by exists proc.
  - split; [done|]. apply start_untouched_alter. left. intros ->.
    by destruct (Hdata data).
  - split; [done|]. intros proc Hproc. by exists proc.
  - split; [done|]. intros proc Hproc. by exists proc.
Qed.

Lemma run_start_untouched call events s s' :
  Forall (λ e, e ≠ ProcessError call ∧ ∀ data, e ≠ StdoutData call data) events →
  run s events = Some s' →
  (∃ signature, getJpegSignature (systemModel s) = inr signature) →
  is_Some (childProcess s) →
  start_untouched call s s'.
Proof.
  intros Hall Hrun Hsig Hstored.
  cut (systemModel s' = systemModel s ∧ is_Some (childProcess s')
       ∧ start_untouched call s s'); [by intros (_ & _ & ?)|].
  revert Hsig Hstored.
  apply (run_rel
           (λ s s', (∃ signature, getJpegSignature (systemModel s) = inr signature) →
                    is_Some (childProcess s) →
                    systemModel s' = systemModel s ∧ is_Some (childProcess s')
                    ∧ start_untouched call s s')
           (λ e, e ≠ ProcessError call ∧ ∀ data, e ≠ StdoutData call data))
    with (events := events); [| | |done|done].
  - intros s1 _ Hstored. split_and!; [done..|]. intros proc Hproc. by exists proc.
  - intros s1 s2 s3 H12 H23 Hsig Hstored.
    destruct (H12 Hsig Hstored) as (Hm2 & Hc2 & Hu2).
    destruct H23 as (Hm3 & Hc3 & Hu3); [by rewrite Hm2|done|].
    split_and!; [congruence|done|by eapply start_untouched_trans].
  - intros e s1 s2 [Herr Hdata] Hatom Hsig Hstored.
    destruct (atom_start_untouched call e s1 s2 Herr Hdata Hatom Hsig Hstored).
    split_and!; [|done..]. by apply atom_systemModel in Hatom as [? _].
Qed.

(** X9. On a host with a signature, the promise of a [startCapture] call
    stays pending as long as the process it spawned has delivered no chunk
    and raised no error, whatever else happens (the resumption of its
    executor, other calls, events of other processes); the first chunk of
    that process then resolves it. Spawning alone never resolves the
    promise. *)
Theorem start_promise_waits_for_first_chunk
    (codecOption : option (option Codec)) (model : string) (signature : Buffer)
    (events events' : list Event) (s s2 : State) :
  run (newStreamCamera codecOption model) events = Some s →
  getJpegSignature model = inr signature →
  let s1 := (startCapture s).1 in
  let call := (startCapture s).2 in
  Forall (λ e, e ≠ ProcessError call ∧ ∀ data, e ≠ StdoutData call data) events' →
  run s1 events' = Some s2 →
  startPromise <$> processes s2 !! call = Some Pending
  ∧ ∀ data,
      ∃ s3,
        step s2 (StdoutData call data) = Some s3
        ∧ startPromise <$> processes s3 !! call = Some (Resolved ()).
Proof.
  intros Hrun Hsig. cbn zeta. intros Hall Hrun2.
  pose proof (run_wf _ _ _ Hrun (wf_newStreamCamera _ _)) as Hwf.
  pose proof (run_systemModel _ _ _ Hrun) as Hmodel. cbn in Hmodel.
  assert (Hwf1 : wf (startCapture s).1) by (eapply atom_wf; [apply atom_start|done]).
  pose proof (run_wf _ _ _ Hrun2 Hwf1) as Hwf2.
  destruct (run_start_untouched (length (processes s)) events' _ _ Hall Hrun2)
    with (proc := spawned) as (proc & Hproc & Hpromise & Honce).
  { exists signature. cbn. by rewrite Hmodel. }
  { by eexists. }
  { unfold startCapture. cbn. by rewrite list_lookup_middle. }
  change (startCapture s).2 with (length (processes s)).
  split. { rewrite Hproc. cbn. by rewrite Hpromise. }
  intros data.
  destruct (stdoutData_effect _ data proc s2 Hwf2 Hproc)
    as (s3 & Hstep & _ & _ & _ & _ & _ & Hprocs & _).
  exists s3. split; [done|]. rewrite Hprocs, Honce. cbn.
  rewrite list_lookup_alter_eq, Hproc. cbn. by rewrite Hpromise.
Qed.

Lemma start_promise_waits_for_first_chunk_witness :
  let s := after (newStreamCamera None "BCM2711") [CallCreateStream] in
  let s1 := (startCapture s).1 in
  let call := (startCapture s).2 in
  let s2 :=
    after s1 [ResumeStartCapture 0; CallStartCapture; StdoutData 1 [x01];
              CallStopCapture; ProcessError 1] in
  startPromise <$> processes s2 !! call = Some Pending
  ∧ ∀ data,
      ∃ s3,
        step s2 (StdoutData call data) = Some s3
        ∧ startPromise <$> processes s3 !! call = Some (Resolved ()).
Proof.
  intros s s1 call s2.
  apply (start_promise_waits_for_first_chunk None "BCM2711"
           [xff; xd8; xff; xdb; x00; x84; x00] [CallCreateStream]
           [ResumeStartCapture 0; CallStartCapture; StdoutData 1 [x01];
            CallStopCapture; ProcessError 1] s s2).
  - vm_compute. reflexivity.
  - reflexivity.
  - repeat constructor; (discriminate || (intros data; discriminate)).
  - vm_compute. reflexivity.
Defined.

(** ** A chunk before the executor resumes *)

Lemma atom_suspended call e s s' :
  (∀ c, e ≠ ResumeStartCapture c) → atom e s s' →
  suspended call s → suspended call s'.
Proof.
  intros He Hatom (proc & Hp & Ha).
  assert (∀ f handle,
            (∀ proc, awaiting (f proc) = awaiting proc) →
            suspended call (set_processes (alter f handle (processes s)) s))
    as Halter.
  { intros f handle Hf. unfold suspended. cbn.
    destruct (decide (handle = call)) as [->|Hne].
    - exists (f proc). rewrite list_lookup_alter_eq, Hp. split; [done|].
      by rewrite Hf.
    - exists proc. by rewrite list_lookup_alter_ne. }
  destruct Hatom as [s|c s|handle s|s|s|s s' q Htake|handle data s
                     |handle data k l frames rest s Hl Hp'
                     |handle data s frame l0 Hc Hl0 Hshape];
    unfold_ops.
  - exists proc. split; [|done]. cbn. by apply lookup_app_l_Some.
  - by destruct (He c).
  - repeat case_match; try (by exists proc). by apply Halter.
  - destruct (childProcess s) as [handle|]; [|by exists proc].
    destruct (Halter kill handle) as (proc' & ? & ?); [done|]. by exists proc'.
  - by exists proc.
  - case_decide; [done|]. injection Htake as <- _. by exists proc.
  - by apply Halter.
  - by exists proc.
  - by exists proc.
Qed.

Lemma atom_childProcess e s s' :
  atom e s s' →
  (is_Some (childProcess s) → is_Some (childProcess s'))
  ∧ (e ≠ CallStartCapture → childProcess s' = childProcess s).
Proof.
  intros Hatom.
  destruct Hatom as [s|c s|handle s|s|s|s s' q Htake|handle data s
                     |handle data k l frames rest s Hl Hp'
                     |handle data s frame l0 Hc Hl0 Hshape];
    unfold_ops; try done.
  - by repeat case_match.
  - by repeat case_match.
  - by repeat case_match.
  - case_decide; [done|]. by injection Htake as <- _.
Qed.

Lemma atom_start_untouched_early call e s s' :
  (∀ c, e ≠ ResumeStartCapture c) →
  e ≠ ProcessError call → (∀ data, e ≠ StdoutData call data) →
  atom e s s' → start_untouched call s s'.
Proof.
  intros He Herr Hdata Hatom.
  destruct Hatom as [s|c s|handle s|s|s|s s' q Htake|handle data s
                     |handle data k l frames rest s Hl Hp
                     |handle data s frame l0 Hc Hl0 Hshape];
    unfold_ops.
  - intros proc Hproc. exists proc. cbn.
    split; [|done]. by apply lookup_app_l_Some.
  - by destruct (He c).
  - repeat case_match; try (intros proc Hproc; by exists proc).
    apply start_untouched_alter. left. congruence.
  - destruct (childProcess s) as [stored|]; [|intros proc Hproc; by exists proc].
    intros proc Hproc.
    destruct (start_untouched_alter call kill stored s) with (proc := proc)
      as (proc' & ? & ? & ?); [by right|done|]. by exists proc'.
  - intros proc Hproc. by exists proc.
  - case_decide; [done|]. injection Htake as <- _.
    intros proc Hproc. by exists proc.
  - apply start_untouched_alter. left. intros ->. by destruct (Hdata data).
  - intros proc Hproc. by exists proc.
  - intros proc Hproc. by exists proc.
Qed.

(** X6. A chunk of the process a [startCapture] call has spawned that
    arrives while no executor has resumed since the call, whatever else has
    happened in between (further calls, chunks and errors of any process,
    [stopCapture], new streams): no data listener is attached to that
    process, and the chunk reaches no stream and no listener and emits no
    frame. When it is the first event of that process it resolves the
    promise of the call, which was pending. The executor is still at its
    [await], and the listener it attaches when it resumes, to the process
    stored in [this.childProcess] by then, starts from an empty buffer: the
    first chunk of a capture can be lost in this way. *)
Theorem first_chunk_before_resumption
    (codecOption : option (option Codec)) (model : string)
    (events mid : list Event) (s s2 : State) (data : Buffer) :
  run (newStreamCamera codecOption model) events = Some s →
  let s1 := (startCapture s).1 in
  let call := (startCapture s).2 in
  Forall (λ e, ∀ c, e ≠ ResumeStartCapture c) mid →
  run s1 mid = Some s2 →
  ∃ s3,
    step s2 (StdoutData call data) = Some s3
    ∧ listenersOf call s2 = 0
    ∧ dispatched s3 = dispatched s2
    ∧ readables s3 = readables s2
    ∧ emittedFrames s3 = emittedFrames s2
    ∧ dataListeners s3 = dataListeners s2
    ∧ (Forall (λ e, e ≠ ProcessError call ∧ ∀ chunk, e ≠ StdoutData call chunk) mid →
       startPromise <$> processes s2 !! call = Some Pending
       ∧ startPromise <$> processes s3 !! call = Some (Resolved ()))
    ∧ suspended call s3
    ∧ ∃ stored,
        childProcess s3 = Some stored
        ∧ (CallStartCapture ∉ mid → stored = call)
        ∧ ∀ signature,
            getJpegSignature model = inr signature →
            dataListeners (resumeStartCapture call s3)
            = dataListeners s3
              ++ [{| target := stored; jpegSignature := signature;
                     stdoutBuffer := [] |}].
Proof.
  intros Hrun. cbn zeta. intros Hmid Hrun2.
  pose proof (run_handles_valid _ _ _ Hrun (handles_valid_newStreamCamera _ _))
    as [_ Htargets].
  pose proof (run_systemModel _ _ _ Hrun) as Hmodel. cbn in Hmodel.
  pose proof (run_systemModel _ _ _ Hrun2) as Hmodel2. cbn in Hmodel2.
  change ((startCapture s).2) with (length (processes s)).
  set (call := length (processes s)).
  (* no listener of the new process *)
  assert (∀ l, l ∈ dataListeners s2 → target l ≠ call) as Hnone.
  { intros l Hl Ht.
    assert (target l ∈ target <$> dataListeners s2) as Hin
      by (by apply list_elem_of_fmap_2).
    rewrite (run_targets _ _ _ Hmid Hrun2) in Hin. cbn in Hin.
    apply list_elem_of_fmap in Hin as (l0 & Heq & Hl0).
    apply Htargets in Hl0. unfold call in Ht. lia. }
  (* the executor is still suspended, and a process is stored *)
  assert (suspended call s2 ∧ is_Some (childProcess s2)
          ∧ (CallStartCapture ∉ mid → childProcess s2 = Some call))
    as (Hsusp & [stored Hstored] & Hsame).
  { assert (suspended call (startCapture s).1) as Hsusp1.
    { exists spawned. cbn. by rewrite list_lookup_middle. }
    split_and!.
    - revert Hsusp1.
      apply (run_rel (λ s s', suspended call s → suspended call s')
                     (λ e, ∀ c, e ≠ ResumeStartCapture c))
        with (events := mid); [done|naive_solver| |done|done].
      intros e sa sb. apply atom_suspended.
    - assert (is_Some (childProcess (startCapture s).1)) as Hsome by (by eexists).
      revert Hsome.
      apply (run_rel (λ s s', is_Some (childProcess s) → is_Some (childProcess s'))
                     (λ _, True))
        with (events := mid); [done|naive_solver| |by apply Forall_true|done].
      intros e sa sb _ Hatom. by apply atom_childProcess in Hatom as [? _].
    - intros Hstart.
      transitivity (childProcess (startCapture s).1); [|done].
      apply (run_rel (λ s s', childProcess s' = childProcess s)
                     (λ e, e ≠ CallStartCapture))
        with (events := mid); [done|congruence| | |done].
      + intros e sa sb He Hatom. by apply atom_childProcess in Hatom as [_ ?]; auto.
      + apply list.Forall_forall. by intros e He ->. }
  destruct Hsusp as (proc2 & Hp2 & Ha2).
  set (s3 := if onceData proc2
             then set_processes
                    (alter (λ proc, dataSeen (settleStart (Resolved ()) proc)) call
                           (processes s2)) s2
             else s2).
  assert (dispatched s3 = dispatched s2 ∧ readables s3 = readables s2
          ∧ emittedFrames s3 = emittedFrames s2
          ∧ dataListeners s3 = dataListeners s2
          ∧ childProcess s3 = childProcess s2
          ∧ systemModel s3 = systemModel s2) as (Hd3 & Hr3 & He3 & Hl3 & Hc3 & Hm3).
  { unfold s3. by destruct (onceData proc2). }
  assert (∃ proc3, processes s3 !! call = Some proc3 ∧ awaiting proc3 = true
                   ∧ startPromise proc3
                     = (if onceData proc2 then settle (Resolved ()) (startPromise proc2)
                        else startPromise proc2)) as (proc3 & Hp3 & Ha3 & Hs3).
  { unfold s3. destruct (onceData proc2); cbn.
    - rewrite list_lookup_alter_eq, Hp2. by eexists.
    - by exists proc2. }
  exists s3. split_and!; [|by apply listenersOf_none|done..| | |].
  - cbn [step]. unfold stdoutData. rewrite Hp2. fold s3.
    apply callListeners_skip. intros k l _ Hl. rewrite Hl3 in Hl.
    apply Hnone. by eapply list_elem_of_lookup_2.
  - intros Hfirst.
    assert (start_untouched call (startCapture s).1 s2) as Huntouched.
    { apply (run_rel (start_untouched call)
                     (λ e, (∀ c, e ≠ ResumeStartCapture c)
                           ∧ e ≠ ProcessError call
                           ∧ ∀ chunk, e ≠ StdoutData call chunk))
        with (events := mid); [| | | |done].
      - intros sa proc Hproc. by exists proc.
      - apply start_untouched_trans.
      - intros e sa sb (? & ? & ?). by apply atom_start_untouched_early.
      - rewrite list.Forall_forall in Hmid, Hfirst. apply list.Forall_forall.
        intros e He. destruct (Hfirst e He). split_and!; [by apply Hmid|done..]. }
    destruct (Huntouched spawned) as (proc2' & Hp2' & Hpending & Honce).
    { cbn. by rewrite list_lookup_middle. }
    rewrite Hp2 in Hp2'. injection Hp2' as <-.
    rewrite Hp2, Hp3. cbn. rewrite Hs3, Honce, Hpending. done.
  - by exists proc3.
  - exists stored. split_and!; [congruence| |].
    + intros Hstart. specialize (Hsame Hstart). congruence.
    + intros signature Hsig. unfold resumeStartCapture. rewrite Hp3, Ha3. cbn.
      rewrite Hm3, Hmodel2, Hmodel, Hsig, Hc3, Hstored. cbn.
      by rewrite Hl3.
Qed.

Lemma first_chunk_before_resumption_witness :
  let events :=
    [CallCreateStream; CallStartCapture; ResumeStartCapture 0; CallStopCapture] in
  let mid := [CallCreateStream; StdoutData 0 [x07]; CallTakeImage] in
  let s := after (newStreamCamera (Some (Some MJPEG)) "BCM2711") events in
  let data := [xff; xd8; xff; xdb; x00; x84; x00; x01] in
  let s1 := (startCapture s).1 in
  let call := (startCapture s).2 in
  let s2 := after s1 mid in
  call = 1
  ∧ streams s2 = [1]
  ∧ ∃ s3,
    step s2 (StdoutData call data) = Some s3
    ∧ listenersOf call s2 = 0
    ∧ dispatched s3 = dispatched s2
    ∧ readables s3 = readables s2
    ∧ emittedFrames s3 = emittedFrames s2
    ∧ dataListeners s3 = dataListeners s2
    ∧ (Forall (λ e, e ≠ ProcessError call ∧ ∀ chunk, e ≠ StdoutData call chunk) mid →
       startPromise <$> processes s2 !! call = Some Pending
       ∧ startPromise <$> processes s3 !! call = Some (Resolved ()))
    ∧ suspended call s3
    ∧ ∃ stored,
        childProcess s3 = Some stored
        ∧ (CallStartCapture ∉ mid → stored = call)
        ∧ ∀ signature,
            getJpegSignature "BCM2711" = inr signature →
            dataListeners (resumeStartCapture call s3)
            = dataListeners s3
              ++ [{| target := stored; jpegSignature := signature;
                     stdoutBuffer := [] |}].
Proof.
  intros events mid s data s1 call s2.
  split; [vm_compute; reflexivity|]. split; [vm_compute; reflexivity|].
  apply (first_chunk_before_resumption (Some (Some MJPEG)) "BCM2711"
           events mid s s2 data).
  - vm_compute. reflexivity.
  - unfold mid. repeat constructor; by intros c.
  - vm_compute. reflexivity.
Defined.

(** ** The promises of [takeImage] *)

Lemma atom_images_tracked e s s' : atom e s s' → images_tracked s → images_tracked s'.
Proof.
  intros Hatom Hinv.
  destruct Hatom as [s|call s|handle s|s|s|s s' q Htake|handle data s
                     |handle data k l frames rest s Hl Hp
                     |handle data s frame l0 Hc Hl0 Hshape];
    unfold_ops; try done.
  - by repeat case_match.
  - by repeat case_match.
  - by repeat case_match.
  - case_decide; [done|]. injection Htake as <- _. intros p x. cbn.
    intros [Hp|[-> [= <-]]]%lookup_snoc_Some.
    + destruct Hp as [Hlt Hp]. destruct (Hinv p x Hp) as [[-> Hin]|(f & -> & Hf & Hout)].
      * left. split; [done|]. apply elem_of_app. by left.
      * right. exists f. split_and!; [done..|].
        intros [?| ->%list_elem_of_singleton]%elem_of_app; [done|lia].
    + left. split; [done|]. apply elem_of_app. right. by apply list_elem_of_singleton.
  - intros p x. cbn. intros Hx. right.
    destruct (decide (p ∈ frameListeners s)) as [Hin|Hout].
    + rewrite lookup_alterEach_idemp in Hx by (done || apply settle_idemp).
      destruct (images s !! p) as [y|] eqn:Hy; [|done]. cbn in Hx.
      destruct (Hinv p y Hy) as [[-> _]|(f & -> & Hf & Hnot)]; [|done].
      injection Hx as <-. exists frame. split_and!; [done| |by intros ?%elem_of_nil].
      apply elem_of_app. right. by apply list_elem_of_singleton.
    + rewrite lookup_alterEach_notin in Hx by done.
      destruct (Hinv p x Hx) as [[-> Hin]|(f & -> & Hf & _)]; [done|].
      exists f. split_and!; [done| |by intros ?%elem_of_nil].
      apply elem_of_app. by left.
Qed.

(** X10. In every state a camera reaches, each promise returned by
    [takeImage] is either pending, its [once] listener still attached, or
    resolved with a frame that was emitted, its listener removed. None is
    ever rejected: [stopCapture], process errors and a failed start leave a
    pending [takeImage] pending. *)
Theorem takeImage_promise_never_rejected
    (codecOption : option (option Codec)) (model : string)
    (events : list Event) (s : State) (p : nat) (x : Settled Buffer) :
  run (newStreamCamera codecOption model) events = Some s →
  images s !! p = Some x →
  (x = Pending ∧ p ∈ frameListeners s)
  ∨ (∃ frame, x = Resolved frame ∧ frame ∈ emittedFrames s ∧ p ∉ frameListeners s).
Proof.
  intros Hrun. revert p x. change (images_tracked s). revert Hrun.
  intros Hrun.
  apply (run_rel (λ s s', images_tracked s → images_tracked s') (λ _, True))
    with (events := events) (s := newStreamCamera codecOption model).
  - done.
  - naive_solver.
  - intros e s1 s2 _. apply atom_images_tracked.
  - by apply Forall_true.
  - done.
  - intros p x. cbn. by rewrite lookup_nil.
Qed.

Lemma takeImage_promise_never_rejected_witness :
  let s :=
    after (newStreamCamera (Some (Some MJPEG)) "BCM2711")
      [CallStartCapture; ResumeStartCapture 0; CallTakeImage; CallStopCapture;
       ProcessError 0] in
  (@Pending Buffer = Pending ∧ 0 ∈ frameListeners s)
  ∨ (∃ frame, @Pending Buffer = Resolved frame ∧ frame ∈ emittedFrames s
              ∧ 0 ∉ frameListeners s).
Proof.
  intros s.
  apply (takeImage_promise_never_rejected (Some (Some MJPEG)) "BCM2711"
           [CallStartCapture; ResumeStartCapture 0; CallTakeImage; CallStopCapture;
            ProcessError 0] s 0 Pending).
  - vm_compute. reflexivity.
  - vm_compute. reflexivity.
Defined.

(** X11. Two [takeImage] calls made one after the other on an MJPEG camera
    return two different promises, and the next frame emitted resolves both
    with that same frame. *)
Theorem takeImage_calls_share_next_frame
    (s s1 s2 s3 : State) (p1 p2 : nat) (events : list Event)
    (frame : Buffer) (frames : list Buffer) :
  takeImage s = inr (s1, p1) →
  takeImage s1 = inr (s2, p2) →
  run s2 events = Some s3 →
  drop (length (emittedFrames s)) (emittedFrames s3) = frame :: frames →
  p1 ≠ p2
  ∧ images s3 !! p1 = Some (Resolved frame)
  ∧ images s3 !! p2 = Some (Resolved frame).
Proof.
  unfold takeImage. intros H1 H2 Hrun Hdrop.
  destruct (decide (codec s ≠ Some MJPEG)); [done|]. simplify_eq.
  destruct (decide (_ ≠ Some MJPEG)); [done|]. simplify_eq.
  cbn in Hrun.
  destruct (run_settles (length (images s)) _ _ _ Hrun)
    as (f1 & He1 & _ & Hlisten1 & _).
  destruct (run_settles (length (images s ++ [Pending])) _ _ _ Hrun)
    as (f2 & He2 & _ & Hlisten2 & _).
  cbn in He1, He2, Hlisten1, Hlisten2.
  rewrite He1, drop_app_length in Hdrop. subst f1.
  rewrite He1 in He2. apply (inj (app _)) in He2. subst f2.
  cbn. rewrite length_app. cbn. split_and!; [lia| |].
  - apply Hlisten1.
    + apply elem_of_app. left. apply elem_of_app. right.
      by apply list_elem_of_singleton.
    + rewrite <- (assoc_L (++)). by apply list_lookup_middle.
  - rewrite length_app in Hlisten2. cbn in Hlisten2. apply Hlisten2.
    + apply elem_of_app. right. by apply list_elem_of_singleton.
    + apply list_lookup_middle. rewrite length_app. done.
Qed.

Lemma takeImage_calls_share_next_frame_witness :
  let s :=
    after (newStreamCamera (Some (Some MJPEG)) "BCM2711")
      [CallStartCapture; ResumeStartCapture 0] in
  let s1 := after s [CallTakeImage] in
  let s2 := after s1 [CallTakeImage] in
  let s3 :=
    after s2
      [StdoutData 0 [xff; xd8; xff; xdb; x00; x84; x00; x01; xff; xd8; xff];
       StdoutData 0 [xdb; x00; x84; x00; x02]] in
  0 ≠ 1
  ∧ images s3 !! 0 = Some (Resolved [xff; xd8; xff; xdb; x00; x84; x00; x01])
  ∧ images s3 !! 1 = Some (Resolved [xff; xd8; xff; xdb; x00; x84; x00; x01]).
Proof.
  intros s s1 s2 s3.
  apply (takeImage_calls_share_next_frame s s1 s2 s3 0 1
           [StdoutData 0 [xff; xd8; xff; xdb; x00; x84; x00; x01; xff; xd8; xff];
            StdoutData 0 [xdb; x00; x84; x00; x02]]
           [xff; xd8; xff; xdb; x00; x84; x00; x01] []).
  - vm_compute. reflexivity.
  - vm_compute. reflexivity.
  - vm_compute. reflexivity.
  - vm_compute. reflexivity.
Defined.

(** ** The life of a stream *)

Lemma no_null_chunks (items : list (option Buffer)) :
  None ∉ items → ∃ chunks, items = Some <$> chunks.
Proof.
  induction items as [|[chunk|] items IH]; intros Hnone.
  - by exists [].
  - destruct IH as [chunks ->]; [by intros ?; apply Hnone; right|].
    by exists (chunk :: chunks).
  - destruct Hnone. by left.
Qed.

Lemma atom_streams_tracked e s s' :
  atom e s s' → wf s → streams_tracked s → streams_tracked s'.
Proof.
  intros Hatom Hwf Hinv.
  destruct Hatom as [s|call s|handle s|s|s|s s' q Htake|handle data s
                     |handle data k l frames rest s Hl Hp
                     |handle data s frame l0 Hc Hl0 Hshape];
    unfold_ops; try done.
  - by repeat case_match.
  - by repeat case_match.
  - intros r items. cbn. intros Hitems. right. split; [by intros ?%elem_of_nil|].
    assert (Hheap : pushAll None (streams s) (readables s) !! r = Some items)
      by (by repeat case_match).
    clear Hitems. destruct (decide (r ∈ streams s)) as [Hin|Hout].
    + rewrite lookup_pushAll in Hheap by (done || by apply wf_streams_NoDup).
      destruct (readables s !! r) as [old|] eqn:Hold; [|done].
      injection Hheap as <-.
      destruct (no_null_chunks old) as [chunks ->]; [by eapply wf_streams_open|].
      by exists chunks.
    + rewrite lookup_pushAll_notin in Hheap by done.
      by destruct (Hinv r items Hheap) as [[? _]|[_ ?]].
  - intros r items. cbn. intros [Hitems|[-> <-]]%lookup_snoc_Some.
    + destruct Hitems as [Hlt Hitems].
      destruct (Hinv r items Hitems) as [[Hin Hnone]|[Hout Hclosed]].
      * left. split; [|done]. apply elem_of_app. by left.
      * right. split; [|done].
        intros [?| ->%list_elem_of_singleton]%elem_of_app; [done|lia].
    + left. split; [|by intros ?%elem_of_nil].
      apply elem_of_app. right. by apply list_elem_of_singleton.
  - case_decide; [done|]. by injection Htake as <- _.
  - intros r items. cbn. intros Hitems.
    destruct (decide (r ∈ streams s)) as [Hin|Hout].
    + left. split; [done|].
      rewrite lookup_pushAll in Hitems by (done || by apply wf_streams_NoDup).
      destruct (readables s !! r) as [old|] eqn:Hold; [|done].
      injection Hitems as <-.
      intros [Hnone|Hnone%list_elem_of_singleton]%elem_of_app; [|done].
      by eapply wf_streams_open.
    + rewrite lookup_pushAll_notin in Hitems by done.
      destruct (Hinv r items Hitems) as [[? _]|[_ ?]]; [done|]. by right.
Qed.

(** X12. In every state a camera reaches, a stream made by [createStream]
    is in one of two conditions: in the registry, holding chunks only; or out
    of the registry, holding chunks followed by one [null]. Nothing is ever
    pushed to a stream after its [null], and no stream is ended twice. *)
Theorem stream_open_or_ended
    (codecOption : option (option Codec)) (model : string)
    (events : list Event) (s : State) (r : nat) (items : list (option Buffer)) :
  run (newStreamCamera codecOption model) events = Some s →
  readables s !! r = Some items →
  (r ∈ streams s ∧ ∃ chunks, items = Some <$> chunks)
  ∨ ((r ∉ streams s) ∧ ∃ chunks, items = (Some <$> chunks) ++ [None]).
Proof.
  intros Hrun Hitems.
  assert (Hinv : wf (newStreamCamera codecOption model)
                 ∧ streams_tracked (newStreamCamera codecOption model) →
                 wf s ∧ streams_tracked s).
  { revert Hrun.
    apply (run_rel (λ s s', wf s ∧ streams_tracked s → wf s' ∧ streams_tracked s')
                   (λ _, True))
      with (events := events).
    - done.
    - intros s1 s2 s3 H12 H23 Hinv1. by apply H23, H12.
    - intros e s1 s2 _ Hatom [Hwf Htr].
      split; [by eapply atom_wf|by eapply atom_streams_tracked].
    - by apply Forall_true. }
  destruct Hinv as [_ Htracked].
  { split; [apply wf_newStreamCamera|]. intros r' items'. cbn.
    by rewrite lookup_nil. }
  destruct (Htracked r items Hitems) as [[Hin Hnone]|[Hout Hclosed]].
  - left. split; [done|]. by apply no_null_chunks.
  - by right.
Qed.

Lemma stream_open_or_ended_witness :
  let s :=
    after (newStreamCamera None "BCM2711")
      [CallCreateStream; CallStartCapture; ResumeStartCapture 0;
       StdoutData 0 [x01]; CallStopCapture; CallCreateStream;
       StdoutData 0 [x02]] in
  (0 ∈ streams s ∧ ∃ chunks, [Some [x01]; None] = Some <$> chunks)
  ∨ ((0 ∉ streams s)
     ∧ ∃ chunks, [Some [x01]; None] = (Some <$> chunks) ++ [None]).
Proof.
  intros s.
  apply (stream_open_or_ended None "BCM2711"
           [CallCreateStream; CallStartCapture; ResumeStartCapture 0;
            StdoutData 0 [x01]; CallStopCapture; CallCreateStream;
            StdoutData 0 [x02]] s 0 [Some [x01]; None]).
  - vm_compute. reflexivity.
  - vm_compute. reflexivity.
Defined.

(** ** [spawnPromise] *)

Section SpawnPromiseFacts.
Import SpawnPromise.

(** A promise that is settled is left as it is by every event. *)
Lemma spawnPromise_step_settled (s : SpawnPromise.State) (e : SpawnPromise.Event) :
  promise s ≠ Waiting → promise (SpawnPromise.step s e) = promise s.
Proof.
  intros Hset. unfold SpawnPromise.step, emit.
  destruct (thrown s); [done|].
  destruct e; cbn; repeat (case_match; cbn; try done);
    by destruct (promise s).
Qed.

Lemma spawnPromise_run_settled (s : SpawnPromise.State) (events : list SpawnPromise.Event) :
  promise s ≠ Waiting → promise (SpawnPromise.run s events) = promise s.
Proof.
  revert s. induction events as [|e events IH]; intros s Hset; [done|].
  cbn. rewrite IH; rewrite spawnPromise_step_settled; done.
Qed.

Lemma spawnPromise_run_data (out err : Buffer) (s : SpawnPromise.State)
    (events : list SpawnPromise.Event) :
  SpawnPromise.collecting out err s →
  forallb isData events = true →
  SpawnPromise.collecting (out ++ stdoutOf events) (err ++ stderrOf events)
    (SpawnPromise.run s events).
Proof.
  revert out err s. induction events as [|e events IH]; intros out err s Hs Hdata.
  - cbn. by rewrite !app_nil_r.
  - cbn in Hdata. apply andb_prop in Hdata as [He Hdata]. cbn [SpawnPromise.run foldl].
    rewrite Hs.
    destruct e; try done.
    + unfold stdoutOf, stderrOf, SpawnPromise.step. cbn.
      rewrite app_assoc. by apply IH.
    + unfold stdoutOf, stderrOf, SpawnPromise.step. cbn.
      rewrite app_assoc. by apply IH.
Qed.

(** An event that is not output settles a promise that is still pending with
    every listener attached. *)
Lemma spawnPromise_step_settles (out err : Buffer) (s : SpawnPromise.State)
    (e : SpawnPromise.Event) :
  SpawnPromise.collecting out err s →
  isData e = false →
  promise (SpawnPromise.step s e) ≠ Waiting.
Proof.
  intros -> He. destruct e; try done. unfold SpawnPromise.step. cbn. by case_match.
Qed.

Lemma spawnPromise_pending_data (out err : Buffer) (s : SpawnPromise.State)
    (events : list SpawnPromise.Event) :
  SpawnPromise.collecting out err s →
  promise (SpawnPromise.run s events) = Waiting →
  forallb isData events = true.
Proof.
  revert out err s. induction events as [|e events IH]; intros out err s Hs Hwait; [done|].
  cbn [forallb]. destruct (isData e) eqn:He.
  - cbn. cbn [SpawnPromise.run foldl] in Hwait.
    pose proof (spawnPromise_run_data out err s [e] Hs) as Hone.
    cbn [forallb] in Hone. rewrite He in Hone. specialize (Hone eq_refl).
    exact (IH _ _ _ Hone Hwait).
  - exfalso. cbn [SpawnPromise.run foldl] in Hwait.
    pose proof (spawnPromise_step_settles out err s e Hs He) as Hset.
    apply Hset. rewrite <- Hwait. symmetry.
    by apply spawnPromise_run_settled.
Qed.

Lemma spawnPromise_init_collecting (command : string) :
  SpawnPromise.collecting [] [] (spawnPromise command true true).
Proof. done. Qed.

End SpawnPromiseFacts.

(** X13. [spawnPromise] on a process with both pipes: when the first event
    that is not output is the close of stdout, the promise is fulfilled with
    all the stdout chunks that came before it, end to end, if no byte came on
    stderr, and rejected with the bytes of stderr otherwise, even when stdout
    gave output; no later event changes this. *)
Theorem spawnPromise_outcome_at_close
    (command : string) (events later : list SpawnPromise.Event) :
  forallb SpawnPromise.isData events = true →
  SpawnPromise.promise
    (SpawnPromise.run (SpawnPromise.spawnPromise command true true)
       (events ++ SpawnPromise.StdoutClose :: later))
  = if decide (SpawnPromise.stderrOf events = [])
    then SpawnPromise.Fulfilled (SpawnPromise.stdoutOf events)
    else SpawnPromise.Failed (SpawnPromise.StderrText (SpawnPromise.stderrOf events)).
Proof.
  intros Hdata. unfold SpawnPromise.run. rewrite foldl_app. cbn [foldl].
  pose proof (spawnPromise_run_data [] [] _ events
                (spawnPromise_init_collecting command) Hdata) as Hs.
  unfold SpawnPromise.run in Hs. rewrite Hs. cbn.
  set (s1 := {| SpawnPromise.promise := _ |}).
  assert (SpawnPromise.promise s1 ≠ SpawnPromise.Waiting) as Hset.
  { subst s1. cbn. by case_match. }
  etrans; [exact (spawnPromise_run_settled s1 later Hset)|].
  subst s1. cbn. destruct (SpawnPromise.stderrOf events); by case_decide.
Qed.

Lemma spawnPromise_outcome_at_close_witness :
  let events := [SpawnPromise.StdoutData (bytes "image");
                 SpawnPromise.StderrData (bytes "mmal: no camera");
                 SpawnPromise.StdoutData (bytes " data")] in
  forallb SpawnPromise.isData events = true
  ∧ SpawnPromise.promise
      (SpawnPromise.run (SpawnPromise.spawnPromise "raspistill" true true)
         (events ++ SpawnPromise.StdoutClose
                 :: [SpawnPromise.StdoutError (MkError "late")]))
    = SpawnPromise.Failed (SpawnPromise.StderrText (bytes "mmal: no camera")).
Proof.
  intros events. split; [reflexivity|].
  exact (spawnPromise_outcome_at_close "raspistill" events
           [SpawnPromise.StdoutError (MkError "late")] eq_refl).
Defined.

(** X14. [spawnPromise] on a process with both pipes: when the first event
    that is not output is an error, of the process, of its stdout or of its
    stderr, the promise is rejected with that error, whatever output came
    before; neither a later close nor a later error changes this. *)
Theorem spawnPromise_first_error_wins
    (command : string) (events later : list SpawnPromise.Event)
    (e : SpawnPromise.Event) (err : Error) :
  forallb SpawnPromise.isData events = true →
  SpawnPromise.errorOf e = Some err →
  SpawnPromise.promise
    (SpawnPromise.run (SpawnPromise.spawnPromise command true true)
       (events ++ e :: later))
  = SpawnPromise.Failed (SpawnPromise.ErrorValue err).
Proof.
  intros Hdata He. unfold SpawnPromise.run. rewrite foldl_app. cbn [foldl].
  pose proof (spawnPromise_run_data [] [] _ events
                (spawnPromise_init_collecting command) Hdata) as Hs.
  unfold SpawnPromise.run in Hs. rewrite Hs.
  destruct e; try done; cbn in He; injection He as <-; cbn;
    (etrans; [apply spawnPromise_run_settled; by cbn|]); done.
Qed.

Lemma spawnPromise_first_error_wins_witness :
  let events := [SpawnPromise.StdoutData (bytes "image")] in
  let e := SpawnPromise.StderrError (MkError "EPIPE") in
  forallb SpawnPromise.isData events = true
  ∧ SpawnPromise.errorOf e = Some (MkError "EPIPE")
  ∧ SpawnPromise.promise
      (SpawnPromise.run (SpawnPromise.spawnPromise "raspistill" true true)
         (events ++ e :: [SpawnPromise.StdoutClose]))
    = SpawnPromise.Failed (SpawnPromise.ErrorValue (MkError "EPIPE")).
Proof.
  intros events e. split; [reflexivity|]. split; [reflexivity|].
  exact (spawnPromise_first_error_wins "raspistill" events
           [SpawnPromise.StdoutClose] e (MkError "EPIPE") eq_refl eq_refl).
Defined.

(** X15. [spawnPromise] on a process with both pipes: the promise is pending
    exactly as long as only output has come. Output alone never settles it,
    however much of it comes on stderr, and the first close of stdout or
    error does. *)
Theorem spawnPromise_pending_iff_only_output
    (command : string) (events : list SpawnPromise.Event) :
  SpawnPromise.promise
    (SpawnPromise.run (SpawnPromise.spawnPromise command true true) events)
  = SpawnPromise.Waiting
  ↔ forallb SpawnPromise.isData events = true.
Proof.
  split.
  - apply (spawnPromise_pending_data [] []), spawnPromise_init_collecting.
  - intros Hdata.
    pose proof (spawnPromise_run_data [] [] _ events
                  (spawnPromise_init_collecting command) Hdata) as Hs.
    by rewrite Hs.
Qed.

(** X16. [spawnPromise] on a process that lacks a pipe: the promise is
    rejected before any event, with an error that names the pipe and the
    command, stdout when both lack, and no listener is attached. Output and
    the close of stdout then change nothing; the first [error] event finds no
    listener and is thrown out of [emit], uncaught, and nothing changes after
    that. The promise stays rejected with the error of the executor
    throughout. *)
Theorem spawnPromise_missing_pipe
    (command : string) (hasStdout hasStderr : bool)
    (events : list SpawnPromise.Event) :
  hasStdout && hasStderr = false →
  let s := SpawnPromise.spawnPromise command hasStdout hasStderr in
  SpawnPromise.promise s
  = SpawnPromise.Failed (SpawnPromise.ErrorValue (MkError
      ("No '" ++ (if hasStdout then "stderr" else "stdout")
       ++ "' available on spawned process '" ++ command ++ "'")))
  ∧ SpawnPromise.thrown s = None
  ∧ SpawnPromise.run s events
    = match head (omap SpawnPromise.errorOf events) with
      | Some err => SpawnPromise.throw err s
      | None => s
      end
  ∧ SpawnPromise.promise (SpawnPromise.run s events) = SpawnPromise.promise s.
Proof.
  intros Hpipe s.
  assert (SpawnPromise.attached s = false ∧ SpawnPromise.onceError s = false
          ∧ SpawnPromise.onceStdoutError s = false
          ∧ SpawnPromise.onceStderrError s = false
          ∧ SpawnPromise.thrown s = None) as (Ha & Hb & Hc & Hd & Ht).
  { subst s. by destruct hasStdout, hasStderr. }
  assert (SpawnPromise.run s events
          = match head (omap SpawnPromise.errorOf events) with
            | Some err => SpawnPromise.throw err s
            | None => s
            end) as Hrun.
  { induction events as [|e events IH]; [done|].
    cbn [SpawnPromise.run foldl]. unfold SpawnPromise.step. rewrite Ht.
    destruct e; cbn; rewrite ?Ha, ?Hb, ?Hc, ?Hd; try exact IH.
    all: clear IH; induction events as [|e' events IH]; [done|exact IH]. }
  split_and!; [|done|done|].
  - subst s. by destruct hasStdout, hasStderr.
  - rewrite Hrun. by destruct (head _).
Qed.

Lemma spawnPromise_missing_pipe_witness :
  let events := [SpawnPromise.StdoutData (bytes "image");
                 SpawnPromise.StdoutClose;
                 SpawnPromise.ProcessError (MkError "ENOENT");
                 SpawnPromise.StdoutError (MkError "EPIPE")] in
  let s := SpawnPromise.spawnPromise "raspistill" true false in
  true && false = false
  ∧ SpawnPromise.promise s
    = SpawnPromise.Failed (SpawnPromise.ErrorValue (MkError
        "No 'stderr' available on spawned process 'raspistill'"))
  ∧ SpawnPromise.thrown s = None
  ∧ SpawnPromise.run s events = SpawnPromise.throw (MkError "ENOENT") s
  ∧ SpawnPromise.promise (SpawnPromise.run s events) = SpawnPromise.promise s.
Proof.
  intros events s. split; [reflexivity|].
  exact (spawnPromise_missing_pipe "raspistill" true false events eq_refl).
Defined.

(** ** What [stopCapture] leaves in place *)

Lemma listeners_kept_refl (s : State) : listeners_kept s s.
Proof. split; [done|]. intros k l Hl. by exists l. Qed.

Lemma listeners_kept_same (s s' : State) :
  (is_Some (childProcess s) → is_Some (childProcess s')) →
  dataListeners s' = dataListeners s →
  listeners_kept s s'.
Proof. intros Hc Heq. split; [done|]. intros k l Hl. exists l. by rewrite Heq. Qed.

Lemma listeners_kept_trans (s1 s2 s3 : State) :
  listeners_kept s1 s2 → listeners_kept s2 s3 → listeners_kept s1 s3.
Proof.
  intros [Hc12 H12] [Hc23 H23]. split; [by intros ?%Hc12%Hc23|].
  intros k l Hl. destruct (H12 k l Hl) as (l2 & Hl2 & Ht2 & Hs2).
  destruct (H23 k l2 Hl2) as (l3 & Hl3 & Ht3 & Hs3).
  exists l3. split_and!; [done|congruence..].
Qed.

Lemma atom_listeners_kept (e : Event) (s s' : State) :
  atom e s s' → listeners_kept s s'.
Proof.
  intros Hatom.
  destruct Hatom as [s|call s|handle s|s|s|s s' q Htake|handle data s
                     |handle data k l frames rest s Hl Hp
                     |handle data s frame l0 Hc Hl0 Hshape];
    unfold_ops.
  - by apply listeners_kept_same.
  - repeat case_match; try apply listeners_kept_refl;
      try (by apply listeners_kept_same).
    split; [done|]. intros k l Hl. exists l. split; [|done].
    cbn. by apply lookup_app_l_Some.
  - repeat case_match; try apply listeners_kept_refl.
    by apply listeners_kept_same.
  - destruct (childProcess s); by apply listeners_kept_same.
  - by apply listeners_kept_same.
  - case_decide; [done|]. injection Htake as <- _. by apply listeners_kept_same.
  - by apply listeners_kept_same.
  - split; [done|]. intros k' l' Hl'. cbn.
    destruct (decide (k' = k)) as [->|Hne].
    + rewrite list_lookup_insert_eq; [|by eapply lookup_lt_Some].
      eexists. split; [done|]. cbn. split; congruence.
    + exists l'. by rewrite list_lookup_insert_ne.
  - by apply listeners_kept_same.
Qed.

(** X17. Nothing detaches a data listener or clears [this.childProcess]:
    along every run, [stopCapture] included, a listener attached to the
    stdout of a process stays attached to it, with the signature it was made
    with, and a camera that was started keeps a process. *)
Theorem listeners_never_detached
    (s s' : State) (events : list Event) (k : nat) (l : DataListener) :
  run s events = Some s' →
  dataListeners s !! k = Some l →
  (is_Some (childProcess s) → is_Some (childProcess s'))
  ∧ ∃ l', dataListeners s' !! k = Some l' ∧ target l' = target l
          ∧ jpegSignature l' = jpegSignature l.
Proof.
  intros Hrun Hl.
  assert (listeners_kept s s') as [Hc Hkept].
  { apply (run_rel listeners_kept (λ _, True)) with (events := events);
      [apply listeners_kept_refl|apply listeners_kept_trans| |
       by apply list.Forall_forall|done].
    intros e s1 s2 _. apply atom_listeners_kept. }
  split; [done|]. by apply Hkept.
Qed.

Lemma listeners_never_detached_witness :
  let s := after (newStreamCamera (Some (Some MJPEG)) "BCM2711")
             [CallStartCapture; ResumeStartCapture 0] in
  let events := [CallStopCapture; CallStartCapture; StdoutData 0 (bytes "late")] in
  let l := {| target := 0;
              jpegSignature := [xff; xd8; xff; xdb; x00; x84; x00];
              stdoutBuffer := [] |} in
  run s events = Some (after s events)
  ∧ dataListeners s !! 0 = Some l
  ∧ (is_Some (childProcess s) → is_Some (childProcess (after s events)))
  ∧ ∃ l', dataListeners (after s events) !! 0 = Some l' ∧ target l' = target l
          ∧ jpegSignature l' = jpegSignature l.
Proof.
  intros s events l.
  assert (run s events = Some (after s events)) as Hrun by (vm_compute; reflexivity).
  assert (dataListeners s !! 0 = Some l) as Hl by (vm_compute; reflexivity).
  split; [exact Hrun|]. split; [exact Hl|].
  exact (listeners_never_detached s (after s events) events 0 l Hrun Hl).
Defined.

Lemma apart_from_streams_refl (s : State) : apart_from_streams s s.
Proof.
  split_and!; try done. apply Forall2_same_length_lookup_2; [done|].
  intros i x y Hx Hy. by simplify_eq.
Qed.

Lemma apart_from_streams_emitFrame (s s' : State) (frame : Buffer) :
  apart_from_streams s s' →
  apart_from_streams (emitFrame s frame) (emitFrame s' frame).
Proof.
  intros (Hc & Hl & Hf & Hi & He & Hd & Hp). unfold emitFrame.
  split_and!; cbn; congruence.
Qed.

Lemma apart_from_streams_emitFrames (frames : list Buffer) (s s' : State) :
  apart_from_streams s s' →
  apart_from_streams (foldl emitFrame s frames) (foldl emitFrame s' frames).
Proof.
  revert s s'. induction frames as [|frame frames IH]; intros s s' H; [done|].
  cbn. by apply IH, apart_from_streams_emitFrame.
Qed.

Lemma apart_from_streams_dataListener (k : nat) (data : Buffer) (s s' s1 : State) :
  apart_from_streams s s' →
  dataListener k data s = Some s1 →
  ∃ s1', dataListener k data s' = Some s1' ∧ apart_from_streams s1 s1'.
Proof.
  intros Hap Hrun. pose proof Hap as (Hc & Hl & Hf & Hi & He & Hd & Hp).
  unfold dataListener in *. rewrite Hl.
  destruct (dataListeners s !! k) as [l|]; [|injection Hrun as <-; by eexists].
  cbn in *. rewrite Hc.
  destruct (parseFrames (codec s) (jpegSignature l) (stdoutBuffer l) data)
    as [[frames rest]|]; [|done].
  cbn in *. injection Hrun as <-. eexists. split; [done|].
  apply apart_from_streams_emitFrames. unfold fanOut.
  split_and!; cbn; congruence.
Qed.

Lemma apart_from_streams_callListeners
    (handle : nat) (data : Buffer) (ks : list nat) (s s' s1 : State) :
  apart_from_streams s s' →
  callListeners handle data ks s = Some s1 →
  ∃ s1', callListeners handle data ks s' = Some s1' ∧ apart_from_streams s1 s1'.
Proof.
  revert s s'. induction ks as [|k ks IH]; intros s s' Hap Hrun.
  { injection Hrun as <-. by exists s'. }
  cbn [callListeners] in *. pose proof Hap as (_ & Hl & _). rewrite Hl.
  destruct (dataListeners s !! k) as [l|]; [|by eapply IH].
  case_decide; [|by eapply IH].
  destruct (dataListener k data s) as [s2|] eqn:H2; [|done]. cbn in Hrun.
  destruct (apart_from_streams_dataListener k data s s' s2 Hap H2)
    as (s2' & -> & Hap2).
  cbn. by eapply IH.
Qed.

Lemma apart_from_streams_stdoutData
    (handle : nat) (data : Buffer) (s s' s1 : State) :
  apart_from_streams s s' →
  stdoutData handle data s = Some s1 →
  ∃ s1', stdoutData handle data s' = Some s1' ∧ apart_from_streams s1 s1'.
Proof.
  intros Hap Hrun. pose proof Hap as (Hc & Hl & Hf & Hi & He & Hd & Hp).
  unfold stdoutData in *.
  destruct (processes s !! handle) as [proc|] eqn:Hproc.
  - destruct (Forall2_lookup_l _ _ _ _ _ Hp Hproc) as (proc' & -> & Ho & _).
    rewrite Ho. destruct (onceData proc).
    + cbn in *. rewrite Hl.
      eapply apart_from_streams_callListeners; [|exact Hrun].
      split_and!; cbn; try done.
      apply Forall2_alter; [done|]. intros x y _ _ (? & ? & ? & Hsp).
      cbn. by rewrite Hsp.
    + rewrite Hl. by eapply apart_from_streams_callListeners.
  - injection Hrun as <-. exists s'. split; [|done].
    apply lookup_ge_None in Hproc. apply Forall2_length in Hp.
    rewrite (proj2 (lookup_ge_None (processes s') handle)); [done|lia].
Qed.

Lemma apart_from_streams_stopCapture (s : State) :
  apart_from_streams s (stopCapture s).
Proof.
  unfold stopCapture. split_and!; try (by repeat case_match).
  destruct (childProcess s) as [handle|]; cbn.
  - apply Forall2_same_length_lookup_2; [by rewrite length_alter|].
    intros i x y Hx Hy. destruct (decide (i = handle)) as [->|Hne].
    + rewrite list_lookup_alter_eq, Hx in Hy. by injection Hy as <-.
    + rewrite list_lookup_alter_ne in Hy by done. by simplify_eq.
  - apply Forall2_same_length_lookup_2; [done|].
    intros i x y Hx Hy. by simplify_eq.
Qed.

(** X18. [stopCapture] does not silence the process: a chunk of stdout that
    comes after it goes through the data listeners as it would have without
    the call. The same frames are emitted, the same [takeImage] promises
    resolved and the same buffers left; only the streams, which the call has
    ended and taken out of the registry, do not see it. *)
Theorem chunk_after_stopCapture
    (s s1 : State) (handle : nat) (data : Buffer) :
  stdoutData handle data s = Some s1 →
  ∃ s2, stdoutData handle data (stopCapture s) = Some s2
        ∧ apart_from_streams s1 s2
        ∧ ∀ r items, readables (stopCapture s) !! r = Some items →
            (r ∉ streams s2) ∧ readables s2 !! r = Some items.
Proof.
  intros Hrun.
  destruct (apart_from_streams_stdoutData handle data s (stopCapture s) s1
              (apart_from_streams_stopCapture s) Hrun) as (s2 & Hs2 & Hap).
  exists s2. split; [done|]. split; [done|].
  intros r items Hr.
  assert (run (stopCapture s) [StdoutData handle data] = Some s2) as Hrun2.
  { cbn. by rewrite Hs2. }
  destruct (run_closed_stays r _ _ _ Hrun2) as [_ Hclosed].
  destruct Hclosed as [Hout Heq].
  - cbn. apply not_elem_of_nil.
  - by eapply lookup_lt_Some.
  - split; [done|]. by rewrite Heq.
Qed.

Lemma chunk_after_stopCapture_witness :
  let signature := [xff; xd8; xff; xdb; x00; x84; x00] in
  let s := after (newStreamCamera (Some (Some MJPEG)) "BCM2711")
             [CallStartCapture; ResumeStartCapture 0; CallCreateStream;
              CallTakeImage; StdoutData 0 (signature ++ bytes "image")] in
  let s1 := after s [StdoutData 0 signature] in
  stdoutData 0 signature s = Some s1
  ∧ emittedFrames s1 = [signature ++ bytes "image"]
  ∧ ∃ s2, stdoutData 0 signature (stopCapture s) = Some s2
          ∧ apart_from_streams s1 s2
          ∧ ∀ r items, readables (stopCapture s) !! r = Some items →
              (r ∉ streams s2) ∧ readables s2 !! r = Some items.
Proof.
  intros signature s s1.
  assert (stdoutData 0 signature s = Some s1) as Hrun by (vm_compute; reflexivity).
  split; [exact Hrun|]. split; [vm_compute; reflexivity|].
  exact (chunk_after_stopCapture s s1 0 signature Hrun).
Defined.
